(** * RAMCloud coordinator server list and backup selector

    A shallow embedding of [src/CoordinatorServerList.cc] and
    [src/BackupSelector.cc].  The coordinator server list is a C++
    object whose methods mutate it under one mutex and may throw
    [ServerListException]; it is embedded as a record together with a
    state-and-exception monad in which every method is a computation.
    Fixed-width counters are integers in [Z] with their wrap-around
    written out. *)

From Stdlib Require Import ZArith Lia String.
From stdpp Require Import base option list.

Local Open Scope Z_scope.

(** ** Fixed-width arithmetic *)

Definition u32 (z : Z) : Z := z mod 2 ^ 32.
Definition u64 (z : Z) : Z := z mod 2 ^ 64.

(** ** Shared types

    [ServerId], [ServiceMask], [ServerStatus] and [ServerDetails] are
    declared in headers that are not part of [src/]; they are modelled
    from the data model of the specification. *)

(** Modelled from the spec: ServerId (ServerId.h is missing), "64-bit
    identifier composed of a 32-bit list index and a 32-bit generation
    number.  Equality requires both match."  The index addresses a slot of
    the list and is kept as a [nat]; the generation is a 32-bit value. *)
Record ServerId := mkServerId {
  indexNumber : nat;
  generationNumber : Z
}.

#[global] Instance ServerId_eq_dec : EqDecision ServerId.
Proof. solve_decision. Defined.

Definition ServerId_eqb (a b : ServerId) : bool :=
  Nat.eqb (indexNumber a) (indexNumber b)
  && Z.eqb (generationNumber a) (generationNumber b).

(** Modelled from the spec: the service kinds of WireFormat.h (missing),
    "a small closed set of service kinds (at minimum MASTER, BACKUP,
    MEMBERSHIP)". *)
Inductive ServiceType := MASTER_SERVICE | BACKUP_SERVICE | MEMBERSHIP_SERVICE.

Definition serviceBit (s : ServiceType) : Z :=
  match s with
  | MASTER_SERVICE => 0
  | BACKUP_SERVICE => 1
  | MEMBERSHIP_SERVICE => 2
  end.

(** Modelled from the spec: ServiceMask (ServiceMask.h is missing), a
    "bitset over a small closed set of service kinds"; the mask is the
    32-bit word that travels in the [services] field of the wire entry. *)
Definition ServiceMask := Z.

Definition has (m : ServiceMask) (s : ServiceType) : bool :=
  Z.testbit m (serviceBit s).

Definition maskOf (l : list ServiceType) : ServiceMask :=
  foldr (fun s m => Z.lor (Z.shiftl 1 (serviceBit s)) m) 0 l.

Inductive ServerStatus := UP | CRASHED | DOWN.

Definition ServerStatus_eqb (a b : ServerStatus) : bool :=
  match a, b with
  | UP, UP | CRASHED, CRASHED | DOWN, DOWN => true
  | _, _ => false
  end.

Inductive ServerChangeEvent := SERVER_ADDED | SERVER_CRASHED | SERVER_REMOVED.

(** [ProtoBuf::MasterRecoveryInfo] is opaque to the coordinator. *)
Definition MasterRecoveryInfo := list Byte.byte.

(** Modelled from the spec: UNINITIALIZED_VERSION (declared in the missing
    header), "UNINITIALIZED (=~0)" on 64 bits. *)
Definition UNINITIALIZED_VERSION : Z := 2 ^ 64 - 1.

(** ** Wire messages *)

Inductive ServerList_Type := FULL_LIST | UPDATE.

(** [ProtoBuf::ServerList_Entry], as filled by [Entry::serialize].  The
    64-bit [server_id] is kept as the [ServerId] it encodes and the
    [status] word as the status it encodes. *)
Record ServerList_Entry := mkRow {
  pb_services : Z;
  pb_server_id : ServerId;
  pb_service_locator : string;
  pb_status : ServerStatus;
  pb_expected_read_mbytes_per_sec : Z;
  pb_replication_id : Z
}.

(** [ProtoBuf::ServerList]. *)
Record ServerList := mkServerList {
  server : list ServerList_Entry;
  version_number : Z;
  type : ServerList_Type
}.

(** [add_server()] followed by the filling of the new row. *)
Definition add_server (row : ServerList_Entry) (msg : ServerList)
  : ServerList :=
  {| server := server msg ++ [row];
     version_number := version_number msg;
     type := type msg |}.

(** A default-constructed, or [Clear()]ed, message. *)
Definition ServerList_empty : ServerList :=
  {| server := []; version_number := 0; type := FULL_LIST |}.

Module CSL.

(** ** Data model of the coordinator server list *)

(** [CoordinatorServerList::Entry]: the fields of [ServerDetails] followed
    by the coordinator-only ones. *)
Record Entry := mkEntry {
  serverId : ServerId;
  serviceLocator : string;
  services : ServiceMask;
  expectedReadMBytesPerSec : Z;
  status : ServerStatus;
  replicationId : Z;
  masterRecoveryInfo : MasterRecoveryInfo;
  verifiedVersion : Z;
  updateVersion : Z;
  serverInfoLogId : Z;
  serverUpdateLogId : Z
}.

(** [Entry::Entry(serverId, serviceLocator, services)]. *)
Definition newEntry (id : ServerId) (locator : string) (mask : ServiceMask)
  : Entry :=
  {| serverId := id; serviceLocator := locator; services := mask;
     expectedReadMBytesPerSec := 0; status := UP; replicationId := 0;
     masterRecoveryInfo := [];
     verifiedVersion := UNINITIALIZED_VERSION;
     updateVersion := UNINITIALIZED_VERSION;
     serverInfoLogId := 0; serverUpdateLogId := 0 |}.

Definition set_expectedReadMBytesPerSec (v : Z) (e : Entry) : Entry :=
  {| serverId := serverId e; serviceLocator := serviceLocator e;
     services := services e; expectedReadMBytesPerSec := v;
     status := status e; replicationId := replicationId e;
     masterRecoveryInfo := masterRecoveryInfo e;
     verifiedVersion := verifiedVersion e; updateVersion := updateVersion e;
     serverInfoLogId := serverInfoLogId e;
     serverUpdateLogId := serverUpdateLogId e |}.

Definition set_status (v : ServerStatus) (e : Entry) : Entry :=
  {| serverId := serverId e; serviceLocator := serviceLocator e;
     services := services e;
     expectedReadMBytesPerSec := expectedReadMBytesPerSec e;
     status := v; replicationId := replicationId e;
     masterRecoveryInfo := masterRecoveryInfo e;
     verifiedVersion := verifiedVersion e; updateVersion := updateVersion e;
     serverInfoLogId := serverInfoLogId e;
     serverUpdateLogId := serverUpdateLogId e |}.

Definition set_replicationId (v : Z) (e : Entry) : Entry :=
  {| serverId := serverId e; serviceLocator := serviceLocator e;
     services := services e;
     expectedReadMBytesPerSec := expectedReadMBytesPerSec e;
     status := status e; replicationId := v;
     masterRecoveryInfo := masterRecoveryInfo e;
     verifiedVersion := verifiedVersion e; updateVersion := updateVersion e;
     serverInfoLogId := serverInfoLogId e;
     serverUpdateLogId := serverUpdateLogId e |}.

Definition set_masterRecoveryInfo (v : MasterRecoveryInfo) (e : Entry)
  : Entry :=
  {| serverId := serverId e; serviceLocator := serviceLocator e;
     services := services e;
     expectedReadMBytesPerSec := expectedReadMBytesPerSec e;
     status := status e; replicationId := replicationId e;
     masterRecoveryInfo := v;
     verifiedVersion := verifiedVersion e; updateVersion := updateVersion e;
     serverInfoLogId := serverInfoLogId e;
     serverUpdateLogId := serverUpdateLogId e |}.

Definition set_verifiedVersion (v : Z) (e : Entry) : Entry :=
  {| serverId := serverId e; serviceLocator := serviceLocator e;
     services := services e;
     expectedReadMBytesPerSec := expectedReadMBytesPerSec e;
     status := status e; replicationId := replicationId e;
     masterRecoveryInfo := masterRecoveryInfo e;
     verifiedVersion := v; updateVersion := updateVersion e;
     serverInfoLogId := serverInfoLogId e;
     serverUpdateLogId := serverUpdateLogId e |}.

Definition set_updateVersion (v : Z) (e : Entry) : Entry :=
  {| serverId := serverId e; serviceLocator := serviceLocator e;
     services := services e;
     expectedReadMBytesPerSec := expectedReadMBytesPerSec e;
     status := status e; replicationId := replicationId e;
     masterRecoveryInfo := masterRecoveryInfo e;
     verifiedVersion := verifiedVersion e; updateVersion := v;
     serverInfoLogId := serverInfoLogId e;
     serverUpdateLogId := serverUpdateLogId e |}.

Definition set_serverInfoLogId (v : Z) (e : Entry) : Entry :=
  {| serverId := serverId e; serviceLocator := serviceLocator e;
     services := services e;
     expectedReadMBytesPerSec := expectedReadMBytesPerSec e;
     status := status e; replicationId := replicationId e;
     masterRecoveryInfo := masterRecoveryInfo e;
     verifiedVersion := verifiedVersion e; updateVersion := updateVersion e;
     serverInfoLogId := v;
     serverUpdateLogId := serverUpdateLogId e |}.

Definition set_serverUpdateLogId (v : Z) (e : Entry) : Entry :=
  {| serverId := serverId e; serviceLocator := serviceLocator e;
     services := services e;
     expectedReadMBytesPerSec := expectedReadMBytesPerSec e;
     status := status e; replicationId := replicationId e;
     masterRecoveryInfo := masterRecoveryInfo e;
     verifiedVersion := verifiedVersion e; updateVersion := updateVersion e;
     serverInfoLogId := serverInfoLogId e;
     serverUpdateLogId := v |}.

(** Modelled from the spec: Entry::isMaster and Entry::isBackup (declared
    in the missing CoordinatorServerList.h).  The specification counts as
    masters and backups the entries "e.services∋MASTER ∧ e.status=UP"
    (I3), and describes the scan [isBackup() && replicationId == 0] of
    createReplicationGroup as "backups with status=UP ∧ replicationId=0":
    both predicates hold of servers that are up and offer the service. *)
Definition isMaster (e : Entry) : bool :=
  ServerStatus_eqb (status e) UP && has (services e) MASTER_SERVICE.

Definition isBackup (e : Entry) : bool :=
  ServerStatus_eqb (status e) UP && has (services e) BACKUP_SERVICE.

(** [Entry::serialize]. *)
Definition Entry_serialize (e : Entry) : ServerList_Entry :=
  {| pb_services := services e;
     pb_server_id := serverId e;
     pb_service_locator := serviceLocator e;
     pb_status := status e;
     pb_expected_read_mbytes_per_sec :=
       if isBackup e then expectedReadMBytesPerSec e else 0;
     pb_replication_id := replicationId e |}.

(** Modelled from the spec: one position of the list (the pair type is
    declared in the missing header), "{ entry: optional<Entry>,
    nextGenerationNumber: uint32 }". *)
Record Slot := mkSlot {
  nextGenerationNumber : Z;
  entry : option Entry
}.

Definition emptySlot : Slot := {| nextGenerationNumber := 0; entry := None |}.

(** Modelled from the spec: an element of the update buffer (declared in
    the missing header), "{ version: uint64, incremental: Delta, full:
    optional<Snapshot> }", built by [updates.emplace_back(update)]. *)
Record UpdateBatch := mkBatch {
  batchVersion : Z;
  incremental : ServerList;
  full : option ServerList
}.

(** [lastScan], the bookkeeping of the work-finding scan. *)
Record ScanMetadata := mkScan {
  noWorkFoundForEpoch : Z;
  searchIndex : nat;
  minVersion : Z
}.

(** Records appended to the durable log. *)
Inductive LogRecord :=
| ServerInformation (entry_type : string) (id : ServerId)
    (mask : ServiceMask) (read_speed : Z) (locator : string)
| ServerDownRecord (entry_type : string) (id : ServerId)
| ServerUpdate (entry_type : string) (id : option ServerId)
    (info : MasterRecoveryInfo).

(** Modelled from the spec: the external replicated log behind
    LogCabinHelper (missing), an "append-only log; identifies each record
    by a monotonic entry-ID and supports batch invalidation".  The log
    hands out [expectedEntryId] and advances it. *)
Record DurableLog := mkLog {
  logEntries : list (Z * LogRecord);
  invalidatedIds : list Z;
  expectedEntryId : Z
}.

(** The object, with the collaborators it calls into: the registered
    trackers (each receives the changes of [trackerChanges] in order), the
    recovery manager (the arguments of its [startMasterRecovery] calls)
    and the durable log. *)
Record State := mkState {
  serverList : list Slot;
  numberOfMasters : Z;
  numberOfBackups : Z;
  version : Z;
  update : ServerList;
  updates : list UpdateBatch;
  minConfirmedVersion : Z;
  numUpdatingServers : Z;
  nextReplicationId : Z;
  lastScan : ScanMetadata;
  trackerChanges : list (Entry * ServerChangeEvent);
  recoveryCalls : list Entry;
  logCabin : DurableLog
}.

(** Field updates of the object. *)

Definition set_serverList (v : list Slot) (st : State) : State :=
  {| serverList := v; numberOfMasters := numberOfMasters st;
     numberOfBackups := numberOfBackups st; version := version st;
     update := update st; updates := updates st;
     minConfirmedVersion := minConfirmedVersion st;
     numUpdatingServers := numUpdatingServers st;
     nextReplicationId := nextReplicationId st; lastScan := lastScan st;
     trackerChanges := trackerChanges st;
     recoveryCalls := recoveryCalls st; logCabin := logCabin st |}.

Definition set_numberOfMasters (v : Z) (st : State) : State :=
  {| serverList := serverList st; numberOfMasters := v;
     numberOfBackups := numberOfBackups st; version := version st;
     update := update st; updates := updates st;
     minConfirmedVersion := minConfirmedVersion st;
     numUpdatingServers := numUpdatingServers st;
     nextReplicationId := nextReplicationId st; lastScan := lastScan st;
     trackerChanges := trackerChanges st;
     recoveryCalls := recoveryCalls st; logCabin := logCabin st |}.

Definition set_numberOfBackups (v : Z) (st : State) : State :=
  {| serverList := serverList st; numberOfMasters := numberOfMasters st;
     numberOfBackups := v; version := version st; update := update st;
     updates := updates st; minConfirmedVersion := minConfirmedVersion st;
     numUpdatingServers := numUpdatingServers st;
     nextReplicationId := nextReplicationId st; lastScan := lastScan st;
     trackerChanges := trackerChanges st;
     recoveryCalls := recoveryCalls st; logCabin := logCabin st |}.

Definition set_version (v : Z) (st : State) : State :=
  {| serverList := serverList st; numberOfMasters := numberOfMasters st;
     numberOfBackups := numberOfBackups st; version := v;
     update := update st; updates := updates st;
     minConfirmedVersion := minConfirmedVersion st;
     numUpdatingServers := numUpdatingServers st;
     nextReplicationId := nextReplicationId st; lastScan := lastScan st;
     trackerChanges := trackerChanges st;
     recoveryCalls := recoveryCalls st; logCabin := logCabin st |}.

Definition set_update (v : ServerList) (st : State) : State :=
  {| serverList := serverList st; numberOfMasters := numberOfMasters st;
     numberOfBackups := numberOfBackups st; version := version st;
     update := v; updates := updates st;
     minConfirmedVersion := minConfirmedVersion st;
     numUpdatingServers := numUpdatingServers st;
     nextReplicationId := nextReplicationId st; lastScan := lastScan st;
     trackerChanges := trackerChanges st;
     recoveryCalls := recoveryCalls st; logCabin := logCabin st |}.

Definition set_updates (v : list UpdateBatch) (st : State) : State :=
  {| serverList := serverList st; numberOfMasters := numberOfMasters st;
     numberOfBackups := numberOfBackups st; version := version st;
     update := update st; updates := v;
     minConfirmedVersion := minConfirmedVersion st;
     numUpdatingServers := numUpdatingServers st;
     nextReplicationId := nextReplicationId st; lastScan := lastScan st;
     trackerChanges := trackerChanges st;
     recoveryCalls := recoveryCalls st; logCabin := logCabin st |}.

Definition set_minConfirmedVersion (v : Z) (st : State) : State :=
  {| serverList := serverList st; numberOfMasters := numberOfMasters st;
     numberOfBackups := numberOfBackups st; version := version st;
     update := update st; updates := updates st; minConfirmedVersion := v;
     numUpdatingServers := numUpdatingServers st;
     nextReplicationId := nextReplicationId st; lastScan := lastScan st;
     trackerChanges := trackerChanges st;
     recoveryCalls := recoveryCalls st; logCabin := logCabin st |}.

Definition set_numUpdatingServers (v : Z) (st : State) : State :=
  {| serverList := serverList st; numberOfMasters := numberOfMasters st;
     numberOfBackups := numberOfBackups st; version := version st;
     update := update st; updates := updates st;
     minConfirmedVersion := minConfirmedVersion st;
     numUpdatingServers := v; nextReplicationId := nextReplicationId st;
     lastScan := lastScan st; trackerChanges := trackerChanges st;
     recoveryCalls := recoveryCalls st; logCabin := logCabin st |}.

Definition set_nextReplicationId (v : Z) (st : State) : State :=
  {| serverList := serverList st; numberOfMasters := numberOfMasters st;
     numberOfBackups := numberOfBackups st; version := version st;
     update := update st; updates := updates st;
     minConfirmedVersion := minConfirmedVersion st;
     numUpdatingServers := numUpdatingServers st; nextReplicationId := v;
     lastScan := lastScan st; trackerChanges := trackerChanges st;
     recoveryCalls := recoveryCalls st; logCabin := logCabin st |}.

Definition set_lastScan (v : ScanMetadata) (st : State) : State :=
  {| serverList := serverList st; numberOfMasters := numberOfMasters st;
     numberOfBackups := numberOfBackups st; version := version st;
     update := update st; updates := updates st;
     minConfirmedVersion := minConfirmedVersion st;
     numUpdatingServers := numUpdatingServers st;
     nextReplicationId := nextReplicationId st; lastScan := v;
     trackerChanges := trackerChanges st;
     recoveryCalls := recoveryCalls st; logCabin := logCabin st |}.

Definition set_trackerChanges (v : list (Entry * ServerChangeEvent)) (st : State) : State :=
  {| serverList := serverList st; numberOfMasters := numberOfMasters st;
     numberOfBackups := numberOfBackups st; version := version st;
     update := update st; updates := updates st;
     minConfirmedVersion := minConfirmedVersion st;
     numUpdatingServers := numUpdatingServers st;
     nextReplicationId := nextReplicationId st; lastScan := lastScan st;
     trackerChanges := v; recoveryCalls := recoveryCalls st;
     logCabin := logCabin st |}.

Definition set_recoveryCalls (v : list Entry) (st : State) : State :=
  {| serverList := serverList st; numberOfMasters := numberOfMasters st;
     numberOfBackups := numberOfBackups st; version := version st;
     update := update st; updates := updates st;
     minConfirmedVersion := minConfirmedVersion st;
     numUpdatingServers := numUpdatingServers st;
     nextReplicationId := nextReplicationId st; lastScan := lastScan st;
     trackerChanges := trackerChanges st; recoveryCalls := v;
     logCabin := logCabin st |}.

Definition set_logCabin (v : DurableLog) (st : State) : State :=
  {| serverList := serverList st; numberOfMasters := numberOfMasters st;
     numberOfBackups := numberOfBackups st; version := version st;
     update := update st; updates := updates st;
     minConfirmedVersion := minConfirmedVersion st;
     numUpdatingServers := numUpdatingServers st;
     nextReplicationId := nextReplicationId st; lastScan := lastScan st;
     trackerChanges := trackerChanges st;
     recoveryCalls := recoveryCalls st; logCabin := v |}.

(** ** The monad of methods

    A method runs on the object and either returns a value or throws; in
    both cases the writes it made so far stay in the object. *)

Inductive Exception :=
| ServerListException (id : ServerId)
| AssertionFailure.

Inductive Result (A : Type) :=
| Returns (a : A)
| Throws (e : Exception).
Arguments Returns {A} a.
Arguments Throws {A} e.

Definition M (A : Type) : Type := State → Result A * State.

#[global] Instance M_ret : MRet M := λ A a st, (Returns a, st).

#[global] Instance M_bind : MBind M := λ A B f m st,
  match m st with
  | (Returns a, st') => f a st'
  | (Throws e, st') => (Throws e, st')
  end.

Definition throw {A} (e : Exception) : M A := λ st, (Throws e, st).
Definition getState : M State := λ st, (Returns st, st).
Definition modify (f : State → State) : M unit := λ st, (Returns tt, f st).
Definition when (b : bool) (m : M unit) : M unit := if b then m else mret tt.

(** [try { m } catch (const ServerListException& e) { h e }]. *)
Definition tryCatch {A} (m : M A) (h : ServerId → M A) : M A := λ st,
  match m st with
  | (Throws (ServerListException id), st') => h id st'
  | r => r
  end.

(** The state a method leaves behind, and its outcome. *)
Definition exec {A} (m : M A) (st : State) : State := (m st).2.
Definition outcome {A} (m : M A) (st : State) : Result A := (m st).1.

(** ** Collaborators *)

(** [foreach tracker: enqueueChange(entry, event)], then the callbacks. *)
Definition enqueueChange (e : Entry) (ev : ServerChangeEvent) : M unit :=
  modify (λ st, set_trackerChanges (trackerChanges st ++ [(e, ev)]) st).

(** [context->recoveryManager->startMasterRecovery(entry)]. *)
Definition startMasterRecovery (e : Entry) : M unit :=
  modify (λ st, set_recoveryCalls (recoveryCalls st ++ [e]) st).

(** [logCabinHelper->appendProtoBuf(expectedEntryId, record, invalidates)]. *)
Definition appendProtoBuf (r : LogRecord) (invalidates : list Z) : M Z :=
  λ st,
    let lg := logCabin st in
    let id := expectedEntryId lg in
    (Returns id,
     set_logCabin {| logEntries := logEntries lg ++ [(id, r)];
                     invalidatedIds := invalidatedIds lg ++ invalidates;
                     expectedEntryId := u64 (id + 1) |} st).

(** [logCabinHelper->invalidate(expectedEntryId, invalidates)]. *)
Definition invalidate (invalidates : list Z) : M unit :=
  modify (λ st,
    let lg := logCabin st in
    set_logCabin {| logEntries := logEntries lg;
                    invalidatedIds := invalidatedIds lg ++ invalidates;
                    expectedEntryId := expectedEntryId lg |} st).

(** [logCabinLog->read(id)] followed by [parseProtoBufFromEntry]: the
    record stored under [id], if any. *)
Definition readLog (id : Z) : M (option LogRecord) := λ st,
  (Returns ((λ r, r.2.2) <$>
            list_find (λ p, p.1 = id) (logEntries (logCabin st))),
   st).

(** ** Access to the list *)

(** [serverList.resize(n)]. *)
Definition resize (n : nat) (l : list Slot) : list Slot :=
  take n l ++ replicate (n - length l) emptySlot.

(** Overwrite the optional entry of slot [i]. *)
Definition setEntry (i : nat) (oe : option Entry) (l : list Slot)
  : list Slot :=
  alter (λ p, {| nextGenerationNumber := nextGenerationNumber p;
                 entry := oe |}) i l.

(** The test shared by [getEntry], [iget] and [getReferenceFromServerId]:
    the entry in slot [id.indexNumber()] when the slot is in range,
    occupied, and holds exactly [id]. *)
Definition findEntry (l : list Slot) (id : ServerId) : option Entry :=
  match l !! indexNumber id with
  | Some p =>
      match entry p with
      | Some e => if ServerId_eqb (serverId e) id then Some e else None
      | None => None
      end
  | None => None
  end.

(** [getEntry(id)]: the entry, or [NULL]. *)
Definition getEntry (st : State) (id : ServerId) : option Entry :=
  findEntry (serverList st) id.

(** [iget(ServerId)] performs the same test as [getEntry]. *)
Definition iget (st : State) (id : ServerId) : option Entry := getEntry st id.

(** [getReferenceFromServerId]: the same test, throwing on failure. *)
Definition getReferenceFromServerId (id : ServerId) : M Entry := λ st,
  match getEntry st id with
  | Some e => (Returns e, st)
  | None => (Throws (ServerListException id), st)
  end.

(** A write through the reference returned by
    [getReferenceFromServerId]. *)
Definition updateEntry (id : ServerId) (f : Entry → Entry) : M unit :=
  e ← getReferenceFromServerId id;
  modify (λ st,
    set_serverList (setEntry (indexNumber id) (Some (f e)) (serverList st))
      st).

Definition addServerInfoLogId (id : ServerId) (entryId : Z) : M unit :=
  updateEntry id (set_serverInfoLogId entryId).

Definition addServerUpdateLogId (id : ServerId) (entryId : Z) : M unit :=
  updateEntry id (set_serverUpdateLogId entryId).

Definition getServerInfoLogId (id : ServerId) : M Z :=
  e ← getReferenceFromServerId id; mret (serverInfoLogId e).

Definition getServerUpdateLogId (id : ServerId) : M Z :=
  e ← getReferenceFromServerId id; mret (serverUpdateLogId e).

(** [*update.add_server()] filled by [entry->serialize]. *)
Definition addUpdateRow (e : Entry) : M unit :=
  modify (λ st, set_update (add_server (Entry_serialize e) (update st)) st).

(** ** Private methods *)

(** [crashed].  The validity test at its head is the one of
    [getReferenceFromServerId] and throws the same exception; the
    [assert] on the status aborts. *)
Definition crashed (id : ServerId) : M unit :=
  e ← getReferenceFromServerId id;
  if ServerStatus_eqb (status e) CRASHED then mret tt
  else if ServerStatus_eqb (status e) DOWN then throw AssertionFailure
  else
    when (isMaster e)
      (modify (λ st, set_numberOfMasters (u32 (numberOfMasters st - 1)) st));;
    when (isBackup e)
      (modify (λ st, set_numberOfBackups (u32 (numberOfBackups st - 1)) st));;
    updateEntry id (set_status CRASHED);;
    addUpdateRow (set_status CRASHED e);;
    enqueueChange (set_status CRASHED e) SERVER_CRASHED.

(** [remove]: the entry goes through CRASHED, is published as DOWN, and
    is destroyed. *)
Definition remove (id : ServerId) : M unit :=
  _ ← getReferenceFromServerId id;
  crashed id;;
  e ← getReferenceFromServerId id;
  addUpdateRow (set_status DOWN e);;
  modify (λ st,
    set_serverList (setEntry (indexNumber id) None (serverList st)) st);;
  enqueueChange (set_status DOWN e) SERVER_REMOVED.

(** [add]. *)
Definition add (id : ServerId) (locator : string) (mask : ServiceMask)
    (readSpeed : Z) : M unit :=
  let index := indexNumber id in
  modify (λ st,
    if decide (length (serverList st) ≤ index)%nat
    then set_serverList (resize (S index) (serverList st)) st else st);;
  let e0 := newEntry id locator mask in
  let e := if has mask BACKUP_SERVICE
           then set_expectedReadMBytesPerSec readSpeed e0 else e0 in
  modify (λ st,
    set_serverList
      (<[index := {| nextGenerationNumber := u32 (generationNumber id + 1);
                     entry := Some e |}]> (serverList st)) st);;
  when (has mask MASTER_SERVICE)
    (modify (λ st, set_numberOfMasters (u32 (numberOfMasters st + 1)) st));;
  when (has mask BACKUP_SERVICE)
    (modify (λ st, set_numberOfBackups (u32 (numberOfBackups st + 1)) st));;
  addUpdateRow e;;
  enqueueChange e SERVER_ADDED.

(** The scan of [firstFreeIndex]: starting at [index], stop at the first
    slot without an entry or at the end of the list. *)
Fixpoint firstFreeScan (index : nat) (l : list Slot) : nat :=
  match l with
  | [] => index
  | p :: l' =>
      match entry p with
      | None => index
      | Some _ => firstFreeScan (S index) l'
      end
  end.

(** [firstFreeIndex]: the scan starts at index 1 and the list grows by
    one slot past the returned index when the scan ran off its end. *)
Definition firstFreeIndex : M nat := λ st,
  let index := firstFreeScan 1 (drop 1 (serverList st)) in
  (Returns index,
   if decide (length (serverList st) ≤ index)%nat
   then set_serverList (resize (S index) (serverList st)) st else st).

(** [generateUniqueId]. *)
Definition generateUniqueId : M ServerId :=
  index ← firstFreeIndex;
  st ← getState;
  let pair := default emptySlot (serverList st !! index) in
  let id := mkServerId index (nextGenerationNumber pair) in
  modify (set_serverList
    (<[index := {| nextGenerationNumber :=
                     u32 (nextGenerationNumber pair + 1);
                   entry := Some (newEntry id "" 0) |}]> (serverList st)));;
  mret id.

(** [setReplicationId]. *)
Definition setReplicationId (id : ServerId) (replicationId : Z) : M unit :=
  e ← getReferenceFromServerId id;
  if negb (ServerStatus_eqb (status e) UP) then mret tt
  else
    updateEntry id (set_replicationId replicationId);;
    addUpdateRow (set_replicationId replicationId e).

(** [assignReplicationGroup]. *)
Fixpoint assignReplicationGroup (replicationId : Z)
    (replicationGroupIds : list ServerId) : M bool :=
  match replicationGroupIds with
  | [] => mret true
  | backupId :: rest =>
      st ← getState;
      match iget st backupId with
      | None => mret false
      | Some _ =>
          setReplicationId backupId replicationId;;
          assignReplicationGroup replicationId rest
      end
  end.

(** The first loop of [createReplicationGroup]: the ids of the entries that
    are backups without a replication group, in slot order. *)
Definition freeBackups (l : list Slot) : list ServerId :=
  omap (λ p,
    match entry p with
    | Some e =>
        if isBackup e && (replicationId e =? 0) then Some (serverId e)
        else None
    | None => None
    end) l.

(** The [while] loop of [createReplicationGroup].  The vector
    [freeBackups] is consumed from its back; [stack] is that vector
    reversed, so that [back()] and [pop_back()] work on its head. *)
Fixpoint formGroups (stack : list ServerId) : M unit :=
  match stack with
  | a :: b :: c :: rest =>
      st ← getState;
      assignReplicationGroup (nextReplicationId st) [a; b; c];;
      modify (λ st, set_nextReplicationId (u64 (nextReplicationId st + 1)) st);;
      formGroups rest
  | _ => mret tt
  end.

(** [createReplicationGroup], with [numReplicas = 3]. *)
Definition createReplicationGroup : M unit :=
  st ← getState;
  formGroups (reverse (freeBackups (serverList st))).

(** The [for] loop of [removeReplicationGroup] over the slot indices still
    to visit; [group] is the vector collected so far.  The call of
    [assignReplicationGroup] sits inside the loop. *)
Fixpoint resetGroup (groupId : Z) (indices : list nat)
    (group : list ServerId) : M unit :=
  match indices with
  | [] => mret tt
  | i :: rest =>
      st ← getState;
      let group' :=
        match entry (default emptySlot (serverList st !! i)) with
        | Some e =>
            if isBackup e && (replicationId e =? groupId)
            then group ++ [serverId e] else group
        | None => group
        end in
      (if decide (length group' ≠ 0%nat)
       then assignReplicationGroup 0 group' else mret true);;
      resetGroup groupId rest group'
  end.

(** [removeReplicationGroup]; no call resizes the list during the loop, so
    the indices visited are those below [isize()] at entry. *)
Definition removeReplicationGroup (groupId : Z) : M unit :=
  if groupId =? 0 then mret tt
  else
    st ← getState;
    resetGroup groupId (seq 0 (length (serverList st))) [].

(** [pushUpdate]. *)
Definition pushUpdate : M unit := λ st,
  if decide (length (server (update st)) = 0%nat) then (Returns tt, st)
  else
    let version' := u64 (version st + 1) in
    let published :=
      {| server := server (update st); version_number := version';
         type := UPDATE |} in
    (Returns tt,
     set_update ServerList_empty
       (set_updates
          (updates st ++
             [{| batchVersion := version'; incremental := published;
                 full := None |}])
          (set_version version' st))).

(** ** The logged operations *)

(** [ServerDown::complete]. *)
Definition ServerDown_complete (id : ServerId) (entryId : Z) : M unit :=
  serverInfoLogId ← getServerInfoLogId id;
  serverUpdateLogId ← getServerUpdateLogId id;
  e ← getReferenceFromServerId id;
  crashed id;;
  when (negb (has (services e) MASTER_SERVICE)) (remove id);;
  startMasterRecovery e;;
  removeReplicationGroup (replicationId e);;
  createReplicationGroup;;
  invalidate ([serverInfoLogId; entryId] ++
              if serverUpdateLogId =? 0 then [] else [serverUpdateLogId]).

(** [ServerDown::execute]. *)
Definition ServerDown_execute (id : ServerId) : M unit :=
  entryId ← appendProtoBuf (ServerDownRecord "ServerDown" id) [];
  ServerDown_complete id entryId.

(** [serverDown(lock, serverId)]. *)
Definition serverDown_locked (id : ServerId) : M unit :=
  ServerDown_execute id;;
  pushUpdate.

(** [EnlistServer::complete]. *)
Definition EnlistServer_complete (newServerId : ServerId)
    (mask : ServiceMask) (readSpeed : Z) (locator : string) (entryId : Z)
  : M ServerId :=
  add newServerId locator mask readSpeed;;
  e ← getReferenceFromServerId newServerId;
  when (isBackup e) createReplicationGroup;;
  newEntryId ←
    appendProtoBuf
      (ServerInformation "ServerEnlisted" newServerId mask readSpeed locator)
      [entryId];
  addServerInfoLogId newServerId newEntryId;;
  mret newServerId.

(** [EnlistServer::execute]. *)
Definition EnlistServer_execute (mask : ServiceMask) (readSpeed : Z)
    (locator : string) : M ServerId :=
  newServerId ← generateUniqueId;
  entryId ←
    appendProtoBuf
      (ServerInformation "ServerEnlisting" newServerId mask readSpeed locator)
      [];
  addServerInfoLogId newServerId entryId;;
  EnlistServer_complete newServerId mask readSpeed locator entryId.

(** [SetMasterRecoveryInfo::complete].  The handler invalidates
    [vector<EntryId>(entryId)], a vector of [entryId] zeros. *)
Definition SetMasterRecoveryInfo_complete (id : ServerId)
    (recoveryInfo : MasterRecoveryInfo) (entryId : Z) : M unit :=
  tryCatch
    (addServerUpdateLogId id entryId;;
     updateEntry id (set_masterRecoveryInfo recoveryInfo))
    (λ thrown,
       invalidate (replicate (Z.to_nat entryId) 0);;
       throw (ServerListException thrown)).

(** [SetMasterRecoveryInfo::execute]. *)
Definition SetMasterRecoveryInfo_execute (id : ServerId)
    (recoveryInfo : MasterRecoveryInfo) : M unit :=
  oldEntryId ← getServerUpdateLogId id;
  old ← (if oldEntryId =? 0 then mret None else readLog oldEntryId);
  let serverUpdate :=
    if oldEntryId =? 0 then ServerUpdate "ServerUpdate" (Some id) recoveryInfo
    else
      match old with
      | Some (ServerUpdate t i _) => ServerUpdate t i recoveryInfo
      | _ => ServerUpdate "" None recoveryInfo
      end in
  newEntryId ←
    appendProtoBuf serverUpdate
      (if oldEntryId =? 0 then [] else [oldEntryId]);
  SetMasterRecoveryInfo_complete id recoveryInfo newEntryId.

(** ** Public methods *)

(** [enlistServer]. *)
Definition enlistServer (replacesId : ServerId) (mask : ServiceMask)
    (readSpeed : Z) (locator : string) : M ServerId :=
  st ← getState;
  when (bool_decide (is_Some (iget st replacesId)))
    (serverDown_locked replacesId);;
  newServerId ← EnlistServer_execute mask readSpeed locator;
  pushUpdate;;
  mret newServerId.

(** [serverDown(serverId)]. *)
Definition serverDown (id : ServerId) : M unit := serverDown_locked id.

(** [removeAfterRecovery]. *)
Definition removeAfterRecovery (id : ServerId) : M unit :=
  remove id;;
  pushUpdate.

(** [setMasterRecoveryInfo]. *)
Definition setMasterRecoveryInfo (id : ServerId)
    (recoveryInfo : MasterRecoveryInfo) : M unit :=
  updateEntry id (set_masterRecoveryInfo recoveryInfo);;
  SetMasterRecoveryInfo_execute id recoveryInfo.

(** [recoverEnlistedServer]. *)
Definition recoverEnlistedServer (id : ServerId) (mask : ServiceMask)
    (readSpeed : Z) (locator : string) (entryId : Z) : M unit :=
  add id locator mask readSpeed;;
  pushUpdate.

(** [recoverEnlistServer]. *)
Definition recoverEnlistServer (id : ServerId) (mask : ServiceMask)
    (readSpeed : Z) (locator : string) (entryId : Z) : M unit :=
  EnlistServer_complete id mask readSpeed locator entryId;;
  pushUpdate.

(** [recoverMasterRecoveryInfo]. *)
Definition recoverMasterRecoveryInfo (id : ServerId)
    (recoveryInfo : MasterRecoveryInfo) (entryId : Z) : M unit :=
  SetMasterRecoveryInfo_complete id recoveryInfo entryId.

(** [recoverServerDown]. *)
Definition recoverServerDown (id : ServerId) (entryId : Z) : M unit :=
  ServerDown_complete id entryId.

(** [masterCount] and [backupCount]. *)
Definition masterCount (st : State) : Z := numberOfMasters st.
Definition backupCount (st : State) : Z := numberOfBackups st.

(** [serialize(lock, protoBuf, services)]: the rows are appended to
    [protoBuf] in slot order. *)
Definition serialize (st : State) (protoBuf : ServerList)
    (wanted : ServiceMask) : ServerList :=
  {| server :=
       server protoBuf ++
       omap (λ p,
         match entry p with
         | Some e =>
             if (has (services e) MASTER_SERVICE && has wanted MASTER_SERVICE)
                || (has (services e) BACKUP_SERVICE
                    && has wanted BACKUP_SERVICE)
             then Some (Entry_serialize e) else None
         | None => None
         end) (serverList st);
     version_number := version st;
     type := FULL_LIST |}.

(** The state the constructor leaves (the list version starts at 0 in the
    base class). *)
Definition initialState (log : DurableLog) : State :=
  {| serverList := []; numberOfMasters := 0; numberOfBackups := 0;
     version := 0; update := ServerList_empty; updates := [];
     minConfirmedVersion := 0; numUpdatingServers := 0;
     nextReplicationId := 1;
     lastScan := {| noWorkFoundForEpoch := 0; searchIndex := 0%nat;
                    minVersion := 0 |};
     trackerChanges := []; recoveryCalls := []; logCabin := log |}.

Definition emptyLog : DurableLog :=
  {| logEntries := []; invalidatedIds := []; expectedEntryId := 1 |}.

(** ** The updater thread

    Only the bookkeeping that the thread performs on the list under the
    mutex is embedded: [workSuccess], [workFailed], [pruneUpdates],
    [getWork], and the first phase of an iteration of [updateLoop], which
    retires the finished RPCs. *)

Definition set_noWorkFoundForEpoch (v : Z) (st : State) : State :=
  set_lastScan {| noWorkFoundForEpoch := v;
                  searchIndex := searchIndex (lastScan st);
                  minVersion := minVersion (lastScan st) |} st.

(** The head of both callbacks: the counter is decremented unless it is
    already zero (the error is only logged). *)
Definition releaseUpdatingServer : M unit :=
  modify (λ st,
    if 0 <? numUpdatingServers st
    then set_numUpdatingServers (numUpdatingServers st - 1) st else st).

(** [workSuccess]. *)
Definition workSuccess (id : ServerId) : M unit :=
  releaseUpdatingServer;;
  st ← getState;
  match getEntry st id with
  | None => mret tt
  | Some e =>
      (if verifiedVersion e =? updateVersion e then mret tt
       else updateEntry id (set_verifiedVersion (updateVersion e)));;
      let verified :=
        if verifiedVersion e =? updateVersion e then verifiedVersion e
        else updateVersion e in
      when (verified <? version st) (modify (set_noWorkFoundForEpoch 0))
  end.

(** [workFailed]. *)
Definition workFailed (id : ServerId) : M unit :=
  releaseUpdatingServer;;
  st ← getState;
  match getEntry st id with
  | None => mret tt
  | Some e => updateEntry id (set_updateVersion (verifiedVersion e))
  end;;
  modify (set_noWorkFoundForEpoch 0).

(** The loop of [pruneUpdates]: batches are popped from the front of the
    buffer while their version is at most [confirmed]. *)
Fixpoint popConfirmed (confirmed : Z) (batches : list UpdateBatch)
  : list UpdateBatch :=
  match batches with
  | [] => []
  | b :: rest =>
      if batchVersion b <=? confirmed then popConfirmed confirmed rest
      else batches
  end.

(** [pruneUpdates]. *)
Definition pruneUpdates : M unit :=
  modify (λ st,
    if minConfirmedVersion st =? UNINITIALIZED_VERSION then st
    else if version st <? minConfirmedVersion st
         then set_minConfirmedVersion 0 st
         else set_updates
                (popConfirmed (minConfirmedVersion st) (updates st)) st).

(** [isClusterUpToDate]. *)
Definition isClusterUpToDate (st : State) : bool :=
  (length (serverList st) =? 0)%nat
  || ((numUpdatingServers st =? 0) && (minConfirmedVersion st =? version st)).

(** [UpdaterWorkUnit]; the iterator [firstUpdate] is kept as the position
    in [updates] it points at. *)
Record UpdaterWorkUnit := mkWork {
  targetServer : ServerId;
  sendFullList : bool;
  firstUpdate : nat;
  updateVersionTail : Z
}.

Definition set_searchIndex (v : nat) (st : State) : State :=
  set_lastScan {| noWorkFoundForEpoch := noWorkFoundForEpoch (lastScan st);
                  searchIndex := v;
                  minVersion := minVersion (lastScan st) |} st.

Definition set_minVersion (v : Z) (st : State) : State :=
  set_lastScan {| noWorkFoundForEpoch := noWorkFoundForEpoch (lastScan st);
                  searchIndex := searchIndex (lastScan st);
                  minVersion := v |} st.

(** The test of [getWork] on a server: it is up and offers the membership
    service. *)
Definition updatable (e : Entry) : bool :=
  ServerStatus_eqb (status e) UP && has (services e) MEMBERSHIP_SERVICE.

(** The statistics [getWork] takes when its scan wraps around to slot 0. *)
Definition scanWrapped : M unit :=
  modify (λ st,
    if minVersion (lastScan st) =? UNINITIALIZED_VERSION then st
    else set_minConfirmedVersion (minVersion (lastScan st)) st);;
  modify (set_minVersion UNINITIALIZED_VERSION);;
  pruneUpdates.

(** The end of [getWork] after a scan that found no work. *)
Definition scanFailed (numUpdatableServers : Z)
  : M (option UpdaterWorkUnit) :=
  when (numUpdatableServers =? 0)
    (modify (λ st, set_minConfirmedVersion (version st) st);; pruneUpdates);;
  modify (λ st, set_noWorkFoundForEpoch (version st) st);;
  mret None.

(** The end of [getWork] on a hit: the bookkeeping for the work unit
    [wu], built for the entry [e] of slot [i]. *)
Definition takeWork (i : nat) (e : Entry) (wu : UpdaterWorkUnit)
  : M (option UpdaterWorkUnit) :=
  modify (λ st, set_numUpdatingServers (u64 (numUpdatingServers st + 1)) st);;
  modify (set_searchIndex i);;
  modify (λ st,
    set_serverList
      (setEntry i (Some (set_updateVersion (updateVersionTail wu) e))
         (serverList st)) st);;
  mret (Some wu).

(** The work unit for the entry [e] of slot [i], which needs an update:
    the full list, materialized in the last batch unless it is there
    already, for a server that has confirmed nothing yet; otherwise the one
    batch after the version the server has confirmed.  [back()] and
    [front()] of an empty buffer abort. *)
Definition packWork (i : nat) (e : Entry) : M (option UpdaterWorkUnit) :=
  st ← getState;
  if verifiedVersion e =? UNINITIALIZED_VERSION then
    match last (updates st) with
    | None => throw AssertionFailure
    | Some b =>
        match full b with
        | Some _ => mret tt
        | None =>
            modify (set_updates
              (<[pred (length (updates st)) :=
                   {| batchVersion := batchVersion b;
                      incremental := incremental b;
                      full := Some (serialize st ServerList_empty
                                      (maskOf [MASTER_SERVICE;
                                               BACKUP_SERVICE])) |}]>
                 (updates st)))
        end;;
        takeWork i e
          {| targetServer := serverId e; sendFullList := true;
             firstUpdate := pred (length (updates st));
             updateVersionTail := version st |}
    end
  else
    match head (updates st) with
    | None => throw AssertionFailure
    | Some b0 =>
        let tail := u64 (verifiedVersion e + 1) in
        takeWork i e
          {| targetServer := serverId e; sendFullList := false;
             firstUpdate := Z.to_nat (u64 (tail - batchVersion b0));
             updateVersionTail := tail |}
    end.

(** The [do ... while] loop of [getWork] from slot [i] on, with the code
    that follows it.  The loop ends when the scan is back at
    [lastScan.searchIndex], after at most as many iterations as there are
    slots; [fuel] counts them.  Indexing the list out of its bounds
    aborts. *)
Fixpoint getWorkScan (fuel : nat) (i : nat) (numUpdatableServers : Z)
  : M (option UpdaterWorkUnit) :=
  match fuel with
  | O => throw AssertionFailure
  | S fuel' =>
      st ← getState;
      match serverList st !! i with
      | None => throw AssertionFailure
      | Some p =>
          let next (n : Z) : M (option UpdaterWorkUnit) :=
            let i' := ((i + 1) mod length (serverList st))%nat in
            when (i' =? 0)%nat scanWrapped;;
            if (i' =? searchIndex (lastScan st))%nat then scanFailed n
            else getWorkScan fuel' i' n in
          match entry p with
          | Some e =>
              if updatable e then
                when (verifiedVersion e <? minVersion (lastScan st))
                  (modify (set_minVersion (verifiedVersion e)));;
                if negb (updateVersion e =? version st)
                   && (updateVersion e =? verifiedVersion e)
                then packWork i e
                else next (numUpdatableServers + 1)
              else next numUpdatableServers
          | None => next numUpdatableServers
          end
      end
  end.

(** [getWork]: the work unit, or [None] where the method returns
    [false]. *)
Definition getWork : M (option UpdaterWorkUnit) :=
  st ← getState;
  if (length (serverList st) =? 0)%nat
     || ((0 <? numUpdatingServers st)
         && (noWorkFoundForEpoch (lastScan st) =? version st))
  then mret None
  else getWorkScan (length (serverList st)) (searchIndex (lastScan st)) 0.

(** What [rpc->wait()] does on a finished RPC: it returns, or it throws
    [ServerNotUpException]. *)
Inductive RpcReply := Acknowledged | ServerNotUp.

(** An [UpdateServerListRpc] in flight, as the loop sees it. *)
Record UpdateServerListRpc := mkRpc {
  targetServerId : ServerId;
  isReady : bool;
  reply : RpcReply
}.

(** The body of the loop for a finished RPC: [success] is set only when
    [wait()] returns; the handler of [ServerNotUpException] is empty. *)
Definition retire (rpc : UpdateServerListRpc) : M unit :=
  let success :=
    match reply rpc with
    | Acknowledged => true
    | ServerNotUp => false
    end in
  if success then workSuccess (targetServerId rpc)
  else workFailed (targetServerId rpc).

(** Phase 1 of an iteration of [updateLoop] (with [stopUpdater] clear):
    walk the Tubs from the front up to the first empty one, skip the RPCs
    that are not ready, retire the finished ones and move their Tubs,
    emptied, to the back.  [freed] are the Tubs moved so far.  The result
    is the list before the iterator and the list from the iterator on. *)
Fixpoint compactRpcs (todo freed : list (option UpdateServerListRpc))
  : M (list (option UpdateServerListRpc) * list (option UpdateServerListRpc)) :=
  match todo with
  | [] => mret ([], freed)
  | None :: _ => mret ([], todo ++ freed)
  | Some rpc :: rest =>
      if isReady rpc
      then retire rpc;; compactRpcs rest (freed ++ [None])
      else
        r ← compactRpcs rest freed;
        mret (Some rpc :: r.1, r.2)
  end.

(** ** Invariants *)

(** I1 of the specification: an occupied slot holds a server id whose
    index is the position of the slot. *)
Definition entriesInPlace (l : list Slot) : Prop :=
  ∀ i p e, l !! i = Some p → entry p = Some e → indexNumber (serverId e) = i.

(** An executable form of [entriesInPlace], for the slots from index [i]
    on. *)
Fixpoint inPlaceFrom (i : nat) (l : list Slot) : bool :=
  match l with
  | [] => true
  | p :: l' =>
      match entry p with
      | Some e => Nat.eqb (indexNumber (serverId e)) i
      | None => true
      end && inPlaceFrom (S i) l'
  end.

(** ** Traces of public calls *)

(** The public methods that change the list, with their arguments. *)
Inductive Call :=
| CallEnlistServer (replacesId : ServerId) (mask : ServiceMask)
    (readSpeed : Z) (locator : string)
| CallServerDown (id : ServerId)
| CallRemoveAfterRecovery (id : ServerId)
| CallSetMasterRecoveryInfo (id : ServerId) (info : MasterRecoveryInfo)
| CallRecoverEnlistedServer (id : ServerId) (mask : ServiceMask)
    (readSpeed : Z) (locator : string) (entryId : Z)
| CallRecoverEnlistServer (id : ServerId) (mask : ServiceMask)
    (readSpeed : Z) (locator : string) (entryId : Z)
| CallRecoverMasterRecoveryInfo (id : ServerId) (info : MasterRecoveryInfo)
    (entryId : Z)
| CallRecoverServerDown (id : ServerId) (entryId : Z).

Definition call (c : Call) : M unit :=
  match c with
  | CallEnlistServer replacesId mask readSpeed locator =>
      enlistServer replacesId mask readSpeed locator;; mret tt
  | CallServerDown id => serverDown id
  | CallRemoveAfterRecovery id => removeAfterRecovery id
  | CallSetMasterRecoveryInfo id info => setMasterRecoveryInfo id info
  | CallRecoverEnlistedServer id mask readSpeed locator entryId =>
      recoverEnlistedServer id mask readSpeed locator entryId
  | CallRecoverEnlistServer id mask readSpeed locator entryId =>
      recoverEnlistServer id mask readSpeed locator entryId
  | CallRecoverMasterRecoveryInfo id info entryId =>
      recoverMasterRecoveryInfo id info entryId
  | CallRecoverServerDown id entryId => recoverServerDown id entryId
  end.

(** The calls of a trace run one after the other; a call that throws
    leaves its partial writes and the next call proceeds. *)
Definition run (calls : list Call) (st : State) : State :=
  foldl (λ s c, exec (call c) s) st calls.

(** The calls of normal operation, as opposed to those that replay the
    log during coordinator recovery. *)
Definition normalCall (c : Call) : bool :=
  match c with
  | CallEnlistServer _ _ _ _ | CallServerDown _ | CallRemoveAfterRecovery _
  | CallSetMasterRecoveryInfo _ _ => true
  | _ => false
  end.

(** ** Example clusters *)

Definition noServer : ServerId := mkServerId 0 0.

(** Three backup-only servers enlisted one after the other. *)
Definition threeBackups : State :=
  run [CallEnlistServer noServer (maskOf [BACKUP_SERVICE]) 100 "b1";
       CallEnlistServer noServer (maskOf [BACKUP_SERVICE]) 100 "b2";
       CallEnlistServer noServer (maskOf [BACKUP_SERVICE]) 100 "b3"]
    (initialState emptyLog).

(** The three backups of [threeBackups] with their group dissolved. *)
Definition ungrouped : State := exec (removeReplicationGroup 1) threeBackups.

(** A master that has crashed and awaits recovery, next to a server that
    only runs the membership service. *)
Definition crashedMaster : State :=
  run [CallEnlistServer noServer (maskOf [MASTER_SERVICE; MEMBERSHIP_SERVICE])
         0 "m1";
       CallEnlistServer noServer (maskOf [MEMBERSHIP_SERVICE]) 0 "s2";
       CallServerDown (mkServerId 1 0)]
    (initialState emptyLog).

(** The finished RPCs that a pass of [compactRpcs] meets: the ready ones
    among the Tubs in front of the first empty Tub. *)
Fixpoint finishedRpcs (todo : list (option UpdateServerListRpc))
  : list UpdateServerListRpc :=
  match todo with
  | [] => []
  | None :: _ => []
  | Some rpc :: rest =>
      if isReady rpc then rpc :: finishedRpcs rest else finishedRpcs rest
  end.

(** The callback owed to a finished RPC, by its reply: [workSuccess] when
    the target acknowledged the update, [workFailed] when it is no longer
    up. *)
Definition callbackFor (rpc : UpdateServerListRpc) : M unit :=
  match reply rpc with
  | Acknowledged => workSuccess (targetServerId rpc)
  | ServerNotUp => workFailed (targetServerId rpc)
  end.

(** The membership server of [crashedMaster] with a full-list update in
    flight: the state [getWork] leaves when it picks that server. *)
Definition updateInFlight : State :=
  exec (updateEntry (mkServerId 2 0) (set_updateVersion (version crashedMaster)))
    (set_numUpdatingServers 1 crashedMaster).

End CSL.

Module BackupSelector.

(** ** The backup selector

    [hosts] is the list of backups fetched from the coordinator; a
    [Backup*] handed out by the selector points into that list and is
    represented by its position.  [hostsOrder] holds positions of [hosts]
    and [numUsedHosts] is the cursor into it. *)
Record State := mkState {
  hosts : list ServerList_Entry;
  hostsOrder : list nat;
  numUsedHosts : nat
}.

(** [updateHostListFromCoordinator], given the list the coordinator
    returns. *)
Definition updateHostListFromCoordinator (fetched : list ServerList_Entry)
  : State :=
  {| hosts := fetched;
     hostsOrder := seq 0 (length fetched);
     numUsedHosts := 0 |}.

(** [getRandomHost], given the value [generateRandom()] returns.  The
    result is [None] when the assertion on [hosts] fails or a vector is
    indexed out of its bounds. *)
Definition getRandomHost (random : Z) (bs : State) : option (nat * State) :=
  if decide (length (hosts bs) = 0)%nat then None
  else
    let i :=
      if decide (length (hostsOrder bs) ≤ numUsedHosts bs)%nat then 0%nat
      else numUsedHosts bs in
    let j :=
      (i + Z.to_nat (random mod Z.of_nat (length (hostsOrder bs) - i)))%nat in
    a ← hostsOrder bs !! i;
    b ← hostsOrder bs !! j;
    Some (b, {| hosts := hosts bs;
                hostsOrder := <[j := a]> (<[i := b]> (hostsOrder bs));
                numUsedHosts := S i |}).

(** Consecutive calls of [getRandomHost], one per random value. *)
Fixpoint getRandomHosts (randoms : list Z) (bs : State)
  : option (list nat * State) :=
  match randoms with
  | [] => Some ([], bs)
  | r :: rest =>
      '(h, bs') ← getRandomHost r bs;
      '(hs, bs'') ← getRandomHosts rest bs';
      Some (h :: hs, bs'')
  end.

(** [conflict]: two backups conflict exactly when they are the same
    element of [hosts]. *)
Definition conflict (a b : nat) : bool := bool_decide (a = b).

(** [conflictWithAny]; [backups] are the [numBackups] elements of the
    array. *)
Fixpoint conflictWithAny (a : nat) (backups : list nat) : bool :=
  match backups with
  | [] => false
  | b :: rest => if conflict a b then true else conflictWithAny a rest
  end.

(** The iterations of the [for] loop of [selectAdditional], one per random
    value: [Some (Some host, _)] when an iteration returns [host],
    [Some (None, _)] when the loop runs to its end, which sends
    [selectAdditional] to refresh the host list. *)
Fixpoint selectAdditionalTries (randoms : list Z) (backups : list nat)
    (bs : State) : option (option nat * State) :=
  match randoms with
  | [] => Some (None, bs)
  | r :: rest =>
      '(host, bs') ← getRandomHost r bs;
      if conflictWithAny host backups
      then selectAdditionalTries rest backups bs'
      else Some (Some host, bs')
  end.

(** The bound of that loop, [uint32_t(hosts.server_size()) * 2] in 32-bit
    arithmetic. *)
Definition selectAdditionalBound (bs : State) : nat :=
  Z.to_nat ((Z.of_nat (length (hosts bs)) * 2) mod 2 ^ 32).

(** One pass of the [for] loop of [selectAdditional], where [random k] is
    the value the [k]-th call of [generateRandom] in the pass returns. *)
Definition selectAdditionalPass (random : nat → Z) (backups : list nat)
    (bs : State) : option (option nat * State) :=
  selectAdditionalTries (random <$> seq 0 (selectAdditionalBound bs))
    backups bs.

(** The selector is well formed when it has hosts and [hostsOrder] is a
    permutation of their positions, as [updateHostListFromCoordinator]
    builds it from a non-empty list. *)
Definition wellFormed (bs : State) : Prop :=
  hosts bs ≠ [] ∧ hostsOrder bs ≡ₚ seq 0 (length (hosts bs)).

(** The position [getRandomHost] works at: the cursor, or 0 when the
    cursor has reached the end of [hostsOrder]. *)
Definition cursor (bs : State) : nat :=
  if decide (length (hostsOrder bs) ≤ numUsedHosts bs)%nat then 0%nat
  else numUsedHosts bs.

End BackupSelector.

Module CSLProperties.
Import CSL.

(** ** Reasoning about methods *)

Ltac state_simpl :=
  cbn [serverList numberOfMasters numberOfBackups version update updates
       minConfirmedVersion numUpdatingServers nextReplicationId lastScan
       trackerChanges recoveryCalls logCabin
       set_serverList set_numberOfMasters set_numberOfBackups set_version
       set_update set_updates set_minConfirmedVersion set_numUpdatingServers
       set_nextReplicationId set_lastScan set_trackerChanges
       set_recoveryCalls set_logCabin
       add_server server version_number type fst snd] in *.

Lemma State_eq (st st' : State) :
  serverList st = serverList st' →
  numberOfMasters st = numberOfMasters st' →
  numberOfBackups st = numberOfBackups st' →
  version st = version st' →
  update st = update st' →
  updates st = updates st' →
  minConfirmedVersion st = minConfirmedVersion st' →
  numUpdatingServers st = numUpdatingServers st' →
  nextReplicationId st = nextReplicationId st' →
  lastScan st = lastScan st' →
  trackerChanges st = trackerChanges st' →
  recoveryCalls st = recoveryCalls st' →
  logCabin st = logCabin st' →
  st = st'.
Proof. destruct st, st'; simpl; intros; by subst. Qed.

Lemma ServerList_eq (a b : ServerList) :
  server a = server b → version_number a = version_number b →
  type a = type b → a = b.
Proof. destruct a, b; simpl; intros; by subst. Qed.

(** Equality of two states, field by field. *)
Ltac state_eq :=
  try (apply (f_equal (pair _)));
  apply State_eq; state_simpl; try reflexivity.

Ltac unfold_monad :=
  unfold exec, outcome, when, modify, getState, throw, tryCatch,
    mbind, M_bind, mret, M_ret in *.

Lemma run_bind {A B} (m : M A) (k : A → M B) (st : State) :
  (m ≫= k) st
  = match m st with
    | (Returns a, st') => k a st'
    | (Throws e, st') => (Throws e, st')
    end.
Proof. reflexivity. Qed.

Lemma run_getState {B} (k : State → M B) (st : State) :
  (getState ≫= k) st = k st st.
Proof. reflexivity. Qed.

Lemma run_modify {B} (f : State → State) (k : unit → M B) (st : State) :
  (modify f ≫= k) st = k tt (f st).
Proof. reflexivity. Qed.

Lemma run_ret {A B} (a : A) (k : A → M B) (st : State) :
  (mret a ≫= k) st = k a st.
Proof. reflexivity. Qed.

Lemma run_when {B} (b : bool) (f : State → State) (k : unit → M B)
    (st : State) :
  (when b (modify f) ≫= k) st = k tt (if b then f st else st).
Proof. by destruct b. Qed.

Lemma exec_bind {A B} (m : M A) (k : A → M B) (st : State) :
  exec (m ≫= k) st
  = match outcome m st with
    | Returns a => exec (k a) (exec m st)
    | Throws _ => exec m st
    end.
Proof.
  unfold exec, outcome. rewrite run_bind.
  destruct (m st) as [[a|e] st']; reflexivity.
Qed.

Lemma outcome_bind {A B} (m : M A) (k : A → M B) (st : State) :
  outcome (m ≫= k) st
  = match outcome m st with
    | Returns a => outcome (k a) (exec m st)
    | Throws e => Throws e
    end.
Proof.
  unfold exec, outcome. rewrite run_bind.
  destruct (m st) as [[a|e] st']; reflexivity.
Qed.

(** A method keeps a relation between the state it starts in and the
    state it leaves; for a preorder this goes through sequencing. *)
Section Keeps.
Context (R : relation State) `{!PreOrder R}.

Definition keeps {A} (m : M A) : Prop := ∀ st, R st (exec m st).

Lemma keeps_ret {A} (a : A) : keeps (mret a).
Proof. intros st. reflexivity. Qed.

Lemma keeps_throw {A} (e : Exception) : keeps (@throw A e).
Proof. intros st. reflexivity. Qed.

Lemma keeps_getState : keeps getState.
Proof. intros st. reflexivity. Qed.

Lemma keeps_bind {A B} (m : M A) (k : A → M B) :
  keeps m → (∀ a, keeps (k a)) → keeps (m ≫= k).
Proof.
  intros Hm Hk st. rewrite exec_bind.
  destruct (outcome m st); [|apply Hm].
  etransitivity; [apply Hm | apply Hk].
Qed.

Lemma keeps_modify (f : State → State) :
  (∀ st, R st (f st)) → keeps (modify f).
Proof. intros H st. apply H. Qed.

Lemma keeps_when (b : bool) (m : M unit) : keeps m → keeps (when b m).
Proof. destruct b; [done | intros _; apply keeps_ret]. Qed.

Lemma keeps_tryCatch {A} (m : M A) (h : ServerId → M A) :
  keeps m → (∀ id, keeps (h id)) → keeps (tryCatch m h).
Proof.
  intros Hm Hh st. unfold exec, tryCatch.
  specialize (Hm st). unfold exec in Hm.
  destruct (m st) as [[a|[id|]] st']; simpl in *; try done.
  etransitivity; [exact Hm | apply Hh].
Qed.

End Keeps.

(** Pre- and postconditions, the latter on the outcome and the state. *)
Definition hoare {A} (P : State → Prop) (m : M A)
    (Q : Result A → State → Prop) : Prop :=
  ∀ st, P st → Q (outcome m st) (exec m st).

Lemma hoare_bind {A B} (P : State → Prop) (m : M A) (k : A → M B)
    (Mid : Result A → State → Prop) (Q : Result B → State → Prop) :
  hoare P m Mid →
  (∀ a, hoare (Mid (Returns a)) (k a) Q) →
  (∀ e st, Mid (Throws e) st → Q (Throws e) st) →
  hoare P (m ≫= k) Q.
Proof.
  intros Hm Hk He st HP. rewrite outcome_bind, exec_bind.
  specialize (Hm st HP). destruct (outcome m st); [by apply Hk | by apply He].
Qed.

Lemma hoare_weaken {A} (P P' : State → Prop) (m : M A)
    (Q Q' : Result A → State → Prop) :
  hoare P m Q → (∀ st, P' st → P st) → (∀ r st, Q r st → Q' r st) →
  hoare P' m Q'.
Proof. intros H HP HQ st HP'. apply HQ, H, HP, HP'. Qed.

(** ** Facts about the list *)

Lemma ServerId_eqb_eq (a b : ServerId) : ServerId_eqb a b = true ↔ a = b.
Proof.
  destruct a as [ia ga], b as [ib gb]; unfold ServerId_eqb; simpl.
  rewrite andb_true_iff, Nat.eqb_eq, Z.eqb_eq.
  split; [intros [-> ->]; reflexivity | intros [= -> ->]; auto].
Qed.

Lemma ServerId_eqb_refl (a : ServerId) : ServerId_eqb a a = true.
Proof. by apply ServerId_eqb_eq. Qed.

Lemma ServerId_eqb_neq (a b : ServerId) : ServerId_eqb a b = false ↔ a ≠ b.
Proof.
  rewrite <- ServerId_eqb_eq. destruct (ServerId_eqb a b); split; congruence.
Qed.

Lemma findEntry_Some (l : list Slot) (id : ServerId) (e : Entry) :
  findEntry l id = Some e ↔
  ∃ p, l !! indexNumber id = Some p ∧ entry p = Some e ∧ serverId e = id.
Proof.
  unfold findEntry. split.
  - destruct (l !! indexNumber id) as [p|]; [|done].
    destruct (entry p) as [e'|] eqn:He; [|done].
    destruct (ServerId_eqb (serverId e') id) eqn:Hid; [|done].
    intros [= ->]. apply ServerId_eqb_eq in Hid. eauto.
  - intros (p & -> & -> & <-). by rewrite ServerId_eqb_refl.
Qed.

Lemma findEntry_serverId (l : list Slot) (id : ServerId) (e : Entry) :
  findEntry l id = Some e → serverId e = id.
Proof. intros H. apply findEntry_Some in H as (? & ? & ? & ?). done. Qed.

Lemma findEntry_lt (l : list Slot) (id : ServerId) (e : Entry) :
  findEntry l id = Some e → (indexNumber id < length l)%nat.
Proof.
  intros H. apply findEntry_Some in H as (p & Hp & _).
  by apply lookup_lt_Some in Hp.
Qed.

Lemma lookup_setEntry_eq (l : list Slot) (i : nat) (oe : option Entry)
    (p : Slot) :
  l !! i = Some p →
  setEntry i oe l !! i
  = Some {| nextGenerationNumber := nextGenerationNumber p; entry := oe |}.
Proof. intros H. unfold setEntry. by rewrite list_lookup_alter_eq, H. Qed.

Lemma lookup_setEntry_ne (l : list Slot) (i j : nat) (oe : option Entry) :
  i ≠ j → setEntry i oe l !! j = l !! j.
Proof. intros H. unfold setEntry. by rewrite list_lookup_alter_ne. Qed.

Lemma length_setEntry (l : list Slot) (i : nat) (oe : option Entry) :
  length (setEntry i oe l) = length l.
Proof. unfold setEntry. apply length_alter. Qed.

Lemma setEntry_setEntry (l : list Slot) (i : nat) (oe oe' : option Entry) :
  setEntry i oe' (setEntry i oe l) = setEntry i oe' l.
Proof.
  unfold setEntry. rewrite list_alter_alter_eq. by apply list_alter_ext.
Qed.

Lemma findEntry_setEntry (l : list Slot) (id : ServerId) (e e' : Entry) :
  findEntry l id = Some e →
  serverId e' = id →
  findEntry (setEntry (indexNumber id) (Some e') l) id = Some e'.
Proof.
  intros Hget Hid. apply findEntry_Some in Hget as (p & Hp & _).
  apply findEntry_Some.
  eexists. split; [by apply lookup_setEntry_eq|]. done.
Qed.

Lemma findEntry_setEntry_None (l : list Slot) (id : ServerId) :
  findEntry (setEntry (indexNumber id) None l) id = None.
Proof.
  unfold findEntry.
  destruct (l !! indexNumber id) as [p|] eqn:Hp.
  - by erewrite lookup_setEntry_eq.
  - unfold setEntry. by rewrite list_lookup_alter_eq, Hp.
Qed.

Lemma findEntry_setEntry_other (l : list Slot) (i : nat)
    (oe : option Entry) (id : ServerId) :
  indexNumber id ≠ i →
  findEntry (setEntry i oe l) id = findEntry l id.
Proof. intros Hne. unfold findEntry. by rewrite lookup_setEntry_ne. Qed.

Lemma findEntry_same_slot (l : list Slot) (id id' : ServerId) (e : Entry) :
  findEntry l id = Some e → indexNumber id' = indexNumber id → id' ≠ id →
  findEntry l id' = None.
Proof.
  intros (p & Hp & He & Hid)%findEntry_Some Heq Hne.
  unfold findEntry. rewrite Heq, Hp, He, Hid.
  by rewrite (proj2 (ServerId_eqb_neq id id')).
Qed.

Lemma run_getReference (st : State) (id : ServerId) (e : Entry) :
  getEntry st id = Some e →
  getReferenceFromServerId id st = (Returns e, st).
Proof. intros H. unfold getReferenceFromServerId. by rewrite H. Qed.

Lemma run_getReference_None (st : State) (id : ServerId) :
  getEntry st id = None →
  getReferenceFromServerId id st = (Throws (ServerListException id), st).
Proof. intros H. unfold getReferenceFromServerId. by rewrite H. Qed.

Lemma run_updateEntry (st : State) (id : ServerId) (f : Entry → Entry)
    (e : Entry) :
  getEntry st id = Some e →
  updateEntry id f st
  = (Returns tt,
     set_serverList (setEntry (indexNumber id) (Some (f e)) (serverList st))
       st).
Proof.
  intros H. unfold updateEntry. rewrite run_bind, (run_getReference _ _ e H).
  reflexivity.
Qed.

(** ** Effects of the private methods on a valid server id *)

Ltac unfold_methods :=
  unfold crashed, remove, addServerInfoLogId, addServerUpdateLogId,
    getServerInfoLogId, getServerUpdateLogId, updateEntry,
    getReferenceFromServerId, addUpdateRow, enqueueChange,
    startMasterRecovery, iget, getEntry in *.

(** The state [crashed] leaves for an entry [e] that is up. *)
Definition crashedState (id : ServerId) (e : Entry) (st : State) : State :=
  set_trackerChanges
    (trackerChanges st ++ [(set_status CRASHED e, SERVER_CRASHED)])
    (set_update (add_server (Entry_serialize (set_status CRASHED e)) (update st))
       (set_serverList
          (setEntry (indexNumber id) (Some (set_status CRASHED e))
             (serverList st))
          (set_numberOfBackups
             (if isBackup e then u32 (numberOfBackups st - 1)
              else numberOfBackups st)
             (set_numberOfMasters
                (if isMaster e then u32 (numberOfMasters st - 1)
                 else numberOfMasters st) st)))).

(** The state [remove] leaves for an entry [e] that is crashed. *)
Definition removedState (id : ServerId) (e : Entry) (st : State) : State :=
  set_trackerChanges
    (trackerChanges st ++ [(set_status DOWN e, SERVER_REMOVED)])
    (set_serverList (setEntry (indexNumber id) None (serverList st))
       (set_update (add_server (Entry_serialize (set_status DOWN e)) (update st))
          st)).

Lemma run_crashed (st : State) (id : ServerId) (e : Entry) :
  getEntry st id = Some e → status e = UP →
  crashed id st = (Returns tt, crashedState id e st).
Proof.
  intros Hget Hst. unfold_methods. unfold_monad.
  rewrite Hget, Hst. cbn [ServerStatus_eqb].
  destruct st. unfold crashedState.
  destruct (isMaster e), (isBackup e); simpl in *; rewrite Hget; reflexivity.
Qed.

Lemma run_crashed_CRASHED (st : State) (id : ServerId) (e : Entry) :
  getEntry st id = Some e → status e = CRASHED →
  crashed id st = (Returns tt, st).
Proof.
  intros Hget Hst. unfold_methods. unfold_monad. by rewrite Hget, Hst.
Qed.

Lemma run_crashed_None (st : State) (id : ServerId) :
  getEntry st id = None →
  crashed id st = (Throws (ServerListException id), st).
Proof. intros Hget. unfold_methods. unfold_monad. by rewrite Hget. Qed.

Lemma getEntry_crashedState (st : State) (id : ServerId) (e : Entry) :
  getEntry st id = Some e →
  getEntry (crashedState id e st) id = Some (set_status CRASHED e).
Proof.
  intros Hget. unfold getEntry in *. simpl.
  eapply findEntry_setEntry; [done|]. simpl. by eapply findEntry_serverId.
Qed.

Lemma run_remove_CRASHED (st : State) (id : ServerId) (e : Entry) :
  getEntry st id = Some e → status e = CRASHED →
  remove id st = (Returns tt, removedState id e st).
Proof.
  intros Hget Hst. unfold remove.
  rewrite run_bind, (run_getReference _ _ e Hget).
  rewrite run_bind, (run_crashed_CRASHED _ _ e Hget Hst).
  rewrite run_bind, (run_getReference _ _ e Hget).
  reflexivity.
Qed.

Lemma run_remove_UP (st : State) (id : ServerId) (e : Entry) :
  getEntry st id = Some e → status e = UP →
  remove id st
  = (Returns tt, removedState id (set_status CRASHED e) (crashedState id e st)).
Proof.
  intros Hget Hst. unfold remove.
  rewrite run_bind, (run_getReference _ _ e Hget).
  rewrite run_bind, (run_crashed _ _ e Hget Hst).
  rewrite run_bind, (run_getReference _ _ _ (getEntry_crashedState _ _ _ Hget)).
  reflexivity.
Qed.

Lemma run_remove_None (st : State) (id : ServerId) :
  getEntry st id = None →
  remove id st = (Throws (ServerListException id), st).
Proof.
  intros Hget. unfold remove.
  by rewrite run_bind, (run_getReference_None _ _ Hget).
Qed.

(** ** Frame lemmas

    A preorder that every write to a given field respects is kept by every
    method that writes to such fields only.  After the section each lemma
    asks only for the fields its method writes. *)
Section Frame.
Context (R : relation State) `{!PreOrder R}.
Hypothesis R_serverList : ∀ v st, R st (set_serverList v st).
Hypothesis R_numberOfMasters : ∀ v st, R st (set_numberOfMasters v st).
Hypothesis R_numberOfBackups : ∀ v st, R st (set_numberOfBackups v st).
Hypothesis R_update : ∀ v st, R st (set_update v st).
Hypothesis R_nextReplicationId : ∀ v st, R st (set_nextReplicationId v st).
Hypothesis R_trackerChanges : ∀ v st, R st (set_trackerChanges v st).
Hypothesis R_recoveryCalls : ∀ v st, R st (set_recoveryCalls v st).
Hypothesis R_logCabin : ∀ v st, R st (set_logCabin v st).

Ltac frame_step :=
  match goal with
  | |- keeps _ (mret _) => apply (keeps_ret R)
  | |- keeps _ (throw _) => apply (keeps_throw R)
  | |- keeps _ getState => apply (keeps_getState R)
  | |- keeps _ (when _ _) => apply (keeps_when R)
  | |- keeps _ (tryCatch _ _) => apply (keeps_tryCatch R)
  | |- keeps _ (_ ≫= _) => apply (keeps_bind R)
  | |- keeps _ (modify _) => apply (keeps_modify R); intros ?
  | |- keeps _ (match ?x with _ => _ end) => destruct x
  | H : context [@keeps] |- keeps _ _ => apply H
  | |- R ?st ?st => reflexivity
  | |- R _ (if ?b then _ else _) => destruct b
  | H : ∀ v st, R st (_ v st) |- R _ _ => apply H
  | |- ∀ _, _ => intro
  end.

Ltac frame := repeat frame_step.

Lemma frame_getReference (id : ServerId) :
  keeps R (getReferenceFromServerId id).
Proof.
  intros st. unfold exec, getReferenceFromServerId.
  destruct (getEntry st id); reflexivity.
Qed.

Lemma frame_updateEntry (id : ServerId) (f : Entry → Entry) :
  keeps R (updateEntry id f).
Proof. unfold updateEntry. pose proof frame_getReference. frame. Qed.

Lemma frame_addUpdateRow (e : Entry) : keeps R (addUpdateRow e).
Proof. unfold addUpdateRow. frame. Qed.

Lemma frame_enqueueChange (e : Entry) (ev : ServerChangeEvent) :
  keeps R (enqueueChange e ev).
Proof. unfold enqueueChange. frame. Qed.

Lemma frame_appendProtoBuf (r : LogRecord) (invalidates : list Z) :
  keeps R (appendProtoBuf r invalidates).
Proof. intros st. apply R_logCabin. Qed.

Lemma frame_invalidate (invalidates : list Z) : keeps R (invalidate invalidates).
Proof. unfold invalidate. frame. Qed.

Lemma frame_readLog (id : Z) : keeps R (readLog id).
Proof. intros st. reflexivity. Qed.

Lemma frame_crashed (id : ServerId) : keeps R (crashed id).
Proof.
  unfold crashed.
  pose proof frame_getReference. pose proof frame_updateEntry.
  pose proof frame_addUpdateRow. pose proof frame_enqueueChange.
  frame.
Qed.

Lemma frame_remove (id : ServerId) : keeps R (remove id).
Proof.
  unfold remove.
  pose proof frame_getReference. pose proof frame_crashed.
  pose proof frame_addUpdateRow. pose proof frame_enqueueChange.
  frame.
Qed.

Lemma frame_add (id : ServerId) (locator : string) (mask : ServiceMask)
    (readSpeed : Z) :
  keeps R (add id locator mask readSpeed).
Proof.
  unfold add.
  pose proof frame_addUpdateRow. pose proof frame_enqueueChange.
  frame.
Qed.

Lemma frame_generateUniqueId : keeps R generateUniqueId.
Proof.
  unfold generateUniqueId.
  assert (keeps R firstFreeIndex).
  { intros st. unfold exec, firstFreeIndex. simpl. case_decide; frame. }
  frame.
Qed.

Lemma frame_setReplicationId (id : ServerId) (r : Z) :
  keeps R (setReplicationId id r).
Proof.
  unfold setReplicationId.
  pose proof frame_getReference. pose proof frame_updateEntry.
  pose proof frame_addUpdateRow.
  frame.
Qed.

Lemma frame_assignReplicationGroup (r : Z) (ids : list ServerId) :
  keeps R (assignReplicationGroup r ids).
Proof.
  pose proof frame_setReplicationId.
  induction ids as [|id ids IH]; simpl; frame.
Qed.

Lemma frame_formGroups (stack : list ServerId) : keeps R (formGroups stack).
Proof.
  pose proof frame_assignReplicationGroup.
  induction stack as [stack IH] using (induction_ltof1 _ (@length _)).
  unfold ltof in IH.
  destruct stack as [|a [|b [|c rest]]]; cbn [formGroups]; frame.
  simpl. lia.
Qed.

Lemma frame_createReplicationGroup : keeps R createReplicationGroup.
Proof. unfold createReplicationGroup. pose proof frame_formGroups. frame. Qed.

Lemma frame_resetGroup (groupId : Z) (indices : list nat)
    (group : list ServerId) :
  keeps R (resetGroup groupId indices group).
Proof.
  pose proof frame_assignReplicationGroup.
  revert group. induction indices as [|i rest IH]; intros group; simpl.
  - frame.
  - apply (keeps_bind R); [frame|]. intros st.
    apply (keeps_bind R); [case_decide; frame|]. intros _. apply IH.
Qed.

Lemma frame_removeReplicationGroup (groupId : Z) :
  keeps R (removeReplicationGroup groupId).
Proof.
  unfold removeReplicationGroup. pose proof frame_resetGroup.
  destruct (groupId =? 0); frame.
Qed.

Lemma frame_ServerDown_complete (id : ServerId) (entryId : Z) :
  keeps R (ServerDown_complete id entryId).
Proof.
  unfold ServerDown_complete, getServerInfoLogId, getServerUpdateLogId,
    startMasterRecovery.
  pose proof frame_getReference. pose proof frame_crashed.
  pose proof frame_remove. pose proof frame_removeReplicationGroup.
  pose proof frame_createReplicationGroup. pose proof frame_invalidate.
  frame.
Qed.

Lemma frame_ServerDown_execute (id : ServerId) :
  keeps R (ServerDown_execute id).
Proof.
  unfold ServerDown_execute.
  pose proof frame_appendProtoBuf. pose proof frame_ServerDown_complete.
  frame.
Qed.

Lemma frame_EnlistServer_complete (id : ServerId) (mask : ServiceMask)
    (readSpeed : Z) (locator : string) (entryId : Z) :
  keeps R (EnlistServer_complete id mask readSpeed locator entryId).
Proof.
  unfold EnlistServer_complete, addServerInfoLogId.
  pose proof frame_add. pose proof frame_getReference.
  pose proof frame_createReplicationGroup. pose proof frame_appendProtoBuf.
  pose proof frame_updateEntry.
  frame.
Qed.

Lemma frame_EnlistServer_execute (mask : ServiceMask) (readSpeed : Z)
    (locator : string) :
  keeps R (EnlistServer_execute mask readSpeed locator).
Proof.
  unfold EnlistServer_execute, addServerInfoLogId.
  pose proof frame_generateUniqueId. pose proof frame_appendProtoBuf.
  pose proof frame_updateEntry. pose proof frame_EnlistServer_complete.
  frame.
Qed.

Lemma frame_SetMasterRecoveryInfo_complete (id : ServerId)
    (info : MasterRecoveryInfo) (entryId : Z) :
  keeps R (SetMasterRecoveryInfo_complete id info entryId).
Proof.
  unfold SetMasterRecoveryInfo_complete, addServerUpdateLogId.
  pose proof frame_updateEntry. pose proof frame_invalidate.
  frame.
Qed.

Lemma frame_setMasterRecoveryInfo (id : ServerId)
    (info : MasterRecoveryInfo) :
  keeps R (setMasterRecoveryInfo id info).
Proof.
  unfold setMasterRecoveryInfo, SetMasterRecoveryInfo_execute,
    getServerUpdateLogId.
  pose proof frame_updateEntry. pose proof frame_getReference.
  pose proof frame_readLog. pose proof frame_appendProtoBuf.
  pose proof frame_SetMasterRecoveryInfo_complete.
  frame.
Qed.

End Frame.

(** ** Publication of updates *)

(** The version after [n] increments of the 64-bit counter. *)
Fixpoint bump (n : nat) (v : Z) : Z :=
  match n with
  | O => v
  | S n' => u64 (bump n' v + 1)
  end.

(** Nothing was published between two states. *)
Definition unpublished (st st' : State) : Prop :=
  version st' = version st ∧ updates st' = updates st.

(** Between two states batches were appended to the update buffer, each
    stamped with the version that follows the previous one, and the list
    version is the stamp of the last batch. *)
Definition published (st st' : State) : Prop :=
  ∃ new,
    updates st' = updates st ++ new
    ∧ version st' = bump (length new) (version st)
    ∧ batchVersion <$> new
      = (λ k, bump (S k) (version st)) <$> seq 0 (length new).

#[local] Instance unpublished_preorder : PreOrder unpublished.
Proof.
  split.
  - intros st. by split.
  - intros a b c [H1 H2] [H3 H4]. split; congruence.
Qed.

Lemma bump_add (n m : nat) (v : Z) : bump (n + m) v = bump n (bump m v).
Proof. induction n as [|n IH]; simpl; [done|]. by rewrite IH. Qed.

Lemma bump_no_wrap (n : nat) (v : Z) :
  0 ≤ v → v + Z.of_nat n < 2 ^ 64 → bump n v = v + Z.of_nat n.
Proof.
  intros Hv. induction n as [|n IH]; intros Hn; simpl bump; [lia|].
  rewrite IH by lia. unfold u64. rewrite Z.mod_small; lia.
Qed.

#[local] Instance published_preorder : PreOrder published.
Proof.
  split.
  - intros st. exists []. simpl. by rewrite app_nil_r.
  - intros a b c (n1 & Hu1 & Hv1 & Hs1) (n2 & Hu2 & Hv2 & Hs2).
    exists (n1 ++ n2). rewrite Hu2, Hu1, <- app_assoc. split; [done|].
    rewrite length_app, (Nat.add_comm (length n1)), bump_add, <- Hv1.
    split; [done|].
    rewrite fmap_app, Hs1, Hs2, Nat.add_comm, seq_app, fmap_app. f_equal.
    rewrite Hv1. simpl.
    replace (seq (length n1) (length n2))
      with (Nat.add (length n1) <$> seq 0 (length n2))
      by (by rewrite fmap_add_seq, Nat.add_0_r).
    rewrite <- list_fmap_compose.
    apply list_fmap_ext. intros _ k _. simpl.
    by rewrite <- bump_add, (Nat.add_comm k).
Qed.

Lemma unpublished_published (st st' : State) :
  unpublished st st' → published st st'.
Proof.
  intros [Hv Hu]. exists []. rewrite Hv, Hu. simpl. by rewrite app_nil_r.
Qed.

Lemma keeps_mono (R R' : relation State) {A} (m : M A) :
  (∀ st st', R st st' → R' st st') → keeps R m → keeps R' m.
Proof. intros H Hm st. apply H, Hm. Qed.

(** The two cases of [pushUpdate]. *)
Lemma run_pushUpdate_empty (st : State) :
  server (update st) = [] → pushUpdate st = (Returns tt, st).
Proof. intros H. unfold pushUpdate. by rewrite H. Qed.

Lemma run_pushUpdate (st : State) :
  server (update st) ≠ [] →
  pushUpdate st
  = (Returns tt,
     set_update ServerList_empty
       (set_updates
          (updates st ++
           [{| batchVersion := u64 (version st + 1);
               incremental :=
                 {| server := server (update st);
                    version_number := u64 (version st + 1);
                    type := UPDATE |};
               full := None |}])
          (set_version (u64 (version st + 1)) st))).
Proof.
  intros H. unfold pushUpdate.
  destruct (decide (length (server (update st)) = 0%nat)) as [H0|]; [|done].
  by apply nil_length_inv in H0.
Qed.

Lemma published_pushUpdate : keeps published pushUpdate.
Proof.
  intros st. unfold exec.
  destruct (decide (server (update st) = [])) as [H|H].
  - rewrite (run_pushUpdate_empty _ H). reflexivity.
  - rewrite (run_pushUpdate _ H). simpl. by eexists [_].
Qed.

(** Every public call publishes in this way, whatever it does else. *)
Lemma published_call (c : Call) : keeps published (call c).
Proof.
  assert (Hq : ∀ A (m : M A), keeps unpublished m → keeps published m)
    by (intros A m; apply keeps_mono, unpublished_published).
  pose proof published_pushUpdate as Hpush.
  assert (Hdown : ∀ id, keeps published (serverDown_locked id)).
  { intros id. apply (keeps_bind published); [|done].
    apply Hq, frame_ServerDown_execute; first [apply _ | by intros; split]. }
  destruct c; simpl.
  - unfold enlistServer.
    apply (keeps_bind published); [|intros; apply (keeps_ret published)].
    apply (keeps_bind published); [apply (keeps_getState published)|].
    intros st. apply (keeps_bind published).
    { apply (keeps_when published), Hdown. }
    intros _. apply (keeps_bind published).
    { apply Hq, frame_EnlistServer_execute; first [apply _ | by intros; split]. }
    intros id. apply (keeps_bind published); [done|].
    intros; apply (keeps_ret published).
  - apply Hdown.
  - apply (keeps_bind published); [|done].
    apply Hq, frame_remove; first [apply _ | by intros; split].
  - apply Hq, frame_setMasterRecoveryInfo; first [apply _ | by intros; split].
  - apply (keeps_bind published); [|done].
    apply Hq, frame_add; first [apply _ | by intros; split].
  - apply (keeps_bind published); [|done].
    apply Hq, frame_EnlistServer_complete; first [apply _ | by intros; split].
  - apply Hq, frame_SetMasterRecoveryInfo_complete; first [apply _ | by intros; split].
  - apply Hq, frame_ServerDown_complete; first [apply _ | by intros; split].
Qed.

Lemma published_run (calls : list Call) (st : State) :
  published st (run calls st).
Proof.
  revert st. induction calls as [|c calls IH]; intros st; simpl.
  - reflexivity.
  - etransitivity; [apply published_call | apply IH].
Qed.

(** ** Replication groups *)

(** The list after the replication ids chosen by [ρ] have been written
    into the entries of the servers [ρ] is defined on. *)
Definition updateRepl (ρ : ServerId → option Z) (l : list Slot) : list Slot :=
  (λ p,
     match entry p with
     | Some e =>
         match ρ (serverId e) with
         | Some r => {| nextGenerationNumber := nextGenerationNumber p;
                        entry := Some (set_replicationId r e) |}
         | None => p
         end
     | None => p
     end) <$> l.

(** The choice that gives [r] to the servers of [ids]. *)
Definition choose (r : Z) (ids : list ServerId) (id : ServerId) : option Z :=
  if decide (id ∈ ids) then Some r else None.

(** The rows [assignReplicationGroup r ids] appends for servers that are
    present and up. *)
Definition rowsFor (r : Z) (ids : list ServerId) (l : list Slot)
  : list ServerList_Entry :=
  omap (λ id,
          (λ e, Entry_serialize (set_replicationId r e)) <$> findEntry l id)
       ids.

(** The state [assignReplicationGroup r ids] leaves when every server of
    [ids] is present and up. *)
Definition assignedState (r : Z) (ids : list ServerId) (st : State) : State :=
  set_update
    {| server := server (update st) ++ rowsFor r ids (serverList st);
       version_number := version_number (update st);
       type := type (update st) |}
    (set_serverList (updateRepl (choose r ids) (serverList st)) st).

Definition presentAndUp (l : list Slot) (id : ServerId) : Prop :=
  ∃ e, findEntry l id = Some e ∧ status e = UP.

Lemma lookup_updateRepl (ρ : ServerId → option Z) (l : list Slot) (i : nat) :
  updateRepl ρ l !! i
  = (λ p,
       match entry p with
       | Some e =>
           match ρ (serverId e) with
           | Some r => {| nextGenerationNumber := nextGenerationNumber p;
                          entry := Some (set_replicationId r e) |}
           | None => p
           end
       | None => p
       end) <$> l !! i.
Proof. unfold updateRepl. apply list_lookup_fmap. Qed.

Lemma length_updateRepl (ρ : ServerId → option Z) (l : list Slot) :
  length (updateRepl ρ l) = length l.
Proof. unfold updateRepl. apply length_fmap. Qed.

Lemma findEntry_updateRepl (ρ : ServerId → option Z) (l : list Slot)
    (id : ServerId) :
  findEntry (updateRepl ρ l) id
  = (λ e, match ρ id with
          | Some r => set_replicationId r e
          | None => e
          end) <$> findEntry l id.
Proof.
  unfold findEntry. rewrite lookup_updateRepl.
  destruct (l !! indexNumber id) as [p|]; simpl; [|done].
  destruct (entry p) as [e|] eqn:He; simpl; [|by rewrite He].
  destruct (ServerId_eqb (serverId e) id) eqn:Hid.
  - apply ServerId_eqb_eq in Hid as <-.
    destruct (ρ (serverId e)); simpl; [|rewrite He];
      by rewrite ServerId_eqb_refl.
  - destruct (ρ (serverId e)); simpl; [|rewrite He]; by rewrite Hid.
Qed.

Lemma entriesInPlace_updateRepl (ρ : ServerId → option Z) (l : list Slot) :
  entriesInPlace l → entriesInPlace (updateRepl ρ l).
Proof.
  intros Hl i p e. rewrite lookup_updateRepl.
  destruct (l !! i) as [p0|] eqn:Hp0; simpl; [|done].
  intros [= <-]. destruct (entry p0) as [e0|] eqn:He0; [|by rewrite He0].
  specialize (Hl i p0 e0 Hp0 He0).
  destruct (ρ (serverId e0)); simpl; [|rewrite He0]; by intros [= <-].
Qed.

Lemma presentAndUp_updateRepl (ρ : ServerId → option Z) (l : list Slot)
    (id : ServerId) :
  presentAndUp l id → presentAndUp (updateRepl ρ l) id.
Proof.
  intros (e & He & Hup). unfold presentAndUp.
  rewrite findEntry_updateRepl, He. simpl. eexists. split; [done|].
  by destruct (ρ id).
Qed.

(** Under I1 a write through a valid server id is an [updateRepl]. *)
Lemma setEntry_updateRepl (l : list Slot) (id : ServerId) (e : Entry) (r : Z) :
  entriesInPlace l →
  findEntry l id = Some e →
  setEntry (indexNumber id) (Some (set_replicationId r e)) l
  = updateRepl (choose r [id]) l.
Proof.
  intros Hl Hget. apply findEntry_Some in Hget as (p & Hp & He & Hid).
  apply list_eq. intros j. rewrite lookup_updateRepl.
  destruct (decide (j = indexNumber id)) as [->|Hne].
  - erewrite lookup_setEntry_eq by done. rewrite Hp. simpl. rewrite He.
    unfold choose.
    rewrite decide_True by (rewrite Hid; by apply list_elem_of_singleton).
    done.
  - rewrite lookup_setEntry_ne by done.
    destruct (l !! j) as [q|] eqn:Hq; simpl; [|done].
    destruct (entry q) as [e'|] eqn:He'; [|done].
    unfold choose. rewrite decide_False; [done|].
    intros Hin%list_elem_of_singleton. apply Hne.
    rewrite <- Hin. symmetry. by eapply Hl.
Qed.

Lemma updateRepl_compose (ρ1 ρ2 : ServerId → option Z) (l : list Slot) :
  updateRepl ρ2 (updateRepl ρ1 l)
  = updateRepl (λ id, match ρ2 id with Some r => Some r | None => ρ1 id end)
      l.
Proof.
  apply list_eq. intros j. rewrite !lookup_updateRepl.
  destruct (l !! j) as [p|]; simpl; [|done]. f_equal.
  destruct (entry p) as [e|] eqn:He; [|by rewrite He].
  destruct (ρ1 (serverId e)) eqn:H1; simpl.
  - by destruct (ρ2 (serverId e)).
  - rewrite He. by destruct (ρ2 (serverId e)).
Qed.

Lemma updateRepl_ext (ρ1 ρ2 : ServerId → option Z) (l : list Slot) :
  (∀ i p e, l !! i = Some p → entry p = Some e →
            ρ1 (serverId e) = ρ2 (serverId e)) →
  updateRepl ρ1 l = updateRepl ρ2 l.
Proof.
  intros H. apply list_eq. intros j. rewrite !lookup_updateRepl.
  destruct (l !! j) as [p|] eqn:Hp; simpl; [|done]. f_equal.
  destruct (entry p) as [e|] eqn:He; [|done].
  by rewrite (H j p e Hp He).
Qed.

Lemma updateRepl_none (ρ : ServerId → option Z) (l : list Slot) :
  (∀ id, ρ id = None) → updateRepl ρ l = l.
Proof.
  intros H. apply list_eq. intros j. rewrite lookup_updateRepl.
  destruct (l !! j) as [p|]; simpl; [|done]. f_equal.
  destruct (entry p) as [e|]; [|done]. by rewrite H.
Qed.

Lemma run_setReplicationId (st : State) (id : ServerId) (r : Z) (e : Entry) :
  getEntry st id = Some e → status e = UP →
  setReplicationId id r st
  = (Returns tt,
     set_update (add_server (Entry_serialize (set_replicationId r e)) (update st))
       (set_serverList
          (setEntry (indexNumber id) (Some (set_replicationId r e))
             (serverList st)) st)).
Proof.
  intros Hget Hup. unfold setReplicationId.
  rewrite run_bind, (run_getReference _ _ e Hget), Hup. cbn [ServerStatus_eqb negb].
  rewrite run_bind, (run_updateEntry _ _ _ e Hget). reflexivity.
Qed.

Lemma rowsFor_cons (r : Z) (id : ServerId) (ids : list ServerId)
    (l : list Slot) (e : Entry) :
  findEntry l id = Some e →
  rowsFor r (id :: ids) l
  = Entry_serialize (set_replicationId r e) :: rowsFor r ids l.
Proof. intros H. unfold rowsFor. simpl. by rewrite H. Qed.

Lemma rowsFor_updateRepl (r : Z) (ids ids' : list ServerId) (l : list Slot) :
  rowsFor r ids (updateRepl (choose r ids') l) = rowsFor r ids l.
Proof.
  unfold rowsFor. induction ids as [|id ids IH]; [done|].
  change (omap ?f (id :: ids)) with
    (match f id with Some y => y :: omap f ids | None => omap f ids end).
  rewrite IH, findEntry_updateRepl.
  destruct (findEntry l id) as [e|]; [|done].
  simpl. unfold choose. by destruct (decide (id ∈ ids')).
Qed.

Lemma run_assignReplicationGroup (r : Z) (ids : list ServerId) (st : State) :
  entriesInPlace (serverList st) →
  Forall (presentAndUp (serverList st)) ids →
  assignReplicationGroup r ids st = (Returns true, assignedState r ids st).
Proof.
  revert st. induction ids as [|id ids IH]; intros st Hl Hids.
  - unfold assignedState, rowsFor. cbn [assignReplicationGroup]. state_eq.
    + rewrite updateRepl_none; [done|].
      intros id. unfold choose. rewrite decide_False; [done|].
      apply not_elem_of_nil.
    + apply ServerList_eq; state_simpl; try done. by rewrite app_nil_r.
  - apply Forall_cons in Hids as [(e & Hget & Hup) Hids].
    cbn [assignReplicationGroup]. rewrite run_getState.
    unfold iget, getEntry. rewrite Hget.
    rewrite run_bind, (run_setReplicationId _ _ _ e Hget Hup).
    rewrite (setEntry_updateRepl _ _ _ _ Hl Hget).
    rewrite IH; state_simpl.
    + unfold assignedState. state_eq.
      * rewrite updateRepl_compose. apply updateRepl_ext.
        intros _ _ e' _ _. unfold choose.
        destruct (decide (serverId e' ∈ ids)) as [Hin|Hnin].
        -- rewrite decide_True; [done|]. apply elem_of_cons. by right.
        -- destruct (decide (serverId e' ∈ [id])) as [Hin'|Hnin'].
           ++ rewrite decide_True; [done|]. apply elem_of_cons. left.
              by apply list_elem_of_singleton.
           ++ rewrite decide_False; [done|]. apply not_elem_of_cons.
              split; [|done]. intros Heq. apply Hnin'.
              by apply list_elem_of_singleton.
      * apply ServerList_eq; state_simpl; try done.
        by rewrite rowsFor_updateRepl, (rowsFor_cons _ _ _ _ _ Hget),
          <- app_assoc.
    + by apply entriesInPlace_updateRepl.
    + eapply Forall_impl; [exact Hids|].
      intros id'. apply presentAndUp_updateRepl.
Qed.

(** *** [removeReplicationGroup] *)

(** The scan test of [removeReplicationGroup]. *)
Definition inGroup (g : Z) (e : Entry) : bool :=
  isBackup e && (replicationId e =? g).

(** The ids the scan of [removeReplicationGroup] collects from slots. *)
Definition members (g : Z) (l : list Slot) : list ServerId :=
  omap (λ p,
          match entry p with
          | Some e => if inGroup g e then Some (serverId e) else None
          | None => None
          end) l.

(** What [removeReplicationGroup] makes of a slot. *)
Definition resetSlot (g : Z) (p : Slot) : Slot :=
  match entry p with
  | Some e =>
      if inGroup g e
      then {| nextGenerationNumber := nextGenerationNumber p;
              entry := Some (set_replicationId 0 e) |}
      else p
  | None => p
  end.

(** The rows the loop of [removeReplicationGroup] appends while it visits
    the slots [rest] after the slots [visited]: at each slot, one row for
    every member collected so far. *)
Fixpoint resetRows (g : Z) (l0 visited rest : list Slot)
  : list ServerList_Entry :=
  match rest with
  | [] => []
  | p :: rest' =>
      rowsFor 0 (members g (visited ++ [p])) l0
      ++ resetRows g l0 (visited ++ [p]) rest'
  end.

Lemma members_app (g : Z) (l1 l2 : list Slot) :
  members g (l1 ++ l2) = members g l1 ++ members g l2.
Proof. unfold members. apply omap_app. Qed.

Lemma elem_of_members (g : Z) (l : list Slot) (id : ServerId) :
  id ∈ members g l ↔
  ∃ i p e, l !! i = Some p ∧ entry p = Some e ∧ inGroup g e = true
           ∧ serverId e = id.
Proof.
  unfold members. rewrite list_elem_of_omap. split.
  - intros (p & Hp & Hf). apply list_elem_of_lookup in Hp as [i Hi].
    destruct (entry p) as [e|] eqn:He; [|done].
    destruct (inGroup g e) eqn:Hg; [|done].
    injection Hf as <-. by exists i, p, e.
  - intros (i & p & e & Hp & He & Hg & <-). exists p.
    split; [by eapply list_elem_of_lookup_2|]. by rewrite He, Hg.
Qed.

Lemma members_presentAndUp (g : Z) (l1 l2 : list Slot) (id : ServerId) :
  entriesInPlace (l1 ++ l2) → id ∈ members g l1 →
  presentAndUp (l1 ++ l2) id ∧ (indexNumber id < length l1)%nat.
Proof.
  intros Hl (i & p & e & Hp & He & Hg & <-)%elem_of_members.
  pose proof (lookup_lt_Some _ _ _ Hp) as Hlt.
  assert (Hp' : (l1 ++ l2) !! i = Some p) by (by apply lookup_app_l_Some).
  pose proof (Hl i p e Hp' He) as Hi. rewrite Hi. split; [|done].
  exists e. split.
  - apply findEntry_Some. exists p. by rewrite Hi.
  - unfold inGroup, isBackup in Hg. by destruct (status e).
Qed.

Lemma updateRepl_members (g : Z) (l : list Slot) :
  entriesInPlace l →
  updateRepl (choose 0 (members g l)) l = resetSlot g <$> l.
Proof.
  intros Hl. apply list_eq. intros j.
  rewrite lookup_updateRepl, list_lookup_fmap.
  destruct (l !! j) as [p|] eqn:Hp; simpl; [|done]. f_equal.
  unfold resetSlot. destruct (entry p) as [e|] eqn:He; [|done].
  unfold choose. destruct (inGroup g e) eqn:Hg.
  - rewrite decide_True; [done|]. apply elem_of_members. by exists j, p, e.
  - rewrite decide_False; [done|].
    intros (i & p' & e' & Hp' & He' & Hg' & Hid)%elem_of_members.
    assert (i = j) as ->.
    { rewrite <- (Hl i p' e' Hp' He'), <- (Hl j p e Hp He). by rewrite Hid. }
    congruence.
Qed.

Lemma run_resetGroup (g : Z) (l0 visited rest : list Slot) (st : State) :
  entriesInPlace l0 →
  l0 = visited ++ rest →
  serverList st = updateRepl (choose 0 (members g visited)) l0 →
  resetGroup g (seq (length visited) (length rest)) (members g visited) st
  = (Returns tt,
     set_update
       {| server := server (update st) ++ resetRows g l0 visited rest;
          version_number := version_number (update st);
          type := type (update st) |}
       (set_serverList (updateRepl (choose 0 (members g l0)) l0) st)).
Proof.
  intros Hl0. revert visited st.
  induction rest as [|p rest IH]; intros visited st Hsplit Hst.
  - cbn [length seq resetGroup resetRows].
    rewrite app_nil_r in Hsplit. subst visited. state_eq; [done|].
    apply ServerList_eq; state_simpl; try done. by rewrite app_nil_r.
  - cbn [length seq resetGroup]. rewrite run_getState.
    assert (Hp : l0 !! length visited = Some p)
      by (subst l0; by rewrite list_lookup_middle).
    assert (Hread : default emptySlot (serverList st !! length visited) = p).
    { rewrite Hst, lookup_updateRepl, Hp. simpl.
      destruct (entry p) as [e|] eqn:He; [|done].
      unfold choose. rewrite decide_False; [done|].
      intros Hin. subst l0.
      destruct (members_presentAndUp g visited (p :: rest) _ Hl0 Hin)
        as [_ Hlt].
      rewrite (Hl0 (length visited) p e Hp He) in Hlt. lia. }
    rewrite Hread.
    set (group' := match entry p with
                   | Some e => if isBackup e && (replicationId e =? g)
                               then members g visited ++ [serverId e]
                               else members g visited
                   | None => members g visited
                   end).
    assert (Hgroup : group' = members g (visited ++ [p])).
    { unfold group'. rewrite members_app. unfold members at 4. simpl.
      destruct (entry p) as [e|]; [|by rewrite app_nil_r].
      unfold inGroup. destruct (isBackup e && (replicationId e =? g));
        [done|by rewrite app_nil_r]. }
    rewrite Hgroup.
    assert (Hsplit' : l0 = (visited ++ [p]) ++ rest)
      by (by rewrite <- app_assoc).
    assert (Hassign :
      (if decide (length (members g (visited ++ [p])) ≠ 0%nat)
       then assignReplicationGroup 0 (members g (visited ++ [p]))
       else mret true) st
      = (Returns true, assignedState 0 (members g (visited ++ [p])) st)).
    { case_decide as Hlen.
      - apply run_assignReplicationGroup.
        + rewrite Hst. by apply entriesInPlace_updateRepl.
        + apply Forall_forall. intros id Hin. rewrite Hst.
          apply presentAndUp_updateRepl.
          rewrite Hsplit'. eapply members_presentAndUp; [|done].
          by rewrite <- Hsplit'.
      - assert (Hnil : members g (visited ++ [p]) = [])
          by (apply nil_length_inv; lia).
        rewrite Hnil. unfold assignedState, rowsFor. state_eq.
        + rewrite updateRepl_none; [done|].
          intros id. unfold choose. rewrite decide_False; [done|].
          apply not_elem_of_nil.
        + apply ServerList_eq; state_simpl; try done. by rewrite app_nil_r. }
    rewrite run_bind, Hassign.
    replace (S (length visited)) with (length (visited ++ [p]))
      by (rewrite length_app; simpl; lia).
    rewrite (IH (visited ++ [p])); [|done|].
    + unfold assignedState. cbn [resetRows]. state_eq.
      apply ServerList_eq; state_simpl; try done.
      by rewrite Hst, rowsFor_updateRepl, <- app_assoc.
    + unfold assignedState. state_simpl. rewrite Hst, updateRepl_compose.
      apply updateRepl_ext. intros _ _ e _ _. unfold choose.
      rewrite members_app.
      destruct (decide (serverId e ∈ members g visited ++ members g [p]))
        as [Hin|Hnin]; [done|].
      rewrite decide_False; [done|]. intros Hin. apply Hnin.
      apply elem_of_app. by left.
Qed.

Lemma run_removeReplicationGroup (g : Z) (st : State) :
  entriesInPlace (serverList st) → g ≠ 0 →
  removeReplicationGroup g st
  = (Returns tt,
     set_update
       {| server := server (update st)
                    ++ resetRows g (serverList st) [] (serverList st);
          version_number := version_number (update st);
          type := type (update st) |}
       (set_serverList (resetSlot g <$> serverList st) st)).
Proof.
  intros Hl Hg. unfold removeReplicationGroup.
  apply Z.eqb_neq in Hg. rewrite Hg, run_getState.
  rewrite <- (updateRepl_members g _ Hl).
  apply (run_resetGroup g (serverList st) [] (serverList st) st Hl eq_refl).
  symmetry. apply updateRepl_none. intros id. unfold choose.
  rewrite decide_False; [done|]. apply not_elem_of_nil.
Qed.

(** *** [createReplicationGroup] *)

(** The replication id [formGroups] gives to a server, by the groups of
    three taken from the head of the stack and the id [r] of the first
    one. *)
Fixpoint groupChoice (r : Z) (stack : list ServerId) (id : ServerId)
  : option Z :=
  match stack with
  | a :: b :: c :: rest =>
      match groupChoice (u64 (r + 1)) rest id with
      | Some r' => Some r'
      | None => choose r [a; b; c] id
      end
  | _ => None
  end.

(** The rows [formGroups] appends. *)
Fixpoint groupRows (r : Z) (stack : list ServerId) (l : list Slot)
  : list ServerList_Entry :=
  match stack with
  | a :: b :: c :: rest =>
      rowsFor r [a; b; c] l ++ groupRows (u64 (r + 1)) rest l
  | _ => []
  end.

(** The value of [nextReplicationId] after [formGroups]. *)
Fixpoint groupNext (r : Z) (stack : list ServerId) : Z :=
  match stack with
  | a :: b :: c :: rest => groupNext (u64 (r + 1)) rest
  | _ => r
  end.

(** The scan test of [createReplicationGroup]. *)
Definition isFree (e : Entry) : bool := isBackup e && (replicationId e =? 0).

Lemma rowsFor_updateRepl_any (r : Z) (ids : list ServerId)
    (ρ : ServerId → option Z) (l : list Slot) :
  rowsFor r ids (updateRepl ρ l) = rowsFor r ids l.
Proof.
  unfold rowsFor. induction ids as [|id ids IH]; [done|].
  change (omap ?f (id :: ids)) with
    (match f id with Some y => y :: omap f ids | None => omap f ids end).
  rewrite IH, findEntry_updateRepl.
  destruct (findEntry l id) as [e|]; [|done].
  simpl. by destruct (ρ id).
Qed.

Lemma groupRows_updateRepl (r : Z) (stack : list ServerId)
    (ρ : ServerId → option Z) (l : list Slot) :
  groupRows r stack (updateRepl ρ l) = groupRows r stack l.
Proof.
  revert r. induction stack as [stack IH] using (induction_ltof1 _ (@length _)).
  unfold ltof in IH. intros r.
  destruct stack as [|a [|b [|c rest]]]; try done.
  cbn [groupRows]. rewrite rowsFor_updateRepl_any, IH; [done|simpl; lia].
Qed.

Lemma run_formGroups (stack : list ServerId) (st : State) :
  entriesInPlace (serverList st) →
  Forall (presentAndUp (serverList st)) stack →
  formGroups stack st
  = (Returns tt,
     set_nextReplicationId (groupNext (nextReplicationId st) stack)
       (set_update
          {| server := server (update st)
                       ++ groupRows (nextReplicationId st) stack
                            (serverList st);
             version_number := version_number (update st);
             type := type (update st) |}
          (set_serverList
             (updateRepl (groupChoice (nextReplicationId st) stack)
                (serverList st)) st))).
Proof.
  revert st. induction stack as [stack IH] using (induction_ltof1 _ (@length _)).
  unfold ltof in IH. intros st Hl Hall.
  assert (Hstop : ∀ s : list ServerId,
    groupNext (nextReplicationId st) s = nextReplicationId st →
    groupRows (nextReplicationId st) s (serverList st) = [] →
    (∀ id, groupChoice (nextReplicationId st) s id = None) →
    (Returns tt, st)
    = (Returns tt,
       set_nextReplicationId (groupNext (nextReplicationId st) s)
         (set_update
            {| server := server (update st)
                         ++ groupRows (nextReplicationId st) s (serverList st);
               version_number := version_number (update st);
               type := type (update st) |}
            (set_serverList
               (updateRepl (groupChoice (nextReplicationId st) s)
                  (serverList st)) st)))).
  { intros s Hnext Hrows Hnone. state_eq.
    - by rewrite updateRepl_none.
    - apply ServerList_eq; state_simpl; try done.
      by rewrite Hrows, app_nil_r.
    - by rewrite Hnext. }
  destruct stack as [|a [|b [|c rest]]]; try (by apply Hstop).
  cbn [formGroups]. rewrite run_getState.
  assert (Habc : Forall (presentAndUp (serverList st)) [a; b; c]).
  { apply Forall_forall. intros id Hin. eapply Forall_forall; [exact Hall|].
    repeat (apply elem_of_cons in Hin as [->|Hin]);
      [ apply elem_of_cons; by left
      | apply elem_of_cons; right; apply elem_of_cons; by left
      | apply elem_of_cons; right; apply elem_of_cons; right;
        apply elem_of_cons; by left
      | by apply not_elem_of_nil in Hin ]. }
  rewrite run_bind, (run_assignReplicationGroup _ _ _ Hl Habc).
  rewrite run_modify.
  rewrite IH; [| simpl; lia | |].
  - unfold assignedState. cbn [groupNext groupRows groupChoice]. state_eq.
    + by rewrite updateRepl_compose.
    + apply ServerList_eq; state_simpl; try done.
      by rewrite groupRows_updateRepl, <- app_assoc.
  - unfold assignedState. state_simpl. by apply entriesInPlace_updateRepl.
  - unfold assignedState. state_simpl. apply Forall_forall. intros id Hin.
    apply presentAndUp_updateRepl. eapply Forall_forall; [exact Hall|].
    do 3 (apply elem_of_cons; right). done.
Qed.

Lemma elem_of_freeBackups (l : list Slot) (id : ServerId) :
  id ∈ freeBackups l ↔
  ∃ i p e, l !! i = Some p ∧ entry p = Some e ∧ isFree e = true
           ∧ serverId e = id.
Proof.
  unfold freeBackups. rewrite list_elem_of_omap. split.
  - intros (p & Hp & Hf). apply list_elem_of_lookup in Hp as [i Hi].
    destruct (entry p) as [e|] eqn:He; [|done]. fold (isFree e) in Hf.
    destruct (isFree e) eqn:Hg; [|done].
    injection Hf as <-. by exists i, p, e.
  - intros (i & p & e & Hp & He & Hg & <-). exists p.
    split; [by eapply list_elem_of_lookup_2|].
    rewrite He. fold (isFree e). by rewrite Hg.
Qed.

Lemma freeBackups_presentAndUp (l : list Slot) (id : ServerId) :
  entriesInPlace l → id ∈ freeBackups l → presentAndUp l id.
Proof.
  intros Hl (i & p & e & Hp & He & Hg & <-)%elem_of_freeBackups.
  exists e. split.
  - apply findEntry_Some. exists p. by rewrite (Hl i p e Hp He).
  - unfold isFree, isBackup in Hg. by destruct (status e).
Qed.

Lemma run_createReplicationGroup (st : State) :
  entriesInPlace (serverList st) →
  let stack := reverse (freeBackups (serverList st)) in
  createReplicationGroup st
  = (Returns tt,
     set_nextReplicationId (groupNext (nextReplicationId st) stack)
       (set_update
          {| server := server (update st)
                       ++ groupRows (nextReplicationId st) stack
                            (serverList st);
             version_number := version_number (update st);
             type := type (update st) |}
          (set_serverList
             (updateRepl (groupChoice (nextReplicationId st) stack)
                (serverList st)) st))).
Proof.
  intros Hl stack. unfold createReplicationGroup. rewrite run_getState.
  apply run_formGroups; [done|].
  apply Forall_forall. intros id Hin. apply freeBackups_presentAndUp; [done|].
  unfold stack in Hin. by rewrite elem_of_reverse in Hin.
Qed.

Lemma div3_SSS (n : nat) : (S (S (S n)) / 3 = S (n / 3))%nat.
Proof.
  replace (S (S (S n))) with (1 * 3 + n)%nat by lia.
  rewrite Nat.div_add_l by lia. lia.
Qed.

Lemma triples_ind {A} (P : list A → Prop) :
  P [] → (∀ a, P [a]) → (∀ a b, P [a; b]) →
  (∀ a b c rest, P rest → P (a :: b :: c :: rest)) →
  ∀ l, P l.
Proof.
  intros H0 H1 H2 H3 l.
  induction l as [l IH] using (induction_ltof1 _ (@length _)).
  unfold ltof in IH.
  destruct l as [|a [|b [|c rest]]]; auto.
  apply H3, IH. simpl. lia.
Qed.

Lemma bump_succ (n : nat) (r : Z) : bump n (u64 (r + 1)) = bump (S n) r.
Proof.
  replace (S n) with (n + 1)%nat by lia. by rewrite bump_add.
Qed.

Lemma groupNext_bump (r : Z) (stack : list ServerId) :
  groupNext r stack = bump (length stack / 3) r.
Proof.
  revert r. induction stack as [|a|a b|a b c rest IH] using triples_ind;
    intros r; try done.
  cbn [groupNext length]. by rewrite IH, div3_SSS, bump_succ.
Qed.

Lemma groupChoice_outside (r : Z) (stack : list ServerId) (id : ServerId) :
  id ∉ take (3 * (length stack / 3)) stack → groupChoice r stack id = None.
Proof.
  revert r. induction stack as [|a|a b|a b c rest IH] using triples_ind;
    intros r Hout; try done.
  cbn [groupChoice length] in *. rewrite div3_SSS in Hout.
  replace (3 * S (length rest / 3))%nat
    with (S (S (S (3 * (length rest / 3))))) in Hout by lia.
  cbn [take] in Hout.
  apply not_elem_of_cons in Hout as [Ha Hout].
  apply not_elem_of_cons in Hout as [Hb Hout].
  apply not_elem_of_cons in Hout as [Hc Hout].
  rewrite (IH _ Hout). unfold choose. rewrite decide_False; [done|].
  intros Hin. repeat (apply elem_of_cons in Hin as [->|Hin]); try done.
  by apply not_elem_of_nil in Hin.
Qed.

Lemma groupChoice_position (r : Z) (stack : list ServerId) (pos : nat)
    (id : ServerId) :
  NoDup stack →
  stack !! pos = Some id →
  (pos < 3 * (length stack / 3))%nat →
  groupChoice r stack id = Some (bump (pos / 3) r).
Proof.
  revert r pos. induction stack as [|a|a b|a b c rest IH] using triples_ind;
    intros r pos Hnd Hpos Hlt; try (simpl in Hlt; lia).
  cbn [groupChoice length] in *. rewrite div3_SSS in Hlt.
  apply NoDup_cons in Hnd as [Ha Hnd].
  apply NoDup_cons in Hnd as [Hb Hnd].
  apply NoDup_cons in Hnd as [Hc Hnd].
  destruct (decide (pos < 3)%nat) as [Hsmall|Hlarge].
  - rewrite (Nat.div_small pos 3) by done. simpl.
    assert (Hin : id ∈ [a; b; c]).
    { destruct pos as [|[|[|pos]]]; [| | |lia]; injection Hpos as <-.
      - apply elem_of_cons. by left.
      - apply elem_of_cons. right. apply elem_of_cons. by left.
      - do 2 (apply elem_of_cons; right). apply elem_of_cons. by left. }
    assert (Hout : id ∉ rest).
    { intros Hrest. repeat (apply elem_of_cons in Hin as [->|Hin]).
      - apply Ha. by do 2 (apply elem_of_cons; right).
      - apply Hb. by apply elem_of_cons; right.
      - by apply Hc.
      - by apply not_elem_of_nil in Hin. }
    rewrite groupChoice_outside.
    + unfold choose. by rewrite decide_True.
    + intros [i [Hi _]]%elem_of_take. apply Hout.
      by eapply list_elem_of_lookup_2.
  - assert (Hpos' : rest !! (pos - 3)%nat = Some id).
    { destruct pos as [|[|[|pos]]]; [lia..|].
      simpl in *. by rewrite Nat.sub_0_r. }
    rewrite (IH (u64 (r + 1)) (pos - 3)%nat Hnd Hpos') by lia.
    rewrite bump_succ. do 2 f_equal.
    replace pos with (1 * 3 + (pos - 3))%nat at 2 by lia.
    rewrite Nat.div_add_l by lia. lia.
Qed.

Lemma NoDup_freeBackups (l : list Slot) :
  entriesInPlace l → NoDup (freeBackups l).
Proof.
  induction l as [|q l IH] using rev_ind; intros Hl.
  - constructor.
  - assert (Hl' : entriesInPlace l).
    { intros i p e Hp He. apply (Hl i p e); [|done].
      by apply lookup_app_l_Some. }
    unfold freeBackups. rewrite omap_app. fold (freeBackups l).
    apply NoDup_app. split; [by apply IH|]. split.
    + intros id Hin Hq. simpl in Hq.
      apply elem_of_freeBackups in Hin as (i & p & e & Hp & He & _ & Hid).
      destruct (entry q) as [eq|] eqn:Heq; [|by apply not_elem_of_nil in Hq].
      destruct (isBackup eq && (replicationId eq =? 0));
        [|by apply not_elem_of_nil in Hq].
      apply list_elem_of_singleton in Hq.
      pose proof (lookup_lt_Some _ _ _ Hp) as Hlt.
      pose proof (Hl' i p e Hp He) as Hi.
      assert (Hlen : indexNumber (serverId eq) = length l).
      { apply (Hl (length l) q eq); [|done]. by rewrite list_lookup_middle. }
      rewrite Hid, Hq, Hlen in Hi. lia.
    + simpl. destruct (entry q) as [eq|]; [|constructor].
      destruct (isBackup eq && (replicationId eq =? 0)); [|constructor].
      apply NoDup_singleton.
Qed.

Lemma elem_of_rowsFor (r : Z) (ids : list ServerId) (l : list Slot)
    (row : ServerList_Entry) :
  row ∈ rowsFor r ids l ↔
  ∃ id e, id ∈ ids ∧ findEntry l id = Some e
          ∧ row = Entry_serialize (set_replicationId r e).
Proof.
  unfold rowsFor. rewrite list_elem_of_omap. split.
  - intros (id & Hin & Hrow). destruct (findEntry l id) as [e|] eqn:He; [|done].
    injection Hrow as <-. by exists id, e.
  - intros (id & e & Hin & He & ->). exists id. by rewrite He.
Qed.

Lemma resetRows_members (g : Z) (l0 visited rest : list Slot)
    (row : ServerList_Entry) :
  row ∈ resetRows g l0 visited rest →
  ∃ id e, id ∈ members g (visited ++ rest) ∧ findEntry l0 id = Some e
          ∧ row = Entry_serialize (set_replicationId 0 e).
Proof.
  revert visited. induction rest as [|p rest IH]; intros visited; simpl.
  - by intros ?%not_elem_of_nil.
  - intros [Hrow|Hrow]%elem_of_app.
    + apply elem_of_rowsFor in Hrow as (id & e & Hin & He & ->).
      exists id, e. split; [|done].
      rewrite (members_app g visited (p :: rest)).
      rewrite members_app in Hin. apply elem_of_app in Hin as [Hin|Hin].
      * apply elem_of_app. by left.
      * apply elem_of_app. right.
        change (p :: rest) with ([p] ++ rest). rewrite members_app.
        apply elem_of_app. by left.
    + apply IH in Hrow. by rewrite <- app_assoc in Hrow.
Qed.

Lemma members_resetRows (g : Z) (l0 visited rest : list Slot)
    (id : ServerId) (e : Entry) :
  rest ≠ [] →
  id ∈ members g (visited ++ rest) →
  findEntry l0 id = Some e →
  Entry_serialize (set_replicationId 0 e) ∈ resetRows g l0 visited rest.
Proof.
  revert visited. induction rest as [|p rest IH]; intros visited Hne Hin He;
    [done|].
  simpl. apply elem_of_app.
  destruct (decide (id ∈ members g (visited ++ [p]))) as [Hhere|Hlater].
  - left. apply elem_of_rowsFor. by exists id, e.
  - right. apply IH; [| by rewrite <- app_assoc | done].
    intros ->. by apply Hlater.
Qed.

Lemma freeBackups_in_slot_order (l : list Slot) (i j : nat) (a b : ServerId) :
  entriesInPlace l →
  freeBackups l !! i = Some a → freeBackups l !! j = Some b → (i < j)%nat →
  (indexNumber a < indexNumber b)%nat.
Proof.
  revert i j a b. induction l as [|q l IH] using rev_ind;
    intros i j a b Hl Hi Hj Hij; [done|].
  assert (Hl' : entriesInPlace l).
  { intros n p e Hp He. apply (Hl n p e); [|done].
    by apply lookup_app_l_Some. }
  unfold freeBackups in Hi, Hj. rewrite omap_app in Hi, Hj.
  fold (freeBackups l) in Hi, Hj.
  destruct (decide (j < length (freeBackups l))%nat) as [Hlt|Hge].
  - rewrite lookup_app_l in Hi, Hj by lia. by eapply IH.
  - rewrite lookup_app_r in Hj by lia. simpl in Hj.
    destruct (entry q) as [eq|] eqn:Heq; [|done].
    destruct (isBackup eq && (replicationId eq =? 0)); [|done].
    destruct (j - length (freeBackups l))%nat eqn:Hj0; [|done].
    injection Hj as <-.
    assert (Hlen : indexNumber (serverId eq) = length l).
    { apply (Hl (length l) q eq); [|done]. by rewrite list_lookup_middle. }
    rewrite lookup_app_l in Hi by lia.
    apply list_elem_of_lookup_2, elem_of_freeBackups in Hi
      as (n & p & e & Hp & He & _ & <-).
    rewrite (Hl' n p e Hp He), Hlen. by eapply lookup_lt_Some.
Qed.

Lemma inPlaceFrom_correct (l : list Slot) (n : nat) :
  inPlaceFrom n l = true →
  ∀ i p e, l !! i = Some p → entry p = Some e →
           indexNumber (serverId e) = (n + i)%nat.
Proof.
  revert n. induction l as [|q l IH]; intros n H i p e Hp He; [done|].
  simpl in H. apply andb_true_iff in H as [Hq Hrest].
  destruct i as [|i]; simpl in Hp.
  - injection Hp as ->. rewrite He in Hq. apply Nat.eqb_eq in Hq. lia.
  - rewrite (IH _ Hrest i p e Hp He). lia.
Qed.

Lemma entriesInPlace_check (l : list Slot) :
  inPlaceFrom 0 l = true → entriesInPlace l.
Proof. intros H i p e Hp He. by apply (inPlaceFrom_correct l 0 H i p e). Qed.

(** *** What both group methods do to the object *)

(** The rows are serializations of entries present in [l] and up, each
    with some replication id written into it. *)
Definition rowsOfPresent (l : list Slot) (rows : list ServerList_Entry)
  : Prop :=
  ∀ row, row ∈ rows →
    ∃ e r, findEntry l (pb_server_id row) = Some e
           ∧ status e = UP
           ∧ row = Entry_serialize (set_replicationId r e).

(** A step of the replication group manager: replication ids are written
    into entries, rows of present entries are appended to the pending
    update, [nextReplicationId] may move; nothing else changes. *)
Definition groupStep (st st' : State) : Prop :=
  ∃ ρ rows r',
    st' = set_nextReplicationId r'
            (set_update
               {| server := server (update st) ++ rows;
                  version_number := version_number (update st);
                  type := type (update st) |}
               (set_serverList (updateRepl ρ (serverList st)) st))
    ∧ rowsOfPresent (serverList st) rows.

Lemma rowsOfPresent_rowsFor (r : Z) (ids : list ServerId) (l : list Slot) :
  Forall (presentAndUp l) ids → rowsOfPresent l (rowsFor r ids l).
Proof.
  intros Hall row (id & e & Hin & He & ->)%elem_of_rowsFor. exists e, r.
  simpl. rewrite (findEntry_serverId _ _ _ He). split; [done|].
  split; [|done].
  destruct (proj1 (Forall_forall _ _) Hall id Hin) as (e' & He' & Hup).
  congruence.
Qed.

Lemma rowsOfPresent_app (l : list Slot) (r1 r2 : list ServerList_Entry) :
  rowsOfPresent l r1 → rowsOfPresent l r2 → rowsOfPresent l (r1 ++ r2).
Proof. intros H1 H2 row [?|?]%elem_of_app; auto. Qed.

Lemma rowsOfPresent_resetRows (g : Z) (l : list Slot) :
  entriesInPlace l → rowsOfPresent l (resetRows g l [] l).
Proof.
  intros Hl row (id & e & Hin & He & ->)%resetRows_members.
  simpl in Hin.
  destruct (members_presentAndUp g l [] id) as [(e' & He' & Hup) _];
    rewrite ?app_nil_r; [done..|].
  rewrite app_nil_r in He'. exists e, 0.
  simpl. rewrite (findEntry_serverId _ _ _ He). split; [done|].
  split; [congruence|done].
Qed.

Lemma rowsOfPresent_groupRows (r : Z) (stack : list ServerId) (l : list Slot) :
  Forall (presentAndUp l) stack → rowsOfPresent l (groupRows r stack l).
Proof.
  revert r. induction stack as [|a|a b|a b c rest IH] using triples_ind;
    intros r Hall; try (by intros row ?%not_elem_of_nil).
  cbn [groupRows].
  apply Forall_cons in Hall as [Ha Hall].
  apply Forall_cons in Hall as [Hb Hall].
  apply Forall_cons in Hall as [Hc Hall].
  apply rowsOfPresent_app; [apply rowsOfPresent_rowsFor | by apply IH].
  by repeat (constructor; [done|]).
Qed.

Lemma rowsOfPresent_updateRepl (ρ : ServerId → option Z) (l : list Slot)
    (rows : list ServerList_Entry) :
  rowsOfPresent (updateRepl ρ l) rows → rowsOfPresent l rows.
Proof.
  intros H row Hrow. destruct (H row Hrow) as (e & r & He & Hup & Heq).
  rewrite findEntry_updateRepl in He.
  destruct (findEntry l (pb_server_id row)) as [e0|] eqn:He0; [|done].
  simpl in He. injection He as He. exists e0, r. subst e.
  split; [done|]. destruct (ρ _); by split.
Qed.

Lemma groupStep_refl (st : State) : groupStep st st.
Proof.
  exists (λ _, None), [], (nextReplicationId st). split.
  - state_eq.
    + by rewrite updateRepl_none.
    + apply ServerList_eq; state_simpl; try done. by rewrite app_nil_r.
  - by intros row ?%not_elem_of_nil.
Qed.

Lemma groupStep_trans (a b c : State) :
  groupStep a b → groupStep b c → groupStep a c.
Proof.
  intros (ρ1 & rows1 & r1 & -> & H1) (ρ2 & rows2 & r2 & -> & H2).
  state_simpl.
  exists (λ id, match ρ2 id with Some r => Some r | None => ρ1 id end),
    (rows1 ++ rows2), r2.
  split.
  - state_eq.
    + by rewrite updateRepl_compose.
    + apply ServerList_eq; state_simpl; try done. by rewrite app_assoc.
  - apply rowsOfPresent_app; [done|].
    by eapply rowsOfPresent_updateRepl.
Qed.

Lemma groupStep_removeReplicationGroup (g : Z) (st : State) :
  entriesInPlace (serverList st) →
  outcome (removeReplicationGroup g) st = Returns tt
  ∧ groupStep st (exec (removeReplicationGroup g) st).
Proof.
  intros Hl. destruct (decide (g = 0)) as [->|Hg].
  - split; [done|]. apply groupStep_refl.
  - unfold outcome, exec. rewrite (run_removeReplicationGroup g st Hl Hg).
    split; [done|]. cbn [snd].
    exists (choose 0 (members g (serverList st))),
      (resetRows g (serverList st) [] (serverList st)),
      (nextReplicationId st).
    split; [|by apply rowsOfPresent_resetRows].
    state_eq. symmetry. by apply updateRepl_members.
Qed.

Lemma groupStep_createReplicationGroup (st : State) :
  entriesInPlace (serverList st) →
  outcome createReplicationGroup st = Returns tt
  ∧ groupStep st (exec createReplicationGroup st).
Proof.
  intros Hl. unfold outcome, exec. rewrite (run_createReplicationGroup st Hl).
  split; [done|]. cbn [snd]. eexists _, _, _. split; [reflexivity|].
  apply rowsOfPresent_groupRows, Forall_forall.
  intros id Hin. apply freeBackups_presentAndUp; [done|].
  by rewrite elem_of_reverse in Hin.
Qed.

Lemma entriesInPlace_groupStep (st st' : State) :
  groupStep st st' → entriesInPlace (serverList st) →
  entriesInPlace (serverList st').
Proof.
  intros (ρ & rows & r & -> & _) Hl. state_simpl.
  by apply entriesInPlace_updateRepl.
Qed.


Lemma run_getServerInfoLogId (st : State) (id : ServerId) (e : Entry) :
  getEntry st id = Some e →
  getServerInfoLogId id st = (Returns (serverInfoLogId e), st).
Proof.
  intros H. unfold getServerInfoLogId.
  by rewrite run_bind, (run_getReference _ _ e H).
Qed.

Lemma run_getServerUpdateLogId (st : State) (id : ServerId) (e : Entry) :
  getEntry st id = Some e →
  getServerUpdateLogId id st = (Returns (serverUpdateLogId e), st).
Proof.
  intros H. unfold getServerUpdateLogId.
  by rewrite run_bind, (run_getReference _ _ e H).
Qed.

Lemma run_outcome {A} (m : M A) (st : State) (a : A) :
  outcome m st = Returns a → m st = (Returns a, exec m st).
Proof. unfold outcome, exec. destruct (m st) as [r s]. simpl. by intros ->. Qed.

(** *** [serverDown] of a server without the master service *)




(** ** Generations and the order of the rows

    Every slot hands out its generation numbers in increasing order, and a
    row is only ever serialized from the entry that occupies its slot at
    that time.  The rows of an occupant of a slot are therefore all
    written before the first row of any later occupant of that slot. *)

Definition rowIndex (row : ServerList_Entry) : nat :=
  indexNumber (pb_server_id row).

Definition rowGeneration (row : ServerList_Entry) : Z :=
  generationNumber (pb_server_id row).

(** The rows handed to the updater so far, batch after batch, followed by
    the rows of the pending update. *)
Definition allRows (st : State) : list ServerList_Entry :=
  concat ((λ b, server (incremental b)) <$> updates st) ++ server (update st).

(** Among the rows of one slot, a row of a smaller generation comes
    before every row of a larger one. *)
Definition ordered (rows : list ServerList_Entry) : Prop :=
  ∀ i j r1 r2,
    rows !! i = Some r1 → rows !! j = Some r2 →
    rowIndex r1 = rowIndex r2 → rowGeneration r1 < rowGeneration r2 →
    (i < j)%nat.

(** The invariant that links the list to the rows written so far: [n]
    bounds the generation numbers handed out. *)
Record generations (n : Z) (l : list Slot) (rows : list ServerList_Entry)
  : Prop := mkGenerations {
  gen_inPlace : entriesInPlace l;
  gen_nonneg : 0 ≤ n;
  gen_bound : ∀ i p, l !! i = Some p → 0 ≤ nextGenerationNumber p ≤ n;
  gen_entry : ∀ i p e, l !! i = Some p → entry p = Some e →
    nextGenerationNumber p = generationNumber (serverId e) + 1
    ∧ status e ≠ DOWN;
  gen_rows : ∀ row, row ∈ rows →
    ∃ p, l !! rowIndex row = Some p
         ∧ rowGeneration row < nextGenerationNumber p;
  gen_ordered : ordered rows
}.

(** A change of the list that keeps the generation counter of every slot
    and the server id of every occupant. *)
Definition slotsKept (l l' : list Slot) : Prop :=
  (∀ j q, l' !! j = Some q →
     ∃ p, l !! j = Some p
          ∧ nextGenerationNumber q = nextGenerationNumber p
          ∧ ∀ e', entry q = Some e' →
              ∃ e, entry p = Some e ∧ serverId e' = serverId e
                   ∧ (status e ≠ DOWN → status e' ≠ DOWN))
  ∧ (∀ j p, l !! j = Some p →
       ∃ q, l' !! j = Some q
            ∧ nextGenerationNumber q = nextGenerationNumber p).

Lemma generations_mono (n m : Z) (l : list Slot)
    (rows : list ServerList_Entry) :
  generations n l rows → n ≤ m → generations m l rows.
Proof.
  intros [Hl Hn Hb He Hr Ho] Hnm. split; try done; [lia|].
  intros i p Hp. specialize (Hb i p Hp). lia.
Qed.

Lemma generations_slotsKept (n : Z) (l l' : list Slot)
    (rows : list ServerList_Entry) :
  generations n l rows → slotsKept l l' → generations n l' rows.
Proof.
  intros [Hl Hn Hb He Hr Ho] [Ha Hback]. split; try done.
  - intros i q e' Hq Heq.
    destruct (Ha i q Hq) as (p & Hp & _ & Hocc).
    destruct (Hocc e' Heq) as (e & Hep & -> & _). by eapply Hl.
  - intros i q Hq. destruct (Ha i q Hq) as (p & Hp & -> & _). by eapply Hb.
  - intros i q e' Hq Heq.
    destruct (Ha i q Hq) as (p & Hp & -> & Hocc).
    destruct (Hocc e' Heq) as (e & Hep & -> & Hst).
    destruct (He i p e Hp Hep) as [Hgen Hdown]. auto.
  - intros row Hin. destruct (Hr row Hin) as (p & Hp & Hlt).
    destruct (Hback _ p Hp) as (q & Hq & Hgen). exists q. by rewrite Hgen.
Qed.

Lemma lookup_setEntry_Some (l : list Slot) (i j : nat) (oe : option Entry)
    (q : Slot) :
  setEntry i oe l !! j = Some q →
  ∃ p, l !! j = Some p
       ∧ nextGenerationNumber q = nextGenerationNumber p
       ∧ (entry q = entry p ∨ j = i ∧ entry q = oe).
Proof.
  intros Hq. destruct (decide (j = i)) as [->|Hne].
  - destruct (l !! i) as [p|] eqn:Hp.
    + rewrite (lookup_setEntry_eq _ _ _ _ Hp) in Hq. injection Hq as <-.
      exists p. simpl. auto.
    + unfold setEntry in Hq. by rewrite list_lookup_alter_eq, Hp in Hq.
  - rewrite lookup_setEntry_ne in Hq by done. exists q. auto.
Qed.

Lemma lookup_setEntry_slot (l : list Slot) (i j : nat) (oe : option Entry)
    (p : Slot) :
  l !! j = Some p →
  ∃ q, setEntry i oe l !! j = Some q
       ∧ nextGenerationNumber q = nextGenerationNumber p.
Proof.
  intros Hp. destruct (decide (j = i)) as [->|Hne].
  - eexists. split; [by apply lookup_setEntry_eq|done].
  - exists p. by rewrite lookup_setEntry_ne.
Qed.

Lemma slotsKept_setEntry_Some (l : list Slot) (id : ServerId) (e e' : Entry) :
  findEntry l id = Some e → serverId e' = id →
  (status e ≠ DOWN → status e' ≠ DOWN) →
  slotsKept l (setEntry (indexNumber id) (Some e') l).
Proof.
  intros (p & Hp & Hep & Hid)%findEntry_Some Hid' Hst. split.
  - intros j q Hq.
    destruct (lookup_setEntry_Some _ _ _ _ _ Hq) as (p' & Hp' & Hgen & Hent).
    exists p'. split; [done|]. split; [done|]. intros e1 He1.
    destruct Hent as [Hent|[-> Hent]].
    + exists e1. by rewrite <- Hent.
    + rewrite Hp in Hp'. injection Hp' as <-. exists e.
      rewrite Hent in He1. injection He1 as <-. by rewrite Hid, Hid'.
  - intros j p'. apply lookup_setEntry_slot.
Qed.

Lemma slotsKept_setEntry_None (l : list Slot) (i : nat) :
  slotsKept l (setEntry i None l).
Proof.
  split.
  - intros j q Hq.
    destruct (lookup_setEntry_Some _ _ _ _ _ Hq) as (p' & Hp' & Hgen & Hent).
    exists p'. split; [done|]. split; [done|]. intros e1 He1.
    destruct Hent as [Hent|[-> Hent]]; [|congruence].
    exists e1. by rewrite <- Hent.
  - intros j p'. apply lookup_setEntry_slot.
Qed.

Lemma slotsKept_updateRepl (ρ : ServerId → option Z) (l : list Slot) :
  slotsKept l (updateRepl ρ l).
Proof.
  split.
  - intros j q. rewrite lookup_updateRepl.
    destruct (l !! j) as [p|]; simpl; [|done]. intros [= <-].
    exists p. split; [done|].
    destruct (entry p) as [e|] eqn:He; [|by rewrite He].
    destruct (ρ (serverId e)); simpl.
    + split; [done|]. intros e' [= <-]. by exists e.
    + split; [done|]. rewrite He. intros e' [= <-]. by exists e.
  - intros j p Hp. rewrite lookup_updateRepl, Hp. simpl.
    eexists. split; [done|].
    destruct (entry p) as [e|]; [|done]. by destruct (ρ (serverId e)).
Qed.

(** A row serialized from an entry of the list may be appended. *)
Lemma generations_row (n : Z) (l : list Slot) (rows : list ServerList_Entry)
    (row : ServerList_Entry) (e : Entry) :
  generations n l rows →
  findEntry l (pb_server_id row) = Some e →
  generations n l (rows ++ [row]).
Proof.
  intros [Hl Hn Hb He Hr Ho] (p & Hp & Hep & Hid)%findEntry_Some.
  destruct (He _ _ _ Hp Hep) as [Hgen _]. rewrite Hid in Hgen.
  split; try done.
  - intros r [Hin|Hin%list_elem_of_singleton]%elem_of_app; [by apply Hr|].
    subst r. exists p. split; [done|]. unfold rowGeneration. lia.
  - intros i j r1 r2 H1 H2 Hidx Hlt.
    apply lookup_snoc_Some in H1 as [[Hi H1]|[-> <-]];
      apply lookup_snoc_Some in H2 as [[Hj H2]|[-> <-]].
    + by eapply Ho.
    + done.
    + exfalso.
      destruct (Hr r2) as (p2 & Hp2 & Hlt2); [by eapply list_elem_of_lookup_2|].
      rewrite <- Hidx in Hp2. unfold rowIndex in Hp2.
      rewrite Hp in Hp2. injection Hp2 as <-.
      unfold rowGeneration in *. lia.
    + lia.
Qed.

Lemma generations_rows (n : Z) (l : list Slot)
    (rows rows' : list ServerList_Entry) :
  generations n l rows →
  (∀ row, row ∈ rows' → is_Some (findEntry l (pb_server_id row))) →
  generations n l (rows ++ rows').
Proof.
  revert rows. induction rows' as [|r rs IH]; intros rows H Hall.
  - by rewrite app_nil_r.
  - change (r :: rs) with ([r] ++ rs). rewrite app_assoc. apply IH.
    + destruct (Hall r) as [e He]; [apply elem_of_cons; by left|].
      by eapply generations_row.
    + intros row Hin. apply Hall, elem_of_cons. by right.
Qed.

Lemma generations_resize (n : Z) (l : list Slot)
    (rows : list ServerList_Entry) (m : nat) :
  generations n l rows → (length l ≤ m)%nat →
  generations n (resize m l) rows.
Proof.
  intros [Hl Hn Hb He Hr Ho] Hm. unfold resize. rewrite take_ge by done.
  assert (Hnew : ∀ i p,
    (l ++ replicate (m - length l) emptySlot) !! i = Some p →
    l !! i = Some p ∨ p = emptySlot).
  { intros i p [?|[_ [-> _]%lookup_replicate]]%lookup_app_Some; auto. }
  split; try done.
  - intros i p e [Hp| ->]%Hnew; [by eapply Hl|done].
  - intros i p [Hp| ->]%Hnew; [by eapply Hb|simpl; lia].
  - intros i p e [Hp| ->]%Hnew; [by eapply He|done].
  - intros row Hin. destruct (Hr row Hin) as (p & Hp & Hlt).
    exists p. split; [by apply lookup_app_l_Some|done].
Qed.

(** [generateUniqueId] on slot [i]: the slot hands out its next
    generation number, which does not wrap as long as [n + 1] fits. *)
Lemma generations_alloc (n : Z) (l : list Slot)
    (rows : list ServerList_Entry) (i : nat) (p : Slot) (e : Entry) :
  generations n l rows → l !! i = Some p → n + 1 < 2 ^ 32 →
  serverId e = mkServerId i (nextGenerationNumber p) → status e ≠ DOWN →
  generations (n + 1)
    (<[i := {| nextGenerationNumber := u32 (nextGenerationNumber p + 1);
               entry := Some e |}]> l) rows.
Proof.
  intros [Hl Hn Hb He Hr Ho] Hp Hfit Hid Hst.
  pose proof (Hb i p Hp) as Hbp.
  assert (Hu : u32 (nextGenerationNumber p + 1) = nextGenerationNumber p + 1).
  { unfold u32. apply Z.mod_small. lia. }
  rewrite Hu. split; try done.
  - intros j q e' [(<- & <- & _)|[_ Hq]]%list_lookup_insert_Some Heq.
    + simpl in Heq. injection Heq as <-. by rewrite Hid.
    + by eapply Hl.
  - lia.
  - intros j q [(<- & <- & _)|[_ Hq]]%list_lookup_insert_Some.
    + simpl. lia.
    + specialize (Hb j q Hq). lia.
  - intros j q e' [(<- & <- & _)|[_ Hq]]%list_lookup_insert_Some Heq.
    + simpl in Heq. injection Heq as <-. by rewrite Hid.
    + by eapply He.
  - intros row Hin. destruct (Hr row Hin) as (p' & Hp' & Hlt).
    destruct (decide (i = rowIndex row)) as [Heq|Hne].
    + eexists. split.
      * rewrite <- Heq. apply list_lookup_insert_eq.
        by eapply lookup_lt_Some.
      * simpl. rewrite <- Heq in Hp'. rewrite Hp in Hp'.
        injection Hp' as <-. lia.
    + exists p'. by rewrite list_lookup_insert_ne.
Qed.

(** The slot [add] writes is the one [setEntry] would write when the
    generation counter of the slot already follows the id. *)
Lemma insert_setEntry (l : list Slot) (i : nat) (p : Slot)
    (oe : option Entry) :
  l !! i = Some p →
  <[i := {| nextGenerationNumber := nextGenerationNumber p; entry := oe |}]> l
  = setEntry i oe l.
Proof.
  intros Hp. apply list_eq. intros j. destruct (decide (i = j)) as [<-|Hne].
  - rewrite list_lookup_insert_eq by (by eapply lookup_lt_Some).
    by erewrite lookup_setEntry_eq.
  - rewrite list_lookup_insert_ne by done. by rewrite lookup_setEntry_ne.
Qed.

Lemma slotsKept_refl (l : list Slot) : slotsKept l l.
Proof.
  split.
  - intros j q Hq. exists q. split; [done|]. split; [done|].
    intros e' He'. by exists e'.
  - intros j p Hp. by exists p.
Qed.

Lemma slotsKept_trans (l1 l2 l3 : list Slot) :
  slotsKept l1 l2 → slotsKept l2 l3 → slotsKept l1 l3.
Proof.
  intros [Ha1 Hb1] [Ha2 Hb2]. split.
  - intros j q Hq.
    destruct (Ha2 j q Hq) as (p2 & Hp2 & Hgen2 & Hocc2).
    destruct (Ha1 j p2 Hp2) as (p1 & Hp1 & Hgen1 & Hocc1).
    exists p1. split; [done|]. split; [congruence|].
    intros e3 He3.
    destruct (Hocc2 e3 He3) as (e2 & He2 & Hid2 & Hst2).
    destruct (Hocc1 e2 He2) as (e1 & He1 & Hid1 & Hst1).
    exists e1. split; [done|]. split; [congruence|auto].
  - intros j p1 Hp1.
    destruct (Hb1 j p1 Hp1) as (p2 & Hp2 & Hgen2).
    destruct (Hb2 j p2 Hp2) as (p3 & Hp3 & Hgen3).
    exists p3. split; [done|congruence].
Qed.

(** The invariant on the object. *)
Definition inv (n : Z) (st : State) : Prop :=
  generations n (serverList st) (allRows st).

(** A step from [st] to [st'] under which the invariant persists. *)
Definition invKept (st st' : State) : Prop := ∀ n, inv n st → inv n st'.

(** A step that touches neither the list nor the rows. *)
Definition sameRows (st st' : State) : Prop :=
  serverList st' = serverList st
  ∧ update st' = update st
  ∧ updates st' = updates st.

#[local] Instance invKept_preorder : PreOrder invKept.
Proof.
  split; [by intros st n|]. intros a b c H1 H2 n H. by apply H2, H1.
Qed.

#[local] Instance sameRows_preorder : PreOrder sameRows.
Proof.
  split; [by intros st|].
  intros a b c (H1 & H2 & H3) (H4 & H5 & H6). repeat split; congruence.
Qed.

Lemma sameRows_invKept (st st' : State) : sameRows st st' → invKept st st'.
Proof.
  intros (Hl & Hu & Hus) n H. unfold inv, allRows in *.
  by rewrite Hl, Hu, Hus.
Qed.

Lemma inv_initialState (log : DurableLog) : inv 0 (initialState log).
Proof.
  split; try done.
  intros row Hin. by apply not_elem_of_nil in Hin.
Qed.

Lemma inv_mono (n m : Z) (st : State) : inv n st → n ≤ m → inv m st.
Proof. apply generations_mono. Qed.

Lemma run_crashed_DOWN (st : State) (id : ServerId) (e : Entry) :
  getEntry st id = Some e → status e = DOWN →
  crashed id st = (Throws AssertionFailure, st).
Proof.
  intros Hget Hst. unfold_methods. unfold_monad. by rewrite Hget, Hst.
Qed.

Lemma inv_crashedState (n : Z) (st : State) (id : ServerId) (e : Entry) :
  inv n st → getEntry st id = Some e → inv n (crashedState id e st).
Proof.
  intros H Hget. unfold inv, allRows, crashedState in *. state_simpl.
  pose proof (findEntry_serverId _ _ _ Hget) as Hid.
  rewrite app_assoc. eapply generations_row.
  - eapply generations_slotsKept; [exact H|].
    by eapply slotsKept_setEntry_Some.
  - simpl. rewrite Hid. by eapply findEntry_setEntry.
Qed.

Lemma inv_removedState (n : Z) (st : State) (id : ServerId) (e : Entry) :
  inv n st → getEntry st id = Some e → inv n (removedState id e st).
Proof.
  intros H Hget. unfold inv, allRows, removedState in *. state_simpl.
  pose proof (findEntry_serverId _ _ _ Hget) as Hid.
  rewrite app_assoc.
  eapply generations_slotsKept; [|apply slotsKept_setEntry_None].
  eapply generations_row; [exact H|]. simpl. by rewrite Hid.
Qed.

Lemma invKept_groupStep (st st' : State) : groupStep st st' → invKept st st'.
Proof.
  intros (ρ & rows & r & -> & Hrows) n H.
  unfold inv, allRows in *. state_simpl. rewrite app_assoc.
  eapply generations_slotsKept; [|apply slotsKept_updateRepl].
  apply generations_rows; [done|].
  intros row Hin. destruct (Hrows row Hin) as (e & r' & He & _). by exists e.
Qed.

(** *** Methods under which the invariant persists *)

Lemma kept_sameRows {A} (m : M A) : keeps sameRows m → keeps invKept m.
Proof. apply keeps_mono, sameRows_invKept. Qed.

Lemma kept_getReference (id : ServerId) :
  keeps invKept (getReferenceFromServerId id).
Proof. apply frame_getReference, _. Qed.

Lemma kept_appendProtoBuf (r : LogRecord) (invalidates : list Z) :
  keeps invKept (appendProtoBuf r invalidates).
Proof. apply kept_sameRows, frame_appendProtoBuf; by intros. Qed.

Lemma kept_invalidate (invalidates : list Z) :
  keeps invKept (invalidate invalidates).
Proof. apply kept_sameRows, frame_invalidate; first [apply _ | by intros]. Qed.

Lemma kept_readLog (id : Z) : keeps invKept (readLog id).
Proof. apply frame_readLog, _. Qed.

Lemma kept_startMasterRecovery (e : Entry) :
  keeps invKept (startMasterRecovery e).
Proof. apply kept_sameRows. by intros st. Qed.

Lemma kept_updateEntry (id : ServerId) (f : Entry → Entry) :
  (∀ e, serverId (f e) = serverId e) →
  (∀ e, status e ≠ DOWN → status (f e) ≠ DOWN) →
  keeps invKept (updateEntry id f).
Proof.
  intros Hid Hst st. unfold exec.
  destruct (getEntry st id) as [e|] eqn:Hget.
  - rewrite (run_updateEntry _ _ _ e Hget). intros n H.
    unfold inv, allRows in *. state_simpl.
    eapply generations_slotsKept; [exact H|].
    eapply slotsKept_setEntry_Some; [exact Hget| |apply Hst].
    rewrite Hid. by eapply findEntry_serverId.
  - unfold updateEntry. rewrite run_bind, (run_getReference_None _ _ Hget).
    reflexivity.
Qed.

Lemma kept_crashed (id : ServerId) : keeps invKept (crashed id).
Proof.
  intros st. unfold exec.
  destruct (getEntry st id) as [e|] eqn:Hget.
  - destruct (status e) eqn:Hst.
    + rewrite (run_crashed _ _ e Hget Hst). intros n H.
      by apply inv_crashedState.
    + rewrite (run_crashed_CRASHED _ _ e Hget Hst). reflexivity.
    + rewrite (run_crashed_DOWN _ _ e Hget Hst). reflexivity.
  - rewrite (run_crashed_None _ _ Hget). reflexivity.
Qed.

Lemma kept_remove (id : ServerId) : keeps invKept (remove id).
Proof.
  intros st. unfold exec.
  destruct (getEntry st id) as [e|] eqn:Hget.
  - destruct (status e) eqn:Hst.
    + rewrite (run_remove_UP _ _ e Hget Hst). intros n H.
      apply inv_removedState; [by apply inv_crashedState|].
      by apply getEntry_crashedState.
    + rewrite (run_remove_CRASHED _ _ e Hget Hst). intros n H.
      by apply inv_removedState.
    + unfold remove. rewrite run_bind, (run_getReference _ _ e Hget).
      rewrite run_bind, (run_crashed_DOWN _ _ e Hget Hst). reflexivity.
  - rewrite (run_remove_None _ _ Hget). reflexivity.
Qed.

Lemma kept_removeReplicationGroup (g : Z) :
  keeps invKept (removeReplicationGroup g).
Proof.
  intros st n H. eapply invKept_groupStep; [|exact H].
  apply (groupStep_removeReplicationGroup g st (gen_inPlace _ _ _ H)).
Qed.

Lemma kept_createReplicationGroup : keeps invKept createReplicationGroup.
Proof.
  intros st n H. eapply invKept_groupStep; [|exact H].
  apply (groupStep_createReplicationGroup st (gen_inPlace _ _ _ H)).
Qed.

Lemma kept_pushUpdate : keeps invKept pushUpdate.
Proof.
  intros st. unfold exec.
  destruct (decide (server (update st) = [])) as [Hnil|Hrows].
  - rewrite (run_pushUpdate_empty _ Hnil). reflexivity.
  - rewrite (run_pushUpdate _ Hrows). intros n H.
    unfold inv, allRows in *. state_simpl.
    rewrite fmap_app, concat_app. simpl. by rewrite !app_nil_r.
Qed.

Create HintDb kept.

#[local] Hint Resolve kept_getReference kept_appendProtoBuf kept_invalidate
  kept_readLog kept_startMasterRecovery kept_crashed kept_remove
  kept_removeReplicationGroup kept_createReplicationGroup kept_pushUpdate
  : kept.

#[local] Hint Extern 1 (keeps _ (updateEntry _ _)) =>
  apply kept_updateEntry; [by intros | by intros] : kept.

Ltac kept_step :=
  match goal with
  | |- keeps ?R (mret _) => apply (keeps_ret R)
  | |- keeps ?R (throw _) => apply (keeps_throw R)
  | |- keeps ?R getState => apply (keeps_getState R)
  | |- keeps ?R (when _ _) => apply (keeps_when R)
  | |- keeps ?R (tryCatch _ _) => apply (keeps_tryCatch R)
  | |- keeps ?R (_ ≫= _) => apply (keeps_bind R)
  | |- keeps _ (match ?x with _ => _ end) => destruct x
  | |- ∀ _, _ => intro
  | |- keeps _ _ => solve [auto with kept]
  end.

Ltac kept := repeat kept_step.

Lemma kept_ServerDown_complete (id : ServerId) (entryId : Z) :
  keeps invKept (ServerDown_complete id entryId).
Proof.
  unfold ServerDown_complete, getServerInfoLogId, getServerUpdateLogId. kept.
Qed.

Lemma kept_serverDown_locked (id : ServerId) :
  keeps invKept (serverDown_locked id).
Proof.
  pose proof kept_ServerDown_complete.
  unfold serverDown_locked, ServerDown_execute. kept.
Qed.

Lemma kept_removeAfterRecovery (id : ServerId) :
  keeps invKept (removeAfterRecovery id).
Proof. unfold removeAfterRecovery. kept. Qed.

Lemma kept_setMasterRecoveryInfo (id : ServerId) (info : MasterRecoveryInfo) :
  keeps invKept (setMasterRecoveryInfo id info).
Proof.
  unfold setMasterRecoveryInfo, SetMasterRecoveryInfo_execute,
    SetMasterRecoveryInfo_complete, getServerUpdateLogId,
    addServerUpdateLogId.
  kept.
Qed.

(** *** Counting the entries of a kind *)

(** The number of slots whose occupant satisfies [f]. *)
Definition weight (f : Entry → bool) (p : Slot) : nat :=
  if from_option f false (entry p) then 1%nat else 0%nat.

Definition countBy (f : Entry → bool) (l : list Slot) : nat :=
  sum_list (weight f <$> l).

Lemma countBy_cons (f : Entry → bool) (p : Slot) (l : list Slot) :
  countBy f (p :: l) = (weight f p + countBy f l)%nat.
Proof. reflexivity. Qed.

Lemma countBy_app (f : Entry → bool) (l1 l2 : list Slot) :
  countBy f (l1 ++ l2) = (countBy f l1 + countBy f l2)%nat.
Proof.
  induction l1 as [|p l1 IH]; [done|].
  rewrite <- app_comm_cons, !countBy_cons, IH. lia.
Qed.

Lemma countBy_le_length (f : Entry → bool) (l : list Slot) :
  (countBy f l ≤ length l)%nat.
Proof.
  induction l as [|p l IH]; [done|]. rewrite countBy_cons. cbn [length].
  unfold weight. destruct (from_option f false (entry p)); lia.
Qed.

Lemma countBy_insert (f : Entry → bool) (l : list Slot) (i : nat)
    (p q : Slot) :
  l !! i = Some p →
  (countBy f (<[i := q]> l) + weight f p = countBy f l + weight f q)%nat.
Proof.
  revert i. induction l as [|p0 l IH]; intros i Hp; [done|].
  destruct i as [|i]; simpl in Hp.
  - injection Hp as ->.
    change (<[0%nat := q]> (p :: l)) with (q :: l).
    rewrite !countBy_cons. lia.
  - specialize (IH i Hp).
    change (<[S i := q]> (p0 :: l)) with (p0 :: <[i := q]> l).
    rewrite !countBy_cons. lia.
Qed.

Lemma countBy_setEntry (f : Entry → bool) (l : list Slot) (i : nat)
    (p : Slot) (oe : option Entry) :
  l !! i = Some p →
  (countBy f (setEntry i oe l) + weight f p
   = countBy f l + (if from_option f false oe then 1 else 0))%nat.
Proof.
  intros Hp. rewrite <- (insert_setEntry _ _ _ _ Hp).
  by rewrite (countBy_insert f l i p _ Hp).
Qed.

Lemma countBy_resize (f : Entry → bool) (l : list Slot) (m : nat) :
  (length l ≤ m)%nat → countBy f (resize m l) = countBy f l.
Proof.
  intros Hm. unfold resize. rewrite take_ge, countBy_app by done.
  assert (H0 : ∀ k, countBy f (replicate k emptySlot) = 0%nat).
  { induction k as [|k IH]; [done|].
    cbn [replicate]. by rewrite countBy_cons, IH. }
  rewrite H0. lia.
Qed.

Lemma countBy_updateRepl (f : Entry → bool) (ρ : ServerId → option Z)
    (l : list Slot) :
  (∀ r e, f (set_replicationId r e) = f e) →
  countBy f (updateRepl ρ l) = countBy f l.
Proof.
  intros Hf. unfold countBy, updateRepl. rewrite <- list_fmap_compose.
  f_equal. apply list_fmap_ext. intros _ p _. simpl. unfold weight.
  destruct (entry p) as [e|] eqn:He; [|by rewrite He].
  destruct (ρ (serverId e)); simpl; [by rewrite Hf|by rewrite He].
Qed.

Lemma countBy_setEntry_occupied (f : Entry → bool) (l : list Slot) (i : nat)
    (p : Slot) (e : Entry) (oe : option Entry) :
  l !! i = Some p → entry p = Some e →
  (countBy f (setEntry i oe l) + (if f e then 1 else 0)
   = countBy f l + (if from_option f false oe then 1 else 0))%nat.
Proof.
  intros Hp He. pose proof (countBy_setEntry f l i p oe Hp) as H.
  unfold weight in H. by rewrite He in H.
Qed.

(** Replacing the occupant of a slot by one of the same kind. *)
Lemma countBy_setEntry_same (f : Entry → bool) (l : list Slot)
    (id : ServerId) (e e' : Entry) :
  findEntry l id = Some e → f e' = f e →
  countBy f (setEntry (indexNumber id) (Some e') l) = countBy f l.
Proof.
  intros (p & Hp & He & _)%findEntry_Some Hf.
  pose proof (countBy_setEntry f l _ p (Some e') Hp) as H.
  unfold weight in H. rewrite He in H. simpl in H. rewrite Hf in H. lia.
Qed.

(** *** The counters of masters and backups *)

(** [numberOfMasters] and [numberOfBackups] count the entries that
    [isMaster] and [isBackup] hold of; [n] bounds the length of the
    list. *)
Definition counted (n : Z) (st : State) : Prop :=
  numberOfMasters st = Z.of_nat (countBy isMaster (serverList st))
  ∧ numberOfBackups st = Z.of_nat (countBy isBackup (serverList st))
  ∧ Z.of_nat (length (serverList st)) ≤ n + 1.

Definition countKept (st st' : State) : Prop :=
  ∀ n, n + 1 < 2 ^ 32 → counted n st → counted n st'.

(** A step that touches neither the list nor the counters. *)
Definition sameCounts (st st' : State) : Prop :=
  serverList st' = serverList st
  ∧ numberOfMasters st' = numberOfMasters st
  ∧ numberOfBackups st' = numberOfBackups st.

#[local] Instance countKept_preorder : PreOrder countKept.
Proof.
  split; [by intros st n|]. intros a b c H1 H2 n Hn H. by apply H2, H1.
Qed.

#[local] Instance sameCounts_preorder : PreOrder sameCounts.
Proof.
  split; [by intros st|].
  intros a b c (H1 & H2 & H3) (H4 & H5 & H6). repeat split; congruence.
Qed.

Lemma sameCounts_countKept (st st' : State) :
  sameCounts st st' → countKept st st'.
Proof.
  intros (Hl & Hm & Hb) n _ H. unfold counted in *. by rewrite Hl, Hm, Hb.
Qed.

Lemma counted_sameCounts {A} (m : M A) :
  keeps sameCounts m → keeps countKept m.
Proof. apply keeps_mono, sameCounts_countKept. Qed.

Lemma counted_mono (n m : Z) (st : State) :
  counted n st → n ≤ m → counted m st.
Proof. intros (H1 & H2 & H3) Hnm. repeat split; [done|done|lia]. Qed.

Lemma counted_initialState (log : DurableLog) : counted 0 (initialState log).
Proof. by repeat split. Qed.

Lemma counted_getReference (id : ServerId) :
  keeps countKept (getReferenceFromServerId id).
Proof. apply frame_getReference, _. Qed.

Lemma counted_appendProtoBuf (r : LogRecord) (invalidates : list Z) :
  keeps countKept (appendProtoBuf r invalidates).
Proof. apply counted_sameCounts, frame_appendProtoBuf; by intros. Qed.

Lemma counted_invalidate (invalidates : list Z) :
  keeps countKept (invalidate invalidates).
Proof.
  apply counted_sameCounts, frame_invalidate; first [apply _ | by intros].
Qed.

Lemma counted_readLog (id : Z) : keeps countKept (readLog id).
Proof. apply frame_readLog, _. Qed.

Lemma counted_startMasterRecovery (e : Entry) :
  keeps countKept (startMasterRecovery e).
Proof. apply counted_sameCounts. by intros st. Qed.

Lemma counted_pushUpdate : keeps countKept pushUpdate.
Proof.
  apply counted_sameCounts. intros st. unfold exec.
  destruct (decide (server (update st) = [])) as [Hnil|Hrows].
  - rewrite (run_pushUpdate_empty _ Hnil). reflexivity.
  - by rewrite (run_pushUpdate _ Hrows).
Qed.

Lemma counted_updateEntry (id : ServerId) (f : Entry → Entry) :
  (∀ e, isMaster (f e) = isMaster e) →
  (∀ e, isBackup (f e) = isBackup e) →
  keeps countKept (updateEntry id f).
Proof.
  intros Hm Hb st. unfold exec.
  destruct (getEntry st id) as [e|] eqn:Hget.
  - rewrite (run_updateEntry _ _ _ e Hget). intros n _ (H1 & H2 & H3).
    unfold counted. state_simpl.
    by rewrite !(countBy_setEntry_same _ _ _ e), length_setEntry.
  - unfold updateEntry. rewrite run_bind, (run_getReference_None _ _ Hget).
    reflexivity.
Qed.

Lemma isMaster_not_up (e : Entry) : status e ≠ UP → isMaster e = false.
Proof. unfold isMaster. by destruct (status e). Qed.

Lemma isBackup_not_up (e : Entry) : status e ≠ UP → isBackup e = false.
Proof. unfold isBackup. by destruct (status e). Qed.

Lemma counted_crashedState (n : Z) (st : State) (id : ServerId) (e : Entry) :
  n + 1 < 2 ^ 32 → counted n st → getEntry st id = Some e →
  counted n (crashedState id e st).
Proof.
  intros Hn (H1 & H2 & H3) Hget.
  pose proof Hget as (p & Hp & He & _)%findEntry_Some.
  pose proof (countBy_le_length isMaster (serverList st)) as Hlm.
  pose proof (countBy_le_length isBackup (serverList st)) as Hlb.
  pose proof (countBy_setEntry isMaster _ _ p (Some (set_status CRASHED e)) Hp)
    as Hcm.
  pose proof (countBy_setEntry isBackup _ _ p (Some (set_status CRASHED e)) Hp)
    as Hcb.
  unfold weight in Hcm, Hcb. rewrite He in Hcm, Hcb. simpl in Hcm, Hcb.
  unfold counted, crashedState. state_simpl.
  rewrite length_setEntry. split; [|split; [|done]].
  - destruct (isMaster e); [|lia].
    unfold u32. rewrite Z.mod_small; lia.
  - destruct (isBackup e); [|lia].
    unfold u32. rewrite Z.mod_small; lia.
Qed.

Lemma counted_removedState (n : Z) (st : State) (id : ServerId) (e : Entry) :
  counted n st → getEntry st id = Some e → status e ≠ UP →
  counted n (removedState id e st).
Proof.
  intros (H1 & H2 & H3) Hget Hst.
  pose proof Hget as (p & Hp & He & _)%findEntry_Some.
  pose proof (countBy_setEntry isMaster _ _ p None Hp) as Hcm.
  pose proof (countBy_setEntry isBackup _ _ p None Hp) as Hcb.
  unfold weight in Hcm, Hcb. rewrite He in Hcm, Hcb. simpl in Hcm, Hcb.
  rewrite (isMaster_not_up _ Hst) in Hcm.
  rewrite (isBackup_not_up _ Hst) in Hcb.
  unfold counted, removedState. state_simpl.
  rewrite length_setEntry. split; [lia|]. split; [lia|done].
Qed.

Lemma counted_crashed (id : ServerId) : keeps countKept (crashed id).
Proof.
  intros st. unfold exec.
  destruct (getEntry st id) as [e|] eqn:Hget.
  - destruct (status e) eqn:Hst.
    + rewrite (run_crashed _ _ e Hget Hst). intros n Hn H.
      by apply counted_crashedState.
    + rewrite (run_crashed_CRASHED _ _ e Hget Hst). reflexivity.
    + rewrite (run_crashed_DOWN _ _ e Hget Hst). reflexivity.
  - rewrite (run_crashed_None _ _ Hget). reflexivity.
Qed.

Lemma counted_remove (id : ServerId) : keeps countKept (remove id).
Proof.
  intros st. unfold exec.
  destruct (getEntry st id) as [e|] eqn:Hget.
  - destruct (status e) eqn:Hst.
    + rewrite (run_remove_UP _ _ e Hget Hst). intros n Hn H.
      apply counted_removedState;
        [by apply counted_crashedState|by apply getEntry_crashedState|done].
    + rewrite (run_remove_CRASHED _ _ e Hget Hst). intros n Hn H.
      apply counted_removedState; [done|done|by rewrite Hst].
    + unfold remove. rewrite run_bind, (run_getReference _ _ e Hget).
      rewrite run_bind, (run_crashed_DOWN _ _ e Hget Hst). reflexivity.
  - rewrite (run_remove_None _ _ Hget). reflexivity.
Qed.

Lemma counted_addUpdateRow (e : Entry) : keeps countKept (addUpdateRow e).
Proof. apply counted_sameCounts, frame_addUpdateRow; by intros. Qed.

#[local] Hint Resolve counted_getReference counted_appendProtoBuf
  counted_invalidate counted_readLog counted_startMasterRecovery
  counted_pushUpdate counted_crashed counted_remove counted_addUpdateRow
  : kept.

#[local] Hint Extern 1 (keeps countKept (updateEntry _ _)) =>
  apply counted_updateEntry; [by intros | by intros] : kept.

Lemma counted_setReplicationId (id : ServerId) (r : Z) :
  keeps countKept (setReplicationId id r).
Proof. unfold setReplicationId. kept. Qed.

Lemma counted_assignReplicationGroup (r : Z) (ids : list ServerId) :
  keeps countKept (assignReplicationGroup r ids).
Proof.
  pose proof counted_setReplicationId.
  induction ids as [|id ids IH]; simpl; kept.
Qed.

Lemma counted_formGroups (stack : list ServerId) :
  keeps countKept (formGroups stack).
Proof.
  pose proof counted_assignReplicationGroup.
  induction stack as [|a|a b|a b c rest IH] using triples_ind;
    cbn [formGroups]; kept.
  apply (keeps_modify countKept). intros st.
  by apply sameCounts_countKept.
Qed.

Lemma counted_createReplicationGroup : keeps countKept createReplicationGroup.
Proof. unfold createReplicationGroup. pose proof counted_formGroups. kept. Qed.

Lemma counted_resetGroup (groupId : Z) (indices : list nat)
    (group : list ServerId) :
  keeps countKept (resetGroup groupId indices group).
Proof.
  pose proof counted_assignReplicationGroup.
  revert group. induction indices as [|i rest IH]; intros group; simpl.
  - kept.
  - apply (keeps_bind countKept); [kept|]. intros st.
    apply (keeps_bind countKept); [case_decide; kept|]. intros _. apply IH.
Qed.

Lemma counted_removeReplicationGroup (groupId : Z) :
  keeps countKept (removeReplicationGroup groupId).
Proof.
  unfold removeReplicationGroup. pose proof counted_resetGroup.
  destruct (groupId =? 0); kept.
Qed.

Lemma counted_ServerDown_complete (id : ServerId) (entryId : Z) :
  keeps countKept (ServerDown_complete id entryId).
Proof.
  pose proof counted_removeReplicationGroup.
  pose proof counted_createReplicationGroup.
  unfold ServerDown_complete, getServerInfoLogId, getServerUpdateLogId. kept.
Qed.

Lemma counted_serverDown_locked (id : ServerId) :
  keeps countKept (serverDown_locked id).
Proof.
  pose proof counted_ServerDown_complete.
  unfold serverDown_locked, ServerDown_execute. kept.
Qed.

Lemma counted_removeAfterRecovery (id : ServerId) :
  keeps countKept (removeAfterRecovery id).
Proof. unfold removeAfterRecovery. kept. Qed.

Lemma counted_setMasterRecoveryInfo (id : ServerId)
    (info : MasterRecoveryInfo) :
  keeps countKept (setMasterRecoveryInfo id info).
Proof.
  unfold setMasterRecoveryInfo, SetMasterRecoveryInfo_execute,
    SetMasterRecoveryInfo_complete, getServerUpdateLogId,
    addServerUpdateLogId.
  kept.
Qed.

(** *** [generateUniqueId] and [add] *)

Lemma firstFreeScan_spec (k : nat) (l : list Slot) :
  (k ≤ firstFreeScan k l ≤ k + length l)%nat
  ∧ (∀ p, l !! (firstFreeScan k l - k)%nat = Some p → entry p = None)
  ∧ (∀ j p, (j < firstFreeScan k l - k)%nat → l !! j = Some p →
       is_Some (entry p)).
Proof.
  revert k. induction l as [|p l IH]; intros k; simpl.
  - split; [lia|]. split; [by intros p|]. intros j p Hj. lia.
  - destruct (entry p) as [e|] eqn:He.
    + destruct (IH (S k)) as (Hr & Hfree & Hocc). split; [lia|].
      replace (firstFreeScan (S k) l - k)%nat
        with (S (firstFreeScan (S k) l - S k)) by lia.
      split; [done|]. intros [|j] q Hj; simpl.
      * intros [= <-]. by rewrite He.
      * apply Hocc. lia.
    + split; [lia|]. rewrite Nat.sub_diag. simpl.
      split; [by intros q [= <-]|]. intros j q Hj. lia.
Qed.

(** The index [firstFreeIndex] returns, and the list it leaves. *)
Definition allocIndex (l : list Slot) : nat := firstFreeScan 1 (drop 1 l).

Definition allocList (l : list Slot) : list Slot :=
  if decide (length l ≤ allocIndex l)%nat then resize (S (allocIndex l)) l
  else l.

(** The slot [generateUniqueId] takes, and the id it builds. *)
Definition allocSlot (l : list Slot) : Slot :=
  default emptySlot (allocList l !! allocIndex l).

Definition allocId (l : list Slot) : ServerId :=
  mkServerId (allocIndex l) (nextGenerationNumber (allocSlot l)).

Lemma allocIndex_range (l : list Slot) :
  (1 ≤ allocIndex l ≤ S (length (drop 1 l)))%nat.
Proof. unfold allocIndex. destruct (firstFreeScan_spec 1 (drop 1 l)). lia. Qed.

Lemma allocIndex_free (l : list Slot) (p : Slot) :
  l !! allocIndex l = Some p → entry p = None.
Proof.
  intros Hp. destruct (firstFreeScan_spec 1 (drop 1 l)) as (Hr & Hfree & _).
  apply Hfree. rewrite lookup_drop. fold (allocIndex l) in *.
  by replace (1 + (allocIndex l - 1))%nat with (allocIndex l) by lia.
Qed.

Lemma allocIndex_lowest (l : list Slot) (j : nat) (p : Slot) :
  (1 ≤ j < allocIndex l)%nat → l !! j = Some p → is_Some (entry p).
Proof.
  intros Hj Hp. destruct (firstFreeScan_spec 1 (drop 1 l)) as (_ & _ & Hocc).
  fold (allocIndex l) in Hocc. apply (Hocc (j - 1)%nat); [lia|].
  rewrite lookup_drop. by replace (1 + (j - 1))%nat with j by lia.
Qed.

Lemma lookup_resize (l : list Slot) (m i : nat) :
  (length l ≤ m)%nat →
  resize m l !! i
  = match l !! i with
    | Some p => Some p
    | None => if decide (i < m)%nat then Some emptySlot else None
    end.
Proof.
  intros Hm. unfold resize. rewrite take_ge by done. rewrite lookup_app.
  destruct (l !! i) as [p|] eqn:Hp; [done|].
  apply lookup_ge_None in Hp. case_decide.
  - apply lookup_replicate_2. lia.
  - apply lookup_replicate_None. lia.
Qed.

Lemma findEntry_resize (l : list Slot) (m : nat) (id : ServerId) :
  (length l ≤ m)%nat → findEntry (resize m l) id = findEntry l id.
Proof.
  intros Hm. unfold findEntry. rewrite lookup_resize by done.
  destruct (l !! indexNumber id); [done|]. by case_decide.
Qed.

Lemma length_resize (l : list Slot) (m : nat) :
  (length l ≤ m)%nat → length (resize m l) = m.
Proof.
  intros Hm. unfold resize.
  rewrite take_ge, length_app, length_replicate by done. lia.
Qed.

Lemma length_allocList (l : list Slot) :
  length (allocList l) = (length l `max` S (allocIndex l))%nat.
Proof.
  unfold allocList. case_decide; [rewrite length_resize|]; lia.
Qed.

Lemma lookup_allocList (l : list Slot) :
  allocList l !! allocIndex l = Some (allocSlot l)
  ∧ entry (allocSlot l) = None.
Proof.
  unfold allocSlot, allocList. case_decide as Hlen.
  - rewrite lookup_resize by lia.
    rewrite (proj2 (lookup_ge_None l (allocIndex l))) by lia.
    by rewrite decide_True by lia.
  - destruct (lookup_lt_is_Some_2 l (allocIndex l)) as [p Hp]; [lia|].
    rewrite Hp. simpl. split; [done|]. by eapply allocIndex_free.
Qed.

Lemma findEntry_allocList (l : list Slot) (id : ServerId) :
  findEntry (allocList l) id = findEntry l id.
Proof.
  unfold allocList. case_decide; [|done]. apply findEntry_resize. lia.
Qed.

(** The id about to be handed out is not in the list. *)
Lemma findEntry_allocId (l : list Slot) : findEntry l (allocId l) = None.
Proof.
  rewrite <- findEntry_allocList. unfold findEntry. simpl.
  destruct (lookup_allocList l) as [-> ->]. done.
Qed.

Lemma run_generateUniqueId (st : State) :
  generateUniqueId st
  = (Returns (allocId (serverList st)),
     set_serverList
       (<[allocIndex (serverList st) :=
            {| nextGenerationNumber :=
                 u32 (nextGenerationNumber (allocSlot (serverList st)) + 1);
               entry := Some (newEntry (allocId (serverList st)) "" 0) |}]>
          (allocList (serverList st))) st).
Proof.
  unfold generateUniqueId, firstFreeIndex. unfold_monad.
  unfold allocId, allocSlot, allocList. fold (allocIndex (serverList st)).
  case_decide; state_simpl; [|done]. state_eq.
Qed.

(** The entry [add] constructs. *)
Definition addedEntry (id : ServerId) (locator : string) (mask : ServiceMask)
    (readSpeed : Z) : Entry :=
  if has mask BACKUP_SERVICE
  then set_expectedReadMBytesPerSec readSpeed (newEntry id locator mask)
  else newEntry id locator mask.

Lemma addedEntry_serverId (id : ServerId) (locator : string)
    (mask : ServiceMask) (readSpeed : Z) :
  serverId (addedEntry id locator mask readSpeed) = id.
Proof. unfold addedEntry. by destruct (has mask BACKUP_SERVICE). Qed.

Lemma addedEntry_status (id : ServerId) (locator : string)
    (mask : ServiceMask) (readSpeed : Z) :
  status (addedEntry id locator mask readSpeed) = UP.
Proof. unfold addedEntry. by destruct (has mask BACKUP_SERVICE). Qed.

Lemma addedEntry_services (id : ServerId) (locator : string)
    (mask : ServiceMask) (readSpeed : Z) :
  services (addedEntry id locator mask readSpeed) = mask.
Proof. unfold addedEntry. by destruct (has mask BACKUP_SERVICE). Qed.

(** The state [add] leaves. *)
Definition addedState (id : ServerId) (locator : string) (mask : ServiceMask)
    (readSpeed : Z) (st : State) : State :=
  let e := addedEntry id locator mask readSpeed in
  let grownList :=
    if decide (length (serverList st) ≤ indexNumber id)%nat
    then resize (S (indexNumber id)) (serverList st) else serverList st in
  set_trackerChanges (trackerChanges st ++ [(e, SERVER_ADDED)])
    (set_update (add_server (Entry_serialize e) (update st))
       (set_numberOfBackups
          (if has mask BACKUP_SERVICE then u32 (numberOfBackups st + 1)
           else numberOfBackups st)
          (set_numberOfMasters
             (if has mask MASTER_SERVICE then u32 (numberOfMasters st + 1)
              else numberOfMasters st)
             (set_serverList
                (<[indexNumber id :=
                     {| nextGenerationNumber := u32 (generationNumber id + 1);
                        entry := Some e |}]> grownList) st)))).

Lemma run_add (st : State) (id : ServerId) (locator : string)
    (mask : ServiceMask) (readSpeed : Z) :
  add id locator mask readSpeed st
  = (Returns tt, addedState id locator mask readSpeed st).
Proof.
  unfold add, addedState, addedEntry, addUpdateRow, enqueueChange.
  unfold_monad.
  destruct (has mask MASTER_SERVICE), (has mask BACKUP_SERVICE);
    case_decide; state_simpl; state_eq.
Qed.

Lemma run_appendProtoBuf (r : LogRecord) (invalidates : list Z) (st : State) :
  appendProtoBuf r invalidates st
  = (Returns (expectedEntryId (logCabin st)),
     exec (appendProtoBuf r invalidates) st).
Proof. reflexivity. Qed.

Lemma sameRows_appendProtoBuf (r : LogRecord) (invalidates : list Z)
    (st : State) :
  sameRows st (exec (appendProtoBuf r invalidates) st).
Proof. apply frame_appendProtoBuf. by intros. Qed.

(** An id whose slot has already handed out a later generation. *)
Definition slotPast (l : list Slot) (id : ServerId) : Prop :=
  ∃ p, l !! indexNumber id = Some p
       ∧ generationNumber id < nextGenerationNumber p.

Lemma slotPast_allocId (l : list Slot) (id : ServerId) :
  slotPast l id → id ≠ allocId l.
Proof.
  intros (p & Hp & Hlt) ->. simpl in *.
  destruct (lookup_allocList l) as [Hq _].
  unfold allocList in Hq. case_decide as Hlen.
  - apply lookup_lt_Some in Hp. lia.
  - rewrite Hp in Hq. injection Hq as Hq. rewrite Hq in Hlt. lia.
Qed.

Lemma slotPast_findEntry (n : Z) (l : list Slot)
    (rows : list ServerList_Entry) (id : ServerId) (e : Entry) :
  generations n l rows → findEntry l id = Some e → slotPast l id.
Proof.
  intros H (p & Hp & He & Hid)%findEntry_Some. exists p. split; [done|].
  destruct (gen_entry _ _ _ H _ _ _ Hp He) as [-> _]. rewrite Hid. lia.
Qed.

Lemma slotPast_row (n : Z) (l : list Slot) (rows : list ServerList_Entry)
    (row : ServerList_Entry) :
  generations n l rows → row ∈ rows → slotPast l (pb_server_id row).
Proof. intros H Hin. apply (gen_rows _ _ _ H row Hin). Qed.

Lemma slotPast_slotsKept (l l' : list Slot) (id : ServerId) :
  slotsKept l l' → slotPast l id → slotPast l' id.
Proof.
  intros [_ Hb] (p & Hp & Hlt). destruct (Hb _ p Hp) as (q & Hq & Hgen).
  exists q. split; [done|]. by rewrite Hgen.
Qed.

(** [EnlistServer::execute] from a state that satisfies the invariant: it
    returns the id [generateUniqueId] builds; the pending update receives
    the row of the new entry followed by rows of the replication group
    manager; nothing is published. *)
Lemma run_EnlistServer_execute (n : Z) (st : State) (mask : ServiceMask)
    (readSpeed : Z) (locator : string) :
  inv n st → n + 1 < 2 ^ 32 →
  let id := allocId (serverList st) in
  let eNew := addedEntry id locator mask readSpeed in
  ∃ lD later st',
    EnlistServer_execute mask readSpeed locator st = (Returns id, st')
    ∧ inv (n + 1) st'
    ∧ updates st' = updates st
    ∧ version st' = version st
    ∧ server (update st') = server (update st) ++ Entry_serialize eNew :: later
    ∧ rowsOfPresent lD later
    ∧ (∀ id', id' ≠ id → findEntry lD id' = findEntry (serverList st) id')
    ∧ slotsKept lD (serverList st')
    ∧ (∀ id', id' ≠ id →
         set_replicationId 0 <$> findEntry (serverList st') id'
         = set_replicationId 0 <$> findEntry (serverList st) id')
    ∧ (n + 2 < 2 ^ 32 → counted n st → counted (n + 1) st')
    ∧ ∃ e', findEntry (serverList st') id = Some e'
            ∧ status e' = UP ∧ services e' = mask
            ∧ serviceLocator e' = locator
            ∧ Entry_serialize (set_replicationId 0 e') = Entry_serialize eNew.
Proof.
  intros H Hfit id eNew.
  destruct (lookup_allocList (serverList st)) as [Hslot Hfree].
  pose proof (lookup_lt_Some _ _ _ Hslot) as HlenA.
  (* generateUniqueId *)
  set (e0 := newEntry id "" 0).
  set (sA := set_serverList
    (<[allocIndex (serverList st) :=
         {| nextGenerationNumber :=
              u32 (nextGenerationNumber (allocSlot (serverList st)) + 1);
            entry := Some e0 |}]> (allocList (serverList st))) st).
  assert (HrunA : generateUniqueId st = (Returns id, sA))
    by apply run_generateUniqueId.
  assert (HA : inv (n + 1) sA).
  { unfold inv, sA, allRows. state_simpl.
    eapply generations_alloc; [|exact Hslot|done|done|done].
    unfold allocList. case_decide; [|exact H].
    apply generations_resize; [exact H|lia]. }
  assert (HgetA : getEntry sA id = Some e0).
  { apply findEntry_Some. eexists.
    split; [by apply list_lookup_insert_eq|]. done. }
  (* the first log record *)
  set (rec1 := ServerInformation "ServerEnlisting" id mask readSpeed locator).
  set (sB := exec (appendProtoBuf rec1 []) sA).
  assert (HB : inv (n + 1) sB) by (by apply (kept_appendProtoBuf _ _ sA)).
  assert (HgetB : getEntry sB id = Some e0) by exact HgetA.
  set (entryId := expectedEntryId (logCabin sA)).
  set (e0' := set_serverInfoLogId entryId e0).
  set (sC := set_serverList
    (setEntry (indexNumber id) (Some e0') (serverList sB)) sB).
  assert (HrunC : addServerInfoLogId id entryId sB = (Returns tt, sC))
    by (by apply run_updateEntry).
  assert (HC : inv (n + 1) sC).
  { pose proof (kept_updateEntry id (set_serverInfoLogId entryId)
      (λ _, eq_refl) (λ _ Hs, Hs) sB (n + 1) HB) as HC.
    unfold exec in HC. by rewrite (run_updateEntry _ _ _ _ HgetB) in HC. }
  assert (HgetC : getEntry sC id = Some e0')
    by (by eapply findEntry_setEntry; [exact HgetB|]).
  pose proof (findEntry_lt _ _ _ HgetC) as HlenC.
  set (next := u32 (nextGenerationNumber (allocSlot (serverList st)) + 1)).
  assert (HlookA : serverList sA !! indexNumber id
                   = Some {| nextGenerationNumber := next; entry := Some e0 |})
    by (by apply list_lookup_insert_eq).
  assert (HlookC : serverList sC !! indexNumber id
                   = Some {| nextGenerationNumber := next; entry := Some e0' |})
    by apply (lookup_setEntry_eq _ _ _ _ HlookA).
  (* add *)
  set (sD := addedState id locator mask readSpeed sC).
  assert (HlD : serverList sD
                = setEntry (indexNumber id) (Some eNew) (serverList sC)).
  { unfold sD, addedState. state_simpl. rewrite decide_False by lia.
    apply (insert_setEntry _ _ _ _ HlookC). }
  assert (HlookD : serverList sD !! indexNumber id
                   = Some {| nextGenerationNumber := next; entry := Some eNew |}).
  { rewrite HlD. apply (lookup_setEntry_eq _ _ _ _ HlookC). }
  assert (HrowsD : allRows sD = allRows sC ++ [Entry_serialize eNew]).
  { unfold sD, addedState, allRows. state_simpl. by rewrite app_assoc. }
  assert (HgetD : getEntry sD id = Some eNew).
  { unfold getEntry. rewrite HlD.
    eapply findEntry_setEntry; [exact HgetC|apply addedEntry_serverId]. }
  assert (HD : inv (n + 1) sD).
  { unfold inv. rewrite HrowsD. eapply generations_row.
    - rewrite HlD. eapply generations_slotsKept; [exact HC|].
      eapply slotsKept_setEntry_Some;
        [exact HgetC | apply addedEntry_serverId |].
      intros _. unfold eNew. by rewrite addedEntry_status.
    - change (pb_server_id (Entry_serialize eNew)) with (serverId eNew).
      unfold eNew. rewrite addedEntry_serverId. exact HgetD. }
  (* the replication groups *)
  assert (HG : ∃ sE, when (isBackup eNew) createReplicationGroup sD
                     = (Returns tt, sE) ∧ groupStep sD sE).
  { destruct (isBackup eNew).
    - destruct (groupStep_createReplicationGroup sD (gen_inPlace _ _ _ HD))
        as [Hout Hstep].
      exists (exec createReplicationGroup sD).
      split; [by apply run_outcome|done].
    - exists sD. split; [done|apply groupStep_refl]. }
  destruct HG as (sE & HrunE & HstepE).
  assert (HE : inv (n + 1) sE) by (by apply (invKept_groupStep sD sE)).
  destruct HstepE as (ρ & later & r' & HsE & Hlater).
  set (eE := match ρ id with Some r => set_replicationId r eNew
             | None => eNew end).
  assert (HgetE : getEntry sE id = Some eE).
  { unfold getEntry. rewrite HsE. state_simpl.
    rewrite findEntry_updateRepl. unfold getEntry in HgetD.
    by rewrite HgetD. }
  (* the second log record *)
  set (rec2 := ServerInformation "ServerEnlisted" id mask readSpeed locator).
  set (sF := exec (appendProtoBuf rec2 [entryId]) sE).
  assert (HF : inv (n + 1) sF) by (by apply (kept_appendProtoBuf _ _ sE)).
  assert (HgetF : getEntry sF id = Some eE) by exact HgetE.
  set (newEntryId := expectedEntryId (logCabin sE)).
  set (sG := set_serverList
    (setEntry (indexNumber id) (Some (set_serverInfoLogId newEntryId eE))
       (serverList sF)) sF).
  assert (HrunG : addServerInfoLogId id newEntryId sF = (Returns tt, sG))
    by (by apply run_updateEntry).
  assert (HGinv : inv (n + 1) sG).
  { pose proof (kept_updateEntry id (set_serverInfoLogId newEntryId)
      (λ _, eq_refl) (λ _ Hs, Hs) sF (n + 1) HF) as HG.
    unfold exec in HG. by rewrite (run_updateEntry _ _ _ _ HgetF) in HG. }
  exists (serverList sD), later, sG. split; [|split; [done|]].
  { unfold EnlistServer_execute.
    rewrite run_bind, HrunA.
    rewrite run_bind, (run_appendProtoBuf _ _ sA).
    fold rec1 sB entryId. rewrite run_bind, HrunC.
    unfold EnlistServer_complete.
    rewrite run_bind, (run_add sC). fold sD.
    rewrite run_bind, (run_getReference _ _ _ HgetD).
    rewrite run_bind, HrunE.
    rewrite run_bind, (run_appendProtoBuf _ _ sE).
    fold rec2 sF newEntryId. rewrite run_bind, HrunG. reflexivity. }
  assert (HlG : serverList sG
    = setEntry (indexNumber id) (Some (set_serverInfoLogId newEntryId eE))
        (updateRepl ρ (serverList sD))).
  { unfold sG, sF. rewrite HsE. reflexivity. }
  split; [unfold sG, sF; rewrite HsE; reflexivity|].
  split; [unfold sG, sF; rewrite HsE; reflexivity|].
  split.
  { unfold sG, sF. rewrite HsE. state_simpl. unfold sD, addedState.
    state_simpl. by rewrite <- app_assoc. }
  assert (Hothers : ∀ id', id' ≠ id →
    findEntry (serverList sD) id' = findEntry (serverList st) id').
  { intros id' Hne.
    rewrite <- (findEntry_allocList (serverList st)).
    destruct (decide (indexNumber id' = indexNumber id)) as [Heq|Hidx].
    - unfold findEntry. rewrite Heq, HlookD. simpl.
      change (indexNumber id) with (allocIndex (serverList st)).
      rewrite Hslot, Hfree.
      unfold eNew. rewrite addedEntry_serverId.
      by rewrite (proj2 (ServerId_eqb_neq id id')).
    - rewrite HlD. unfold sC. state_simpl.
      rewrite !findEntry_setEntry_other by done.
      unfold findEntry, sB, sA, exec, appendProtoBuf. state_simpl.
      rewrite list_lookup_insert_ne; [done|].
      intros Heq. apply Hidx. by rewrite <- Heq. }
  split; [done|]. split; [exact Hothers|]. split.
  { rewrite HlG. eapply slotsKept_trans; [apply slotsKept_updateRepl|].
    eapply (slotsKept_setEntry_Some _ id eE); [| |by intros].
    - rewrite findEntry_updateRepl. unfold getEntry in HgetD.
      rewrite HgetD. reflexivity.
    - simpl. unfold eE. destruct (ρ id); simpl; apply addedEntry_serverId. }
  assert (HgetG : findEntry (serverList sG) id
                  = Some (set_serverInfoLogId newEntryId eE)).
  { eapply findEntry_setEntry; [exact HgetF|]. simpl.
    unfold eE. destruct (ρ id); simpl; apply addedEntry_serverId. }
  split.
  { intros id' Hne. rewrite <- (Hothers id' Hne).
    destruct (decide (indexNumber id' = indexNumber id)) as [Heq|Hidx].
    - rewrite (findEntry_same_slot _ _ _ _ HgetG Heq Hne).
      by rewrite (findEntry_same_slot _ _ _ _ HgetD Heq Hne).
    - rewrite HlG, findEntry_setEntry_other, findEntry_updateRepl by done.
      destruct (findEntry (serverList sD) id'); [|done].
      simpl. by destruct (ρ id'). }
  split.
  { intros Hfit2 (Hm & Hb & Hlen).
    assert (HgetE' : findEntry (updateRepl ρ (serverList sD)) id = Some eE).
    { rewrite findEntry_updateRepl. unfold getEntry in HgetD.
      by rewrite HgetD. }
    assert (Hcnt : ∀ f : Entry → bool,
      f e0 = false →
      (∀ x e, f (set_serverInfoLogId x e) = f e) →
      (∀ r e, f (set_replicationId r e) = f e) →
      countBy f (serverList sG)
      = (countBy f (serverList st) + (if f eNew then 1 else 0))%nat).
    { intros f Hf0 Hflog Hfrepl.
      rewrite HlG, (countBy_setEntry_same f _ id eE) by done.
      rewrite countBy_updateRepl by done.
      assert (Hf0' : f e0' = false) by (unfold e0'; by rewrite Hflog).
      assert (HcD : (countBy f (serverList sD) + (if f e0' then 1 else 0)
                     = countBy f (serverList sC)
                       + (if f eNew then 1 else 0))%nat).
      { rewrite HlD.
        exact (countBy_setEntry_occupied f _ _ _ e0' (Some eNew)
                 HlookC eq_refl). }
      assert (HcC : (countBy f (serverList sC) + (if f e0 then 1 else 0)
                     = countBy f (serverList sA)
                       + (if f e0' then 1 else 0))%nat)
        by exact (countBy_setEntry_occupied f _ _ _ e0 (Some e0')
                    HlookA eq_refl).
      assert (HcA : (countBy f (serverList sA) + weight f (allocSlot (serverList st))
                     = countBy f (allocList (serverList st))
                       + (if f e0 then 1 else 0))%nat)
        by exact (countBy_insert f _ _ _
                    {| nextGenerationNumber := next; entry := Some e0 |}
                    Hslot).
      unfold weight in HcA. rewrite Hfree in HcA. cbn [from_option] in HcA.
      assert (Hal : countBy f (allocList (serverList st))
                    = countBy f (serverList st)).
      { unfold allocList. case_decide; [|done]. apply countBy_resize. lia. }
      rewrite Hf0, Hf0' in *. lia. }
    pose proof (Hcnt isMaster eq_refl (λ _ _, eq_refl) (λ _ _, eq_refl)) as Hcm.
    pose proof (Hcnt isBackup eq_refl (λ _ _, eq_refl) (λ _ _, eq_refl)) as Hcb.
    assert (Hem : isMaster eNew = has mask MASTER_SERVICE).
    { unfold eNew, isMaster.
      by rewrite addedEntry_status, addedEntry_services. }
    assert (Heb : isBackup eNew = has mask BACKUP_SERVICE).
    { unfold eNew, isBackup.
      by rewrite addedEntry_status, addedEntry_services. }
    assert (HmG : numberOfMasters sG
                  = if has mask MASTER_SERVICE
                    then u32 (numberOfMasters st + 1) else numberOfMasters st).
    { unfold sG, sF. rewrite HsE. reflexivity. }
    assert (HbG : numberOfBackups sG
                  = if has mask BACKUP_SERVICE
                    then u32 (numberOfBackups st + 1) else numberOfBackups st).
    { unfold sG, sF. rewrite HsE. reflexivity. }
    pose proof (countBy_le_length isMaster (serverList st)) as Hlm.
    pose proof (countBy_le_length isBackup (serverList st)) as Hlb.
    pose proof (gen_nonneg _ _ _ H) as Hn0.
    unfold counted. rewrite HmG, HbG, Hcm, Hcb, Hem, Heb.
    split; [|split].
    - destruct (has mask MASTER_SERVICE); [|lia].
      unfold u32. rewrite Z.mod_small; lia.
    - destruct (has mask BACKUP_SERVICE); [|lia].
      unfold u32. rewrite Z.mod_small; lia.
    - rewrite HlG, length_setEntry, length_updateRepl, HlD, length_setEntry.
      unfold sC. state_simpl. rewrite length_setEntry.
      change (serverList sB)
        with (<[allocIndex (serverList st) :=
                  {| nextGenerationNumber := next; entry := Some e0 |}]>
                (allocList (serverList st))).
      rewrite length_insert, length_allocList.
      pose proof (allocIndex_range (serverList st)) as Hr.
      rewrite length_drop in Hr. lia. }
  exists (set_serverInfoLogId newEntryId eE). split; [exact HgetG|].
  unfold eE, eNew, addedEntry.
  destruct (ρ id), (has mask BACKUP_SERVICE); done.
Qed.

(** *** The invariant along a trace *)

Lemma inv_enlistServer (n : Z) (st : State) (replacesId : ServerId)
    (mask : ServiceMask) (readSpeed : Z) (locator : string) :
  inv n st → n + 1 < 2 ^ 32 →
  inv (n + 1) (exec (enlistServer replacesId mask readSpeed locator) st).
Proof.
  intros H Hfit. unfold enlistServer, exec. rewrite run_getState, run_bind.
  pose proof (keeps_when invKept
                (bool_decide (is_Some (iget st replacesId))) _
                (kept_serverDown_locked replacesId) st n H) as H1.
  unfold exec in H1.
  destruct (when _ _ st) as [[[]|ex] s1]; simpl in *.
  - destruct (run_EnlistServer_execute n s1 mask readSpeed locator H1 Hfit)
      as (lD & later & s2 & Hrun & H2 & _).
    rewrite run_bind, Hrun, run_bind.
    pose proof (kept_pushUpdate s2 _ H2) as H3. unfold exec in H3.
    by destruct (pushUpdate s2) as [[[]|ex] s3].
  - apply (inv_mono n); [done|lia].
Qed.

Lemma inv_call (n : Z) (st : State) (c : Call) :
  normalCall c → inv n st → n + 1 < 2 ^ 32 → inv (n + 1) (exec (call c) st).
Proof.
  intros Hc H Hfit.
  assert (Hkept : ∀ m : M unit, keeps invKept m → inv (n + 1) (exec m st)).
  { intros m Hm. apply (inv_mono n); [by apply Hm|lia]. }
  destruct c as [replacesId wanted readSpeed locator| | | | | | |];
    try done; simpl.
  - rewrite exec_bind.
    pose proof (inv_enlistServer n st replacesId wanted readSpeed locator
                  H Hfit).
    by destruct (outcome _ st).
  - apply Hkept, kept_serverDown_locked.
  - apply Hkept, kept_removeAfterRecovery.
  - apply Hkept, kept_setMasterRecoveryInfo.
Qed.

Lemma inv_run (calls : list Call) (n : Z) (st : State) :
  Forall normalCall calls → inv n st →
  n + Z.of_nat (length calls) < 2 ^ 32 →
  inv (n + Z.of_nat (length calls)) (run calls st).
Proof.
  revert n st. induction calls as [|c calls IH]; intros n st Hall H Hfit.
  - simpl. by rewrite Z.add_0_r.
  - apply Forall_cons in Hall as [Hc Hall]. cbn [run foldl length] in *.
    replace (n + Z.of_nat (S (length calls)))
      with (n + 1 + Z.of_nat (length calls)) by lia.
    apply IH; [done| |lia]. apply inv_call; [done|done|lia].
Qed.

Lemma counted_enlistServer (n : Z) (st : State) (replacesId : ServerId)
    (mask : ServiceMask) (readSpeed : Z) (locator : string) :
  inv n st → counted n st → n + 2 < 2 ^ 32 →
  counted (n + 1) (exec (enlistServer replacesId mask readSpeed locator) st).
Proof.
  intros H C Hfit. unfold enlistServer, exec. rewrite run_getState, run_bind.
  pose proof (keeps_when invKept
                (bool_decide (is_Some (iget st replacesId))) _
                (kept_serverDown_locked replacesId) st n H) as H1.
  pose proof (keeps_when countKept
                (bool_decide (is_Some (iget st replacesId))) _
                (counted_serverDown_locked replacesId) st n
                ltac:(lia) C) as C1.
  unfold exec in H1, C1.
  destruct (when _ _ st) as [[[]|ex] s1]; simpl in *.
  - destruct (run_EnlistServer_execute n s1 mask readSpeed locator H1
                ltac:(lia))
      as (lD & later & s2 & Hrun & _ & _ & _ & _ & _ & _ & _ & _ & Hcount & _).
    rewrite run_bind, Hrun, run_bind.
    pose proof (counted_pushUpdate s2 (n + 1) ltac:(lia) (Hcount Hfit C1))
      as C3.
    unfold exec in C3. by destruct (pushUpdate s2) as [[[]|ex] s3].
  - apply (counted_mono n); [done|lia].
Qed.

Lemma counted_call (n : Z) (st : State) (c : Call) :
  normalCall c → inv n st → counted n st → n + 2 < 2 ^ 32 →
  counted (n + 1) (exec (call c) st).
Proof.
  intros Hc H C Hfit.
  assert (Hkept : ∀ m : M unit,
    keeps countKept m → counted (n + 1) (exec m st)).
  { intros m Hm. apply (counted_mono n); [apply Hm; [lia|done]|lia]. }
  destruct c as [replacesId wanted readSpeed locator| | | | | | |];
    try done; simpl.
  - rewrite exec_bind.
    pose proof (counted_enlistServer n st replacesId wanted readSpeed locator
                  H C Hfit).
    by destruct (outcome _ st).
  - apply Hkept, counted_serverDown_locked.
  - apply Hkept, counted_removeAfterRecovery.
  - apply Hkept, counted_setMasterRecoveryInfo.
Qed.

Lemma counted_run (calls : list Call) (n : Z) (st : State) :
  Forall normalCall calls → inv n st → counted n st →
  n + Z.of_nat (length calls) + 1 < 2 ^ 32 →
  counted (n + Z.of_nat (length calls)) (run calls st).
Proof.
  revert n st. induction calls as [|c calls IH]; intros n st Hall H C Hfit.
  - simpl. by rewrite Z.add_0_r.
  - apply Forall_cons in Hall as [Hc Hall]. cbn [run foldl length] in *.
    replace (n + Z.of_nat (S (length calls)))
      with (n + 1 + Z.of_nat (length calls)) by lia.
    apply IH; [done| | |lia].
    + apply inv_call; [done|done|lia].
    + apply counted_call; [done|done|done|lia].
Qed.

Lemma entriesInPlace_slotsKept (l l' : list Slot) :
  slotsKept l l' → entriesInPlace l → entriesInPlace l'.
Proof.
  intros [Ha _] Hl i q e' Hq Heq.
  destruct (Ha i q Hq) as (p & Hp & _ & Hocc).
  destruct (Hocc e' Heq) as (e & Hep & -> & _). by eapply Hl.
Qed.

Lemma entriesInPlace_added (st : State) (id : ServerId) (locator : string)
    (mask : ServiceMask) (readSpeed : Z) :
  entriesInPlace (serverList st) →
  entriesInPlace (serverList (addedState id locator mask readSpeed st)).
Proof.
  intros Hin i p e Hp He. unfold addedState in Hp. revert Hp. state_simpl.
  set (l := if decide (length (serverList st) ≤ indexNumber id)%nat
            then resize (S (indexNumber id)) (serverList st)
            else serverList st).
  assert (Hl : entriesInPlace l).
  { unfold l. case_decide as Hlen; [|done]. intros j q e' Hq He'.
    rewrite lookup_resize in Hq by lia.
    destruct (serverList st !! j) as [q'|] eqn:Hq'.
    - injection Hq as <-. by apply (Hin j q' e').
    - case_decide; [|done]. injection Hq as <-. done. }
  intros Hp. destruct (decide (i = indexNumber id)) as [->|Hne].
  - apply list_lookup_insert_Some in Hp as [(_ & <- & _)|[? _]]; [|done].
    simpl in He. injection He as <-. by rewrite addedEntry_serverId.
  - rewrite list_lookup_insert_ne in Hp by done. by apply (Hl i p e).
Qed.

(** ** Removals come first within a delta

    A CRASHED or DOWN row is only ever serialized from the occupant of
    its slot.  A slot gets a new occupant only in [generateUniqueId] and
    [add], within calls that go on to [pushUpdate] and write nothing but
    rows of servers that are up on the way there.  Hence no row that shows
    a server up is followed, in the same delta, by a CRASHED or DOWN row
    of another server of the same slot. *)

Definition removalsFirst (rows : list ServerList_Entry) : Prop :=
  ∀ i j r1 r2,
    (i < j)%nat → rows !! i = Some r1 → rows !! j = Some r2 →
    pb_status r1 = UP → pb_status r2 ≠ UP → rowIndex r1 = rowIndex r2 →
    pb_server_id r1 = pb_server_id r2.

(** Every pending row that shows a server up names the occupant of its
    slot, if the slot has one. *)
Definition upRowsCurrent (l : list Slot) (rows : list ServerList_Entry)
  : Prop :=
  ∀ row p e, row ∈ rows → pb_status row = UP →
    l !! rowIndex row = Some p → entry p = Some e →
    serverId e = pb_server_id row.

Definition notDown (l : list Slot) : Prop :=
  ∀ i p e, l !! i = Some p → entry p = Some e → status e ≠ DOWN.

(** What holds of the object at any time of a call. *)
Record deltasOrdered (st : State) : Prop := mkDeltasOrdered {
  do_inPlace : entriesInPlace (serverList st);
  do_notDown : notDown (serverList st);
  do_published :
    ∀ b, b ∈ updates st → removalsFirst (server (incremental b));
  do_pending : removalsFirst (server (update st))
}.

(** What holds of it between two calls. *)
Definition deltasCurrent (st : State) : Prop :=
  deltasOrdered st ∧ upRowsCurrent (serverList st) (server (update st)).

Definition orderedKept : relation State :=
  λ st st', deltasOrdered st → deltasOrdered st'.

Definition currentKept : relation State :=
  λ st st', deltasCurrent st → deltasCurrent st'.

#[local] Instance orderedKept_preorder : PreOrder orderedKept.
Proof.
  split; [by intros st H|]. intros a b c Hab Hbc H. by apply Hbc, Hab.
Qed.

#[local] Instance currentKept_preorder : PreOrder currentKept.
Proof.
  split; [by intros st H|]. intros a b c Hab Hbc H. by apply Hbc, Hab.
Qed.

Lemma removalsFirst_nil : removalsFirst [].
Proof. by intros i j r1 r2 _ H. Qed.

Lemma removalsFirst_app_up (rows ups : list ServerList_Entry) :
  removalsFirst rows → Forall (λ r, pb_status r = UP) ups →
  removalsFirst (rows ++ ups).
Proof.
  intros H Hups i j r1 r2 Hij H1 H2 Hu1 Hn2 Hidx.
  destruct (decide (j < length rows)%nat) as [Hj|Hj].
  - rewrite lookup_app_l in H1 by lia. rewrite lookup_app_l in H2 by done.
    exact (H i j r1 r2 Hij H1 H2 Hu1 Hn2 Hidx).
  - rewrite lookup_app_r in H2 by lia.
    apply list_elem_of_lookup_2 in H2. rewrite Forall_forall in Hups.
    by destruct Hn2; apply Hups.
Qed.

Lemma removalsFirst_snoc (rows : list ServerList_Entry)
    (row : ServerList_Entry) :
  removalsFirst rows →
  (∀ r1, r1 ∈ rows → pb_status r1 = UP → rowIndex r1 = rowIndex row →
         pb_server_id r1 = pb_server_id row) →
  removalsFirst (rows ++ [row]).
Proof.
  intros H Hnew i j r1 r2 Hij H1 H2 Hu1 Hn2 Hidx.
  destruct (decide (j < length rows)%nat) as [Hj|Hj].
  - rewrite lookup_app_l in H1 by lia. rewrite lookup_app_l in H2 by done.
    exact (H i j r1 r2 Hij H1 H2 Hu1 Hn2 Hidx).
  - pose proof (lookup_lt_Some _ _ _ H2) as Hlt.
    rewrite length_app in Hlt. simpl in Hlt.
    assert (j = length rows) as -> by lia.
    rewrite lookup_app_l in H1 by lia.
    rewrite lookup_app_r, Nat.sub_diag in H2 by lia. injection H2 as <-.
    apply Hnew; [by eapply list_elem_of_lookup_2|done|done].
Qed.

Lemma upRowsCurrent_slotsKept (l l' : list Slot)
    (rows : list ServerList_Entry) :
  slotsKept l l' → upRowsCurrent l rows → upRowsCurrent l' rows.
Proof.
  intros [Ha _] H row q e' Hin Hup Hq He'.
  destruct (Ha _ q Hq) as (p & Hp & _ & Hocc).
  destruct (Hocc e' He') as (e & He & -> & _). by eapply H.
Qed.

Lemma notDown_slotsKept (l l' : list Slot) :
  slotsKept l l' → notDown l → notDown l'.
Proof.
  intros [Ha _] H i q e' Hq He'.
  destruct (Ha _ q Hq) as (p & Hp & _ & Hocc).
  destruct (Hocc e' He') as (e & He & _ & Hst). apply Hst. by eapply H.
Qed.

Lemma upRowsCurrent_present (l : list Slot) (rows : list ServerList_Entry) :
  rowsOfPresent l rows → upRowsCurrent l rows.
Proof.
  intros Hrows row p e Hin _ Hp He.
  destruct (Hrows row Hin) as (e0 & r & (p0 & Hp0 & He0 & Hid)%findEntry_Some
                               & _).
  unfold rowIndex in Hp. congruence.
Qed.

Lemma rowsOfPresent_up (l : list Slot) (rows : list ServerList_Entry) :
  rowsOfPresent l rows → Forall (λ r, pb_status r = UP) rows.
Proof.
  intros Hrows. apply Forall_forall. intros row Hin.
  by destruct (Hrows row Hin) as (e & r & _ & Hup & ->).
Qed.

Lemma upRowsCurrent_app (l : list Slot) (rows rows' : list ServerList_Entry) :
  upRowsCurrent l rows → upRowsCurrent l rows' →
  upRowsCurrent l (rows ++ rows').
Proof.
  intros H H' row p e [Hin|Hin]%elem_of_app; [by apply H|by apply H'].
Qed.

Lemma upRowsCurrent_removal (l : list Slot) (row : ServerList_Entry) :
  pb_status row ≠ UP → upRowsCurrent l [row].
Proof. intros Hst row' p e ->%list_elem_of_singleton Hup. done. Qed.

Lemma notDown_insert (l : list Slot) (i : nat) (q : Slot) :
  notDown l → (∀ e, entry q = Some e → status e ≠ DOWN) →
  notDown (<[i := q]> l).
Proof.
  intros H Hq j p e [(_ & <- & _)|[_ Hp]]%list_lookup_insert_Some He.
  - by apply Hq.
  - by eapply H.
Qed.

Lemma entriesInPlace_insert (l : list Slot) (i : nat) (q : Slot) :
  entriesInPlace l → (∀ e, entry q = Some e → indexNumber (serverId e) = i) →
  entriesInPlace (<[i := q]> l).
Proof.
  intros H Hq j p e [(<- & <- & _)|[_ Hp]]%list_lookup_insert_Some He.
  - by apply Hq.
  - by eapply H.
Qed.

Lemma notDown_resize (l : list Slot) (m : nat) :
  (length l ≤ m)%nat → notDown l → notDown (resize m l).
Proof.
  intros Hm H j p e Hp He. rewrite lookup_resize in Hp by done.
  destruct (l !! j) as [p'|] eqn:Hp'.
  - injection Hp as <-. by eapply H.
  - case_decide; [|done]. by injection Hp as <-.
Qed.

Lemma entriesInPlace_resize (l : list Slot) (m : nat) :
  (length l ≤ m)%nat → entriesInPlace l → entriesInPlace (resize m l).
Proof.
  intros Hm H j p e Hp He. rewrite lookup_resize in Hp by done.
  destruct (l !! j) as [p'|] eqn:Hp'.
  - injection Hp as <-. by eapply H.
  - case_decide; [|done]. by injection Hp as <-.
Qed.

Lemma ordered_sameRows (st st' : State) : sameRows st st' → orderedKept st st'.
Proof.
  intros (Hl & Hu & Hus) [H1 H2 H3 H4]. split; by rewrite ?Hl, ?Hu, ?Hus.
Qed.

Lemma current_sameRows (st st' : State) : sameRows st st' → currentKept st st'.
Proof.
  intros Hs [H K]. split; [by apply (ordered_sameRows st)|].
  destruct Hs as (Hl & Hu & _). by rewrite Hl, Hu.
Qed.

Lemma ordered_slots (st : State) (l' : list Slot) :
  slotsKept (serverList st) l' → deltasOrdered st →
  deltasOrdered (set_serverList l' st).
Proof.
  intros Hk [H1 H2 H3 H4]. split; state_simpl; [| |done|done].
  - by eapply entriesInPlace_slotsKept.
  - by eapply notDown_slotsKept.
Qed.

Lemma current_slots (st : State) (l' : list Slot) :
  slotsKept (serverList st) l' → deltasCurrent st →
  deltasCurrent (set_serverList l' st).
Proof.
  intros Hk [H K]. split; [by apply ordered_slots|]. state_simpl.
  by eapply upRowsCurrent_slotsKept.
Qed.

Lemma ordered_groupStep (st st' : State) : groupStep st st' → orderedKept st st'.
Proof.
  intros (ρ & rows & r & -> & Hrows) [H1 H2 H3 H4]. split; state_simpl.
  - by apply entriesInPlace_updateRepl.
  - eapply notDown_slotsKept; [apply slotsKept_updateRepl|done].
  - done.
  - apply removalsFirst_app_up; [done|]. by eapply rowsOfPresent_up.
Qed.

Lemma current_groupStep (st st' : State) : groupStep st st' → currentKept st st'.
Proof.
  intros Hstep [H K]. split; [by apply (ordered_groupStep st)|].
  destruct Hstep as (ρ & rows & r & -> & Hrows). state_simpl.
  eapply upRowsCurrent_slotsKept; [apply slotsKept_updateRepl|].
  apply upRowsCurrent_app; [done|by apply upRowsCurrent_present].
Qed.

(** A CRASHED or DOWN row of the occupant of a slot, appended to the
    pending rows. *)
Lemma current_removal (st : State) (id : ServerId) (e : Entry)
    (s : ServerStatus) (l' : list Slot) :
  deltasCurrent st → getEntry st id = Some e → s ≠ UP →
  slotsKept (serverList st) l' →
  deltasCurrent
    (set_serverList l'
       (set_update (add_server (Entry_serialize (set_status s e)) (update st))
          st)).
Proof.
  intros [[H1 H2 H3 H4] K] Hget Hs Hk.
  pose proof Hget as (p & Hp & He & Hid)%findEntry_Some.
  split; [split|]; unfold add_server; state_simpl.
  - by eapply entriesInPlace_slotsKept.
  - by eapply notDown_slotsKept.
  - done.
  - apply removalsFirst_snoc; [done|]. intros r1 Hin Hup Hidx.
    change (pb_server_id r1 = serverId e). symmetry.
    apply (K r1 p e Hin Hup); [|done].
    rewrite Hidx. unfold rowIndex. simpl. by rewrite Hid.
  - eapply upRowsCurrent_slotsKept; [exact Hk|].
    apply upRowsCurrent_app; [done|]. by apply upRowsCurrent_removal.
Qed.

Lemma current_crashedState (st : State) (id : ServerId) (e : Entry) :
  deltasCurrent st → getEntry st id = Some e →
  deltasCurrent (crashedState id e st).
Proof.
  intros H Hget.
  pose proof (findEntry_serverId _ _ _ Hget) as Hid.
  assert (Hk : slotsKept (serverList st)
                 (setEntry (indexNumber id) (Some (set_status CRASHED e))
                    (serverList st)))
    by (by eapply slotsKept_setEntry_Some).
  pose proof (current_removal st id e CRASHED _ H Hget ltac:(done) Hk)
    as [[H1 H2 H3 H4] K].
  unfold crashedState. split; [split|]; state_simpl; done.
Qed.

Lemma current_removedState (st : State) (id : ServerId) (e : Entry) :
  deltasCurrent st → getEntry st id = Some e →
  deltasCurrent (removedState id e st).
Proof.
  intros H Hget.
  pose proof (current_removal st id e DOWN _ H Hget ltac:(done)
                (slotsKept_setEntry_None (serverList st) (indexNumber id)))
    as [[H1 H2 H3 H4] K].
  unfold removedState. split; [split|]; state_simpl; done.
Qed.

Lemma ordered_addedState (st : State) (id : ServerId) (locator : string)
    (mask : ServiceMask) (readSpeed : Z) :
  deltasOrdered st → deltasOrdered (addedState id locator mask readSpeed st).
Proof.
  intros [H1 H2 H3 H4]. split.
  - by apply entriesInPlace_added.
  - unfold addedState. state_simpl. apply notDown_insert.
    + case_decide; [apply notDown_resize; [lia|done]|done].
    + intros e [= <-]. by rewrite addedEntry_status.
  - done.
  - unfold addedState, add_server. state_simpl.
    apply removalsFirst_app_up; [done|]. repeat constructor.
    simpl. apply addedEntry_status.
Qed.

Lemma ordered_add (id : ServerId) (locator : string) (mask : ServiceMask)
    (readSpeed : Z) :
  keeps orderedKept (add id locator mask readSpeed).
Proof.
  intros st. unfold exec. rewrite run_add. intros H.
  by apply ordered_addedState.
Qed.

Lemma ordered_generateUniqueId : keeps orderedKept generateUniqueId.
Proof.
  intros st. unfold exec. rewrite run_generateUniqueId.
  intros [H1 H2 H3 H4]. split; state_simpl; [| |done|done].
  - apply entriesInPlace_insert; [|by intros e [= <-]].
    unfold allocList. case_decide; [|done].
    apply entriesInPlace_resize; [lia|done].
  - apply notDown_insert; [|by intros e [= <-]].
    unfold allocList. case_decide; [|done].
    apply notDown_resize; [lia|done].
Qed.

Lemma ordered_pushUpdate : keeps orderedKept pushUpdate.
Proof.
  intros st. unfold exec.
  destruct (decide (server (update st) = [])) as [Hnil|Hrows].
  - rewrite (run_pushUpdate_empty _ Hnil). reflexivity.
  - rewrite (run_pushUpdate _ Hrows). intros [H1 H2 H3 H4].
    split; state_simpl; [done|done| |apply removalsFirst_nil].
    intros b [Hb| ->%list_elem_of_singleton]%elem_of_app; [by apply H3|done].
Qed.

Lemma current_pushUpdate : keeps currentKept pushUpdate.
Proof.
  intros st [H K]. split; [by apply ordered_pushUpdate|].
  unfold exec. destruct (decide (server (update st) = [])) as [Hnil|Hrows].
  - by rewrite (run_pushUpdate_empty _ Hnil).
  - rewrite (run_pushUpdate _ Hrows). state_simpl.
    by intros row p e Hin%elem_of_nil.
Qed.


Lemma ordered_updateEntry (id : ServerId) (f : Entry → Entry) :
  (∀ e, serverId (f e) = serverId e) →
  (∀ e, status e ≠ DOWN → status (f e) ≠ DOWN) →
  keeps orderedKept (updateEntry id f).
Proof.
  intros Hid Hst st. unfold exec.
  destruct (getEntry st id) as [e|] eqn:Hget.
  - rewrite (run_updateEntry _ _ _ e Hget). cbn [snd]. intros H.
    apply ordered_slots; [|exact H].
    eapply slotsKept_setEntry_Some; [exact Hget| |apply Hst].
    rewrite Hid. by eapply findEntry_serverId.
  - unfold updateEntry. rewrite run_bind, (run_getReference_None _ _ Hget).
    reflexivity.
Qed.

Lemma current_updateEntry (id : ServerId) (f : Entry → Entry) :
  (∀ e, serverId (f e) = serverId e) →
  (∀ e, status e ≠ DOWN → status (f e) ≠ DOWN) →
  keeps currentKept (updateEntry id f).
Proof.
  intros Hid Hst st. unfold exec.
  destruct (getEntry st id) as [e|] eqn:Hget.
  - rewrite (run_updateEntry _ _ _ e Hget). cbn [snd]. intros H.
    apply current_slots; [|exact H].
    eapply slotsKept_setEntry_Some; [exact Hget| |apply Hst].
    rewrite Hid. by eapply findEntry_serverId.
  - unfold updateEntry. rewrite run_bind, (run_getReference_None _ _ Hget).
    reflexivity.
Qed.

Lemma current_crashed (id : ServerId) : keeps currentKept (crashed id).
Proof.
  intros st. unfold exec.
  destruct (getEntry st id) as [e|] eqn:Hget.
  - destruct (status e) eqn:Hst.
    + rewrite (run_crashed _ _ e Hget Hst). intros H.
      by apply current_crashedState.
    + rewrite (run_crashed_CRASHED _ _ e Hget Hst). reflexivity.
    + rewrite (run_crashed_DOWN _ _ e Hget Hst). reflexivity.
  - rewrite (run_crashed_None _ _ Hget). reflexivity.
Qed.

Lemma current_remove (id : ServerId) : keeps currentKept (remove id).
Proof.
  intros st. unfold exec.
  destruct (getEntry st id) as [e|] eqn:Hget.
  - destruct (status e) eqn:Hst.
    + rewrite (run_remove_UP _ _ e Hget Hst). intros H.
      apply current_removedState; [by apply current_crashedState|].
      by apply getEntry_crashedState.
    + rewrite (run_remove_CRASHED _ _ e Hget Hst). intros H.
      by apply current_removedState.
    + unfold remove. rewrite run_bind, (run_getReference _ _ e Hget).
      rewrite run_bind, (run_crashed_DOWN _ _ e Hget Hst). reflexivity.
  - rewrite (run_remove_None _ _ Hget). reflexivity.
Qed.

Lemma current_removeReplicationGroup (g : Z) :
  keeps currentKept (removeReplicationGroup g).
Proof.
  intros st H. eapply current_groupStep; [|exact H].
  apply (groupStep_removeReplicationGroup g st (do_inPlace _ (proj1 H))).
Qed.

Lemma current_createReplicationGroup : keeps currentKept createReplicationGroup.
Proof.
  intros st H. eapply current_groupStep; [|exact H].
  apply (groupStep_createReplicationGroup st (do_inPlace _ (proj1 H))).
Qed.

Lemma ordered_createReplicationGroup : keeps orderedKept createReplicationGroup.
Proof.
  intros st H. eapply ordered_groupStep; [|exact H].
  apply (groupStep_createReplicationGroup st (do_inPlace _ H)).
Qed.

(** *** Methods under which this persists *)

Lemma rows_getReference (id : ServerId) :
  keeps sameRows (getReferenceFromServerId id).
Proof. apply frame_getReference, _. Qed.

Lemma rows_appendProtoBuf (r : LogRecord) (invalidates : list Z) :
  keeps sameRows (appendProtoBuf r invalidates).
Proof. apply frame_appendProtoBuf; by intros. Qed.

Lemma rows_invalidate (invalidates : list Z) :
  keeps sameRows (invalidate invalidates).
Proof. apply frame_invalidate; first [apply _ | by intros]. Qed.

Lemma rows_readLog (id : Z) : keeps sameRows (readLog id).
Proof. apply frame_readLog, _. Qed.

Lemma rows_startMasterRecovery (e : Entry) :
  keeps sameRows (startMasterRecovery e).
Proof. by intros st. Qed.

Lemma ordered_of_sameRows {A} (m : M A) :
  keeps sameRows m → keeps orderedKept m.
Proof. apply keeps_mono, ordered_sameRows. Qed.

Lemma current_of_sameRows {A} (m : M A) :
  keeps sameRows m → keeps currentKept m.
Proof. apply keeps_mono, current_sameRows. Qed.

Create HintDb held.

#[local] Hint Resolve rows_getReference rows_appendProtoBuf rows_invalidate
  rows_readLog rows_startMasterRecovery ordered_of_sameRows
  current_of_sameRows ordered_add ordered_generateUniqueId ordered_pushUpdate
  current_pushUpdate current_crashed current_remove
  current_removeReplicationGroup current_createReplicationGroup
  ordered_createReplicationGroup : held.

#[local] Hint Extern 1 (keeps orderedKept (updateEntry _ _)) =>
  apply ordered_updateEntry; [by intros | by intros] : held.

#[local] Hint Extern 1 (keeps currentKept (updateEntry _ _)) =>
  apply current_updateEntry; [by intros | by intros] : held.

Ltac held_step :=
  match goal with
  | |- keeps ?R (mret _) => apply (keeps_ret R)
  | |- keeps ?R (throw _) => apply (keeps_throw R)
  | |- keeps ?R getState => apply (keeps_getState R)
  | |- keeps ?R (when _ _) => apply (keeps_when R)
  | |- keeps ?R (tryCatch _ _) => apply (keeps_tryCatch R)
  | |- keeps ?R (_ ≫= _) => apply (keeps_bind R)
  | |- keeps _ (match ?x with _ => _ end) => destruct x
  | |- ∀ _, _ => intro
  | |- keeps _ _ => solve [auto with held]
  end.

Ltac held := repeat held_step.








(** *** The methods that add a server run to their end *)





(** *** Every public call *)




(** ** Claims *)

(** C10.  [crashed] is idempotent: called for a server whose entry is
    already CRASHED it returns and leaves the whole object as it was (the
    status, both counters, the pending update and the changes queued for
    the trackers included).  Hence once a call of [crashed] has marked a
    server that was up, which adds one CRASHED row to the pending update,
    a second call for the same server returns without changing
    anything. *)
Theorem crashed_idempotent (st : State) (id : ServerId) (e : Entry) :
  getEntry st id = Some e →
  (status e = CRASHED → crashed id st = (Returns tt, st))
  ∧ (status e = UP →
     let st1 := exec (crashed id) st in
     outcome (crashed id) st = Returns tt
     ∧ server (update st1)
       = server (update st) ++ [Entry_serialize (set_status CRASHED e)]
     ∧ crashed id st1 = (Returns tt, st1)).
Proof.
  intros Hget. split; intros Hst.
  - by apply run_crashed_CRASHED with e.
  - unfold exec, outcome. rewrite (run_crashed _ _ e Hget Hst). simpl.
    split; [done|]. split; [done|].
    eapply run_crashed_CRASHED; [by apply getEntry_crashedState|done].
Qed.

(** C8.  For a server present in the list, [setMasterRecoveryInfo]
    returns and changes the list in one slot only, where the entry
    differs from the old one in [masterRecoveryInfo] and
    [serverUpdateLogId] (the id the durable log assigned to the new
    record) and in nothing else.  The version, the pending update, the
    published updates, both counters, and every other part of the object
    except the durable log are as before. *)
Theorem setMasterRecoveryInfo_frame (st : State) (id : ServerId)
    (info : MasterRecoveryInfo) (e : Entry) :
  getEntry st id = Some e →
  let st' := exec (setMasterRecoveryInfo id info) st in
  outcome (setMasterRecoveryInfo id info) st = Returns tt
  ∧ serverList st'
    = setEntry (indexNumber id)
        (Some (set_masterRecoveryInfo info
                 (set_serverUpdateLogId (expectedEntryId (logCabin st)) e)))
        (serverList st)
  ∧ version st' = version st
  ∧ update st' = update st
  ∧ updates st' = updates st
  ∧ numberOfMasters st' = numberOfMasters st
  ∧ numberOfBackups st' = numberOfBackups st
  ∧ nextReplicationId st' = nextReplicationId st
  ∧ minConfirmedVersion st' = minConfirmedVersion st
  ∧ numUpdatingServers st' = numUpdatingServers st
  ∧ lastScan st' = lastScan st
  ∧ trackerChanges st' = trackerChanges st
  ∧ recoveryCalls st' = recoveryCalls st.
Proof.
  intros Hget st'.
  assert (Hid : serverId e = id) by (by eapply findEntry_serverId).
  assert (Hrun : setMasterRecoveryInfo id info st
    = (Returns tt,
       set_serverList
         (setEntry (indexNumber id)
            (Some (set_masterRecoveryInfo info
                     (set_serverUpdateLogId (expectedEntryId (logCabin st))
                        e)))
            (serverList st))
         (exec (appendProtoBuf
                  (if serverUpdateLogId e =? 0
                   then ServerUpdate "ServerUpdate" (Some id) info
                   else
                     match
                       (λ r : nat * (Z * LogRecord), r.2.2) <$>
                       list_find (λ p : Z * LogRecord, p.1 = serverUpdateLogId e)
                         (logEntries (logCabin st))
                     with
                     | Some (ServerUpdate t i _) => ServerUpdate t i info
                     | _ => ServerUpdate "" None info
                     end)
                  (if serverUpdateLogId e =? 0 then []
                   else [serverUpdateLogId e])) st))).
  { unfold setMasterRecoveryInfo, SetMasterRecoveryInfo_execute,
      SetMasterRecoveryInfo_complete, readLog, appendProtoBuf.
    unfold_methods. unfold_monad. unfold getEntry in Hget.
    destruct st; simpl in *. rewrite Hget. simpl.
    set (e1 := set_masterRecoveryInfo info e).
    assert (H1 : findEntry (setEntry (indexNumber id) (Some e1) serverList0) id
                 = Some e1) by (by apply findEntry_setEntry with e).
    rewrite H1. simpl.
    destruct (serverUpdateLogId e =? 0); simpl; rewrite H1; simpl.
    all: set (e2 := set_serverUpdateLogId (expectedEntryId logCabin0) e1).
    all: assert (H2 : findEntry
                       (setEntry (indexNumber id) (Some e2)
                          (setEntry (indexNumber id) (Some e1) serverList0)) id
                     = Some e2)
           by (apply findEntry_setEntry with e1; [exact H1|exact Hid]).
    all: rewrite H2; simpl.
    all: rewrite !setEntry_setEntry; reflexivity. }
  unfold st', exec, outcome. rewrite Hrun. simpl. repeat split; reflexivity.
Qed.

Lemma crashed_idempotent_witness :
  status <$> getEntry crashedMaster (mkServerId 1 0) = Some CRASHED
  ∧ crashed (mkServerId 1 0) crashedMaster = (Returns tt, crashedMaster).
Proof.
  split; [reflexivity|].
  refine (proj1 (crashed_idempotent crashedMaster (mkServerId 1 0) _ _) _);
    [vm_compute; reflexivity | reflexivity].
Defined.

Lemma setMasterRecoveryInfo_frame_witness :
  is_Some (getEntry crashedMaster (mkServerId 1 0))
  ∧ version (exec (setMasterRecoveryInfo (mkServerId 1 0) [Byte.x01])
               crashedMaster)
    = version crashedMaster.
Proof.
  split; [vm_compute; by eexists|].
  pose proof (setMasterRecoveryInfo_frame crashedMaster (mkServerId 1 0)
                [Byte.x01]) as H.
  destruct (getEntry crashedMaster (mkServerId 1 0)) as [e|] eqn:He.
  - exact (proj1 (proj2 (proj2 (H e eq_refl)))).
  - vm_compute in He. discriminate He.
Defined.

(** C4.  [serialize] tests the MASTER and BACKUP services only.  In the
    cluster [crashedMaster] both servers offer the MEMBERSHIP service; a
    serialization asked for the mask {MEMBERSHIP} emits neither of them,
    although each has a service included in the mask. *)
Theorem serialize_omits_membership_servers :
  Forall (λ p, ∀ e, entry p = Some e →
                 has (services e) MEMBERSHIP_SERVICE = true)
    (serverList crashedMaster)
  ∧ has (maskOf [MEMBERSHIP_SERVICE]) MEMBERSHIP_SERVICE = true
  ∧ serialize crashedMaster ServerList_empty (maskOf [MEMBERSHIP_SERVICE])
    = {| server := []; version_number := 3; type := FULL_LIST |}.
Proof.
  split; [|split; vm_compute; reflexivity].
  vm_compute. repeat constructor; intros e [= <-]; reflexivity.
Qed.

(** C3, as stated, fails: for the full-list update in flight to the
    membership server of [updateInFlight], a completion with "server not
    up" leaves [verifiedVersion] where it was and rolls [updateVersion]
    back, whereas [workSuccess] would have advanced [verifiedVersion] to
    the version sent. *)
Lemma ServerNotUp_is_not_workSuccess :
  let id := mkServerId 2 0 in
  let rpc := {| targetServerId := id; isReady := true; reply := ServerNotUp |} in
  let st := exec (compactRpcs [Some rpc] []) updateInFlight in
  verifiedVersion <$> getEntry (exec (workSuccess id) updateInFlight) id
  = Some 3
  ∧ verifiedVersion <$> getEntry st id = Some UNINITIALIZED_VERSION
  ∧ updateVersion <$> getEntry st id = Some UNINITIALIZED_VERSION
  ∧ st ≠ exec (workSuccess id) updateInFlight.
Proof.
  repeat split; try (vm_compute; reflexivity).
  intros H.
  apply (f_equal (λ s, verifiedVersion <$> getEntry s (mkServerId 2 0))) in H.
  vm_compute in H. discriminate H.
Qed.

Lemma outcome_workSuccess (id : ServerId) (st : State) :
  outcome (workSuccess id) st = Returns tt.
Proof.
  unfold outcome, workSuccess, releaseUpdatingServer.
  rewrite run_modify, run_getState.
  set (st1 := if 0 <? numUpdatingServers st then _ else _).
  destruct (getEntry st1 id) as [e|] eqn:Hget; [|reflexivity].
  destruct (verifiedVersion e =? updateVersion e).
  - rewrite run_ret. by destruct (verifiedVersion e <? version st1).
  - rewrite run_bind, (run_updateEntry _ _ _ e Hget).
    by destruct (updateVersion e <? version st1).
Qed.

Lemma outcome_workFailed (id : ServerId) (st : State) :
  outcome (workFailed id) st = Returns tt.
Proof.
  unfold outcome, workFailed, releaseUpdatingServer.
  rewrite run_modify, run_getState.
  set (st1 := if 0 <? numUpdatingServers st then _ else _).
  destruct (getEntry st1 id) as [e|] eqn:Hget; [|reflexivity].
  by rewrite run_bind, (run_updateEntry _ _ _ e Hget).
Qed.

(** C3, amended.  A pass of the first phase of [updateLoop] performs, for
    the finished RPCs it meets and in their order, [workSuccess] for a
    target that acknowledged and [workFailed] for a target that was no
    longer up: a completion with "server not up" is a failure for the
    bookkeeping. *)
Theorem compactRpcs_callbacks
    (todo freed : list (option UpdateServerListRpc)) (st : State) :
  exec (compactRpcs todo freed) st
  = foldl (λ s rpc, exec (callbackFor rpc) s) st (finishedRpcs todo).
Proof.
  revert freed st. induction todo as [|[rpc|] rest IH]; intros freed st.
  - reflexivity.
  - simpl. destruct (isReady rpc) eqn:Hready.
    + rewrite exec_bind. simpl.
      assert (Hret : retire rpc = callbackFor rpc)
        by (unfold retire, callbackFor; by destruct (reply rpc)).
      assert (Hok : outcome (retire rpc) st = Returns tt).
      { unfold retire.
        destruct (reply rpc);
          [apply outcome_workSuccess | apply outcome_workFailed]. }
      rewrite Hok, IH. by rewrite Hret.
    + rewrite exec_bind.
      destruct (outcome (compactRpcs rest freed) st) eqn:Hout; apply IH.
  - reflexivity.
Qed.

(** C1.  The version is a 64-bit counter that only [pushUpdate] writes.
    With a non-empty pending update and a version below 2^64 - 1,
    [pushUpdate] adds exactly one to the version, appends to the update
    buffer one batch stamped with the new version and holding the pending
    rows, and clears the pending update; with an empty pending update it
    changes nothing.  Hence any sequence of public calls appends batches
    to the buffer, each stamped with the successor (on 64 bits) of the
    stamp before it, the first with the successor of the version at the
    start, and leaves the version at the last stamp; as long as the
    counter does not wrap, the stamps are [version + 1], [version + 2],
    ... without gaps. *)
Theorem pushUpdate_version_monotonic (st : State) (calls : list Call) :
  0 ≤ version st →
  (server (update st) ≠ [] → version st < 2 ^ 64 - 1 →
   version (exec pushUpdate st) = version st + 1
   ∧ updates (exec pushUpdate st)
     = updates st ++
       [{| batchVersion := version st + 1;
           incremental := {| server := server (update st);
                             version_number := version st + 1;
                             type := UPDATE |};
           full := None |}]
   ∧ update (exec pushUpdate st) = ServerList_empty)
  ∧ (server (update st) = [] → pushUpdate st = (Returns tt, st))
  ∧ published st (run calls st)
  ∧ (∀ new, updates (run calls st) = updates st ++ new →
       version st + Z.of_nat (length new) < 2 ^ 64 →
       version (run calls st) = version st + Z.of_nat (length new)
       ∧ batchVersion <$> new
         = (λ k, version st + 1 + Z.of_nat k) <$> seq 0 (length new)).
Proof.
  intros Hv. split; [|split; [|split]].
  - intros Hne Hlt. unfold exec. rewrite (run_pushUpdate _ Hne). simpl.
    unfold u64. rewrite Z.mod_small by lia. done.
  - apply run_pushUpdate_empty.
  - apply published_run.
  - intros new Hnew Hlt.
    destruct (published_run calls st) as (new' & Hu & Hver & Hs).
    rewrite Hnew in Hu. apply app_inv_head in Hu as <-.
    rewrite Hver, Hs. split; [by apply bump_no_wrap|].
    apply list_fmap_ext. intros i k Hk.
    apply lookup_seq in Hk as [-> Hk].
    rewrite bump_no_wrap; lia.
Qed.

Lemma pushUpdate_version_monotonic_witness :
  0 ≤ version (initialState emptyLog)
  ∧ published (initialState emptyLog)
      (run [CallEnlistServer noServer (maskOf [BACKUP_SERVICE]) 100 "b1";
            CallServerDown (mkServerId 1 0)]
         (initialState emptyLog)).
Proof.
  assert (H : 0 ≤ version (initialState emptyLog))
    by (vm_compute; discriminate).
  split; [exact H|].
  exact (proj1 (proj2 (proj2
    (pushUpdate_version_monotonic (initialState emptyLog) _ H)))).
Defined.

(** C6.  In a list whose entries sit in the slots their ids name,
    [removeReplicationGroup g] for [g ≠ 0] returns; afterwards every
    entry that was a backup, up, with replication id [g] has replication
    id 0 and is otherwise unchanged, every other slot is unchanged, each
    reset entry has a row in the pending update (the rows appended are
    exactly rows of reset entries, repetitions included), and nothing
    else in the object changes.  [removeReplicationGroup 0] changes
    nothing. *)
Theorem removeReplicationGroup_resets (st : State) (g : Z) :
  entriesInPlace (serverList st) →
  removeReplicationGroup 0 st = (Returns tt, st)
  ∧ (g ≠ 0 →
     ∃ rows,
       removeReplicationGroup g st
       = (Returns tt,
          set_update
            {| server := server (update st) ++ rows;
               version_number := version_number (update st);
               type := type (update st) |}
            (set_serverList (resetSlot g <$> serverList st) st))
       ∧ (∀ row,
            row ∈ rows ↔
            ∃ i p e, serverList st !! i = Some p ∧ entry p = Some e
                     ∧ isBackup e = true ∧ replicationId e = g
                     ∧ row = Entry_serialize (set_replicationId 0 e))
       ∧ (∀ id e,
            getEntry st id = Some e →
            getEntry (exec (removeReplicationGroup g) st) id
            = Some (if isBackup e && (replicationId e =? g)
                    then set_replicationId 0 e else e))).
Proof.
  intros Hl. split; [reflexivity|]. intros Hg.
  exists (resetRows g (serverList st) [] (serverList st)).
  pose proof (run_removeReplicationGroup g st Hl Hg) as Hrun.
  split; [exact Hrun|]. split.
  - intros row. split.
    + intros (id & e & Hin & He & ->)%resetRows_members. simpl in Hin.
      apply elem_of_members in Hin as (i & p & e' & Hp & He' & Hg' & Hid).
      assert (e' = e) as ->.
      { apply findEntry_Some in He as (p' & Hp' & He'' & Hid').
        rewrite <- Hid, (Hl i p e' Hp He') in Hp'. congruence. }
      exists i, p, e. unfold inGroup in Hg'.
      apply andb_true_iff in Hg' as [Hb Hr]. apply Z.eqb_eq in Hr. done.
    + intros (i & p & e & Hp & He & Hb & Hr & ->).
      apply members_resetRows with (serverId e).
      * intros Hnil. by rewrite Hnil in Hp.
      * apply elem_of_members. exists i, p, e. unfold inGroup.
        rewrite Hb, Hr, Z.eqb_refl. done.
      * apply findEntry_Some. exists p. by rewrite (Hl i p e Hp He).
  - intros id e Hget. unfold exec. rewrite Hrun. cbn [snd].
    unfold getEntry in *. state_simpl.
    rewrite <- (updateRepl_members g _ Hl), findEntry_updateRepl, Hget.
    simpl. f_equal. unfold choose.
    apply findEntry_Some in Hget as (p & Hp & He & Hid).
    fold (inGroup g e). destruct (inGroup g e) eqn:Hin.
    + rewrite decide_True; [done|].
      apply elem_of_members. by exists (indexNumber id), p, e.
    + rewrite decide_False; [done|].
      intros (i & p' & e' & Hp' & He' & Hg' & Hid')%elem_of_members.
      assert (i = indexNumber id) as ->
        by (by rewrite <- (Hl i p' e' Hp' He'), Hid').
      congruence.
Qed.

(** C5.  In a list whose entries sit in the slots their ids name, the
    candidates of [createReplicationGroup] are exactly the servers that
    offer the BACKUP service, are up and have replication id 0, scanned in
    slot order.  With [stack] the candidates in reverse scan order and
    [k] a third of their number (rounded down), the method returns, the
    candidate at position [pos < 3 k] of [stack] gets the replication id
    reached from [nextReplicationId] by [pos / 3] increments (the three
    of the j-th group share the j-th id), every other entry is unchanged,
    each assignment appends its row to the pending update, and
    [nextReplicationId] has been incremented [k] times.  After three
    backup-only servers have enlisted one after the other, all three have
    replication id 1. *)
Theorem createReplicationGroup_forms_groups (st : State) :
  entriesInPlace (serverList st) →
  let stack := reverse (freeBackups (serverList st)) in
  let k := (length stack / 3)%nat in
  let st' := exec createReplicationGroup st in
  (∀ id, id ∈ freeBackups (serverList st) ↔
         ∃ e, getEntry st id = Some e
              ∧ has (services e) BACKUP_SERVICE = true
              ∧ status e = UP ∧ replicationId e = 0)
  ∧ (∀ i j a b, freeBackups (serverList st) !! i = Some a →
                freeBackups (serverList st) !! j = Some b → (i < j)%nat →
                (indexNumber a < indexNumber b)%nat)
  ∧ outcome createReplicationGroup st = Returns tt
  ∧ nextReplicationId st' = bump k (nextReplicationId st)
  ∧ (∀ pos id, stack !! pos = Some id → (pos < 3 * k)%nat →
       ∃ e, getEntry st id = Some e
            ∧ getEntry st' id
              = Some (set_replicationId
                        (bump (pos / 3) (nextReplicationId st)) e))
  ∧ (∀ id e, getEntry st id = Some e → id ∉ take (3 * k) stack →
       getEntry st' id = Some e)
  ∧ server (update st')
    = server (update st)
      ++ groupRows (nextReplicationId st) stack (serverList st)
  ∧ (replicationId <$> getEntry threeBackups (mkServerId 1 0) = Some 1
     ∧ replicationId <$> getEntry threeBackups (mkServerId 2 0) = Some 1
     ∧ replicationId <$> getEntry threeBackups (mkServerId 3 0) = Some 1
     ∧ nextReplicationId threeBackups = 2).
Proof.
  intros Hl stack k st'.
  pose proof (run_createReplicationGroup st Hl) as Hrun.
  fold stack in Hrun. cbv zeta in Hrun.
  assert (Hnd : NoDup stack).
  { unfold stack. rewrite reverse_Permutation. by apply NoDup_freeBackups. }
  split; [|split; [|split; [|split; [|split; [|split; [|split]]]]]].
  - intros id. rewrite elem_of_freeBackups. split.
    + intros (i & p & e & Hp & He & Hfree & Hid). exists e.
      unfold isFree, isBackup in Hfree.
      apply andb_true_iff in Hfree as [Hb Hr].
      apply andb_true_iff in Hb as [Hs Hb]. apply Z.eqb_eq in Hr.
      split; [|by destruct (status e)].
      apply findEntry_Some. exists p. by rewrite <- Hid, (Hl i p e Hp He).
    + intros (e & Hget & Hb & Hs & Hr).
      apply findEntry_Some in Hget as (p & Hp & He & Hid).
      exists (indexNumber id), p, e. unfold isFree, isBackup.
      by rewrite Hb, Hs, Hr.
  - intros i j a b. by apply freeBackups_in_slot_order.
  - unfold outcome. by rewrite Hrun.
  - unfold st', exec. rewrite Hrun. state_simpl. apply groupNext_bump.
  - intros pos id Hpos Hlt.
    assert (Hin : id ∈ freeBackups (serverList st)).
    { apply elem_of_reverse. by eapply list_elem_of_lookup_2. }
    destruct (freeBackups_presentAndUp _ _ Hl Hin) as (e & Hget & _).
    exists e. split; [done|].
    unfold st', exec, getEntry. rewrite Hrun. state_simpl.
    rewrite findEntry_updateRepl, Hget. simpl.
    by rewrite (groupChoice_position _ _ pos id Hnd Hpos Hlt).
  - intros id e Hget Hout.
    unfold st', exec, getEntry in *. rewrite Hrun. state_simpl.
    rewrite findEntry_updateRepl, Hget. simpl.
    by rewrite (groupChoice_outside _ _ _ Hout).
  - unfold st', exec. rewrite Hrun. by state_simpl.
  - vm_compute. done.
Qed.

Lemma removeReplicationGroup_resets_witness :
  entriesInPlace (serverList threeBackups)
  ∧ 1 ≠ 0
  ∧ replicationId <$>
      getEntry (exec (removeReplicationGroup 1) threeBackups) (mkServerId 2 0)
    = Some 0.
Proof.
  assert (H : entriesInPlace (serverList threeBackups))
    by (apply entriesInPlace_check; vm_compute; reflexivity).
  assert (H1 : 1 ≠ 0) by discriminate.
  split; [exact H|]. split; [exact H1|].
  destruct (proj2 (removeReplicationGroup_resets threeBackups 1 H) H1)
    as (rows & _ & _ & Hget).
  destruct (getEntry threeBackups (mkServerId 2 0)) as [e|] eqn:He.
  - rewrite (Hget _ e He). vm_compute in He. injection He as <-.
    vm_compute. reflexivity.
  - vm_compute in He. discriminate He.
Defined.

Lemma createReplicationGroup_forms_groups_witness :
  entriesInPlace (serverList ungrouped)
  ∧ nextReplicationId (exec createReplicationGroup ungrouped)
    = bump (length (reverse (freeBackups (serverList ungrouped))) / 3)
        (nextReplicationId ungrouped).
Proof.
  assert (H : entriesInPlace (serverList ungrouped))
    by (apply entriesInPlace_check; vm_compute; reflexivity).
  split; [exact H|].
  exact (proj1 (proj2 (proj2 (proj2
    (createReplicationGroup_forms_groups ungrouped H))))).
Defined.






(** ** Further properties of the list *)

Lemma findEntry_insert_other (l : list Slot) (i : nat) (q : Slot)
    (id : ServerId) :
  indexNumber id ≠ i → findEntry (<[i := q]> l) id = findEntry l id.
Proof.
  intros Hne. unfold findEntry. by rewrite list_lookup_insert_ne.
Qed.


(** X1.  [generateUniqueId] never hands out the reserved index 0; it takes
    the lowest free index from 1 on, growing the list when every slot from
    1 on is occupied.  The id it returns was not in the list, is in the
    list afterwards with a placeholder entry, and no other id is gained or
    lost. *)
Theorem generateUniqueId_fresh (st : State) :
  ∃ id,
    outcome generateUniqueId st = Returns id
    ∧ (1 ≤ indexNumber id)%nat
    ∧ (∀ j p, (1 ≤ j < indexNumber id)%nat → serverList st !! j = Some p →
         is_Some (entry p))
    ∧ getEntry st id = None
    ∧ getEntry (exec generateUniqueId st) id = Some (newEntry id "" 0)
    ∧ (∀ id', id' ≠ id →
         getEntry (exec generateUniqueId st) id' = getEntry st id')
    ∧ length (serverList (exec generateUniqueId st))
      = (length (serverList st) `max` S (indexNumber id))%nat.
Proof.
  exists (allocId (serverList st)).
  unfold outcome, exec, getEntry. rewrite run_generateUniqueId. state_simpl.
  destruct (lookup_allocList (serverList st)) as [Hslot Hfree].
  pose proof (lookup_lt_Some _ _ _ Hslot) as Hlt.
  split; [done|]. split; [apply allocIndex_range|].
  split; [apply allocIndex_lowest|].
  split; [apply findEntry_allocId|]. split; [|split].
  - apply findEntry_Some. eexists.
    split; [by apply list_lookup_insert_eq|]. done.
  - intros id' Hne. rewrite <- (findEntry_allocList (serverList st)).
    destruct (decide (indexNumber id' = allocIndex (serverList st)))
      as [Heq|Hidx].
    + unfold findEntry. rewrite Heq, list_lookup_insert_eq by done.
      rewrite Hslot, Hfree. simpl.
      by rewrite (proj2 (ServerId_eqb_neq _ id')).
    + by apply findEntry_insert_other.
  - by rewrite length_insert, length_allocList.
Qed.


Lemma fmap_setEntry (l : list Slot) (i : nat) (oe : option Entry) :
  nextGenerationNumber <$> setEntry i oe l = nextGenerationNumber <$> l.
Proof.
  apply list_eq. intros j. rewrite !list_lookup_fmap.
  destruct (decide (j = i)) as [->|Hne].
  - destruct (l !! i) as [p|] eqn:Hp.
    + by rewrite (lookup_setEntry_eq _ _ _ _ Hp).
    + unfold setEntry. by rewrite list_lookup_alter_eq, Hp.
  - by rewrite lookup_setEntry_ne.
Qed.

(** X3.  [remove] of a server that is in the list, up or crashed: the
    call returns and the id is no longer found, while every other id is
    found as before and every slot keeps its generation counter.  The
    pending update receives the DOWN row of the server, preceded by its
    CRASHED row when the server was still up. *)
Theorem remove_then_lookup (st : State) (id : ServerId) (e : Entry) :
  getEntry st id = Some e → status e ≠ DOWN →
  let st' := exec (remove id) st in
  outcome (remove id) st = Returns tt
  ∧ getEntry st' id = None
  ∧ (∀ id', id' ≠ id → getEntry st' id' = getEntry st id')
  ∧ nextGenerationNumber <$> serverList st'
    = nextGenerationNumber <$> serverList st
  ∧ server (update st')
    = server (update st)
      ++ (if ServerStatus_eqb (status e) UP
          then [Entry_serialize (set_status CRASHED e)] else [])
      ++ [Entry_serialize (set_status DOWN e)].
Proof.
  intros Hget Hst st'.
  assert (Hother : ∀ l id', id' ≠ id →
    findEntry l id = Some e ∨ findEntry l id = Some (set_status CRASHED e) →
    findEntry (setEntry (indexNumber id) None l) id' = findEntry l id').
  { intros l id' Hne Hin.
    destruct (decide (indexNumber id' = indexNumber id)) as [Heq|Hidx].
    - destruct Hin as [Hin|Hin];
        rewrite (findEntry_same_slot _ _ _ _ Hin Heq Hne);
        unfold findEntry; rewrite Heq;
        apply findEntry_Some in Hin as (p & Hp & _);
        by rewrite (lookup_setEntry_eq _ _ _ _ Hp).
    - by apply findEntry_setEntry_other. }
  unfold st', outcome, exec, getEntry in *.
  destruct (status e) eqn:Hs; [| |done].
  - rewrite (run_remove_UP _ _ e Hget Hs).
    unfold removedState, crashedState. state_simpl.
    split; [done|]. split; [apply findEntry_setEntry_None|]. split; [|split].
    + intros id' Hne. rewrite Hother; [|done|].
      * destruct (decide (indexNumber id' = indexNumber id)) as [Heq|Hidx].
        -- rewrite (findEntry_same_slot _ _ _ _ Hget Heq Hne).
           eapply findEntry_same_slot; [|done|done].
           eapply findEntry_setEntry; [exact Hget|].
           simpl. by eapply findEntry_serverId.
        -- by apply findEntry_setEntry_other.
      * right. eapply findEntry_setEntry; [exact Hget|].
        simpl. by eapply findEntry_serverId.
    + by rewrite !fmap_setEntry.
    + by rewrite <- app_assoc.
  - rewrite (run_remove_CRASHED _ _ e Hget Hs).
    unfold removedState. state_simpl.
    split; [done|]. split; [apply findEntry_setEntry_None|]. split; [|split].
    + intros id' Hne. apply Hother; auto.
    + by rewrite fmap_setEntry.
    + done.
Qed.

(** X4.  An id that is not in the list: [crashed], [remove],
    [removeAfterRecovery], [setMasterRecoveryInfo] and the replay of a
    logged ServerDown ([recoverServerDown]) throw ServerListException for
    that id and leave the object exactly as it was; in particular nothing
    is written to the log and nothing is published. *)
Theorem missing_id_changes_nothing (st : State) (id : ServerId)
    (info : MasterRecoveryInfo) (entryId : Z) :
  getEntry st id = None →
  crashed id st = (Throws (ServerListException id), st)
  ∧ remove id st = (Throws (ServerListException id), st)
  ∧ removeAfterRecovery id st = (Throws (ServerListException id), st)
  ∧ setMasterRecoveryInfo id info st = (Throws (ServerListException id), st)
  ∧ recoverServerDown id entryId st = (Throws (ServerListException id), st).
Proof.
  intros Hget.
  split; [by apply run_crashed_None|]. split; [by apply run_remove_None|].
  split; [|split].
  - unfold removeAfterRecovery. by rewrite run_bind, run_remove_None.
  - unfold setMasterRecoveryInfo, updateEntry.
    by rewrite !run_bind, (run_getReference_None _ _ Hget).
  - unfold recoverServerDown, ServerDown_complete, getServerInfoLogId.
    by rewrite !run_bind, (run_getReference_None _ _ Hget).
Qed.

(** X5.  [serverDown] for an id that is not in the list throws
    ServerListException, but only after [ServerDown::execute] has appended
    its record to the log: the object is left as that append alone leaves
    it, so the list, the counters and the updates are unchanged while the
    log keeps a ServerDown record that is never invalidated. *)
Theorem serverDown_missing_id_logs (st : State) (id : ServerId) :
  getEntry st id = None →
  outcome (serverDown id) st = Throws (ServerListException id)
  ∧ exec (serverDown id) st
    = exec (appendProtoBuf (ServerDownRecord "ServerDown" id) []) st
  ∧ logEntries (logCabin (exec (serverDown id) st))
    = logEntries (logCabin st)
      ++ [(expectedEntryId (logCabin st), ServerDownRecord "ServerDown" id)]
  ∧ invalidatedIds (logCabin (exec (serverDown id) st))
    = invalidatedIds (logCabin st).
Proof.
  intros Hget.
  assert (Hrun : serverDown id st
    = (Throws (ServerListException id),
       exec (appendProtoBuf (ServerDownRecord "ServerDown" id) []) st)).
  { unfold serverDown, serverDown_locked, ServerDown_execute.
    rewrite !run_bind, run_appendProtoBuf.
    unfold ServerDown_complete, getServerInfoLogId.
    rewrite !run_bind, run_getReference_None; [done|exact Hget]. }
  unfold outcome, exec at 1 3 4. rewrite Hrun. simpl.
  split; [done|]. split; [done|]. split; [done|]. by rewrite app_nil_r.
Qed.

(** X6.  [pushUpdate] moves rows, it never drops or reorders them: the
    rows published so far followed by the pending rows are the same list
    before and after, the server list is untouched, and no row is left
    pending.  With nothing pending the call changes nothing at all, so
    the version is not advanced and no empty batch is queued. *)
Theorem pushUpdate_keeps_rows (st : State) :
  outcome pushUpdate st = Returns tt
  ∧ allRows (exec pushUpdate st) = allRows st
  ∧ serverList (exec pushUpdate st) = serverList st
  ∧ server (update (exec pushUpdate st)) = []
  ∧ (server (update st) = [] → exec pushUpdate st = st).
Proof.
  unfold outcome, exec.
  destruct (decide (server (update st) = [])) as [Hnil|Hrows].
  - rewrite (run_pushUpdate_empty _ Hnil). by simpl.
  - rewrite (run_pushUpdate _ Hrows). unfold allRows. state_simpl.
    split; [done|]. split; [|done].
    rewrite fmap_app, concat_app. simpl. by rewrite !app_nil_r.
Qed.

Lemma remove_then_lookup_witness :
  status <$> getEntry threeBackups (mkServerId 2 0) = Some UP
  ∧ getEntry (exec (remove (mkServerId 2 0)) threeBackups) (mkServerId 2 0)
    = None.
Proof.
  split; [vm_compute; reflexivity|].
  destruct (getEntry threeBackups (mkServerId 2 0)) as [e|] eqn:He.
  - refine (proj1 (proj2 (remove_then_lookup threeBackups (mkServerId 2 0) e
                            He _))).
    vm_compute in He. injection He as <-. vm_compute. discriminate.
  - vm_compute in He. discriminate He.
Defined.

Lemma missing_id_changes_nothing_witness :
  getEntry threeBackups (mkServerId 7 0) = None
  ∧ remove (mkServerId 7 0) threeBackups
    = (Throws (ServerListException (mkServerId 7 0)), threeBackups).
Proof.
  split; [vm_compute; reflexivity|].
  refine (proj1 (proj2 (missing_id_changes_nothing threeBackups
                          (mkServerId 7 0) [] 0 _))).
  vm_compute; reflexivity.
Defined.

Lemma serverDown_missing_id_logs_witness :
  getEntry threeBackups (mkServerId 7 0) = None
  ∧ outcome (serverDown (mkServerId 7 0)) threeBackups
    = Throws (ServerListException (mkServerId 7 0)).
Proof.
  split; [vm_compute; reflexivity|].
  refine (proj1 (serverDown_missing_id_logs threeBackups (mkServerId 7 0) _)).
  vm_compute; reflexivity.
Defined.

(** X7.  Along every trace of the calls of normal operation, started on
    the freshly constructed list and short enough for no 32-bit generation
    counter to wrap: every entry sits in the slot its id names; the
    generation counter of an occupied slot is one past the generation of
    its occupant, and no stored entry is DOWN; every row written so far
    names a slot of the list and a generation that slot has already handed
    out; and, among the rows of one slot, every row of an earlier
    generation was written before every row of a later one, so that the
    CRASHED and DOWN rows of a server precede the row that adds its
    successor in the slot. *)
Theorem rows_ordered_by_generation (log : DurableLog) (calls : list Call) :
  Forall normalCall calls →
  Z.of_nat (length calls) < 2 ^ 32 →
  let st := run calls (initialState log) in
  entriesInPlace (serverList st)
  ∧ (∀ i p e, serverList st !! i = Some p → entry p = Some e →
       nextGenerationNumber p = generationNumber (serverId e) + 1
       ∧ status e ≠ DOWN)
  ∧ (∀ row, row ∈ allRows st →
       ∃ p, serverList st !! rowIndex row = Some p
            ∧ rowGeneration row < nextGenerationNumber p)
  ∧ ordered (allRows st).
Proof.
  intros Hall Hfit st.
  destruct (inv_run calls 0 (initialState log) Hall (inv_initialState log))
    as [Hl _ _ He Hr Ho]; [lia|].
  done.
Qed.

Lemma rows_ordered_by_generation_witness :
  ordered
    (allRows
       (run [CallEnlistServer noServer (maskOf [BACKUP_SERVICE]) 100 "b1";
             CallEnlistServer (mkServerId 1 0) (maskOf [MASTER_SERVICE]) 0 "m1";
             CallServerDown (mkServerId 1 1);
             CallRemoveAfterRecovery (mkServerId 1 1)]
          (initialState emptyLog))).
Proof.
  refine (proj2 (proj2 (proj2 (rows_ordered_by_generation emptyLog
    [CallEnlistServer noServer (maskOf [BACKUP_SERVICE]) 100 "b1";
     CallEnlistServer (mkServerId 1 0) (maskOf [MASTER_SERVICE]) 0 "m1";
     CallServerDown (mkServerId 1 1);
     CallRemoveAfterRecovery (mkServerId 1 1)] _ _)))).
  - repeat constructor.
  - vm_compute; reflexivity.
Defined.

(** *** [serverDown] of a server that is in the list *)

(** The rows [crashed] and [remove] write for [ServerDown::complete]. *)
Definition downRows (e : Entry) : list ServerList_Entry :=
  (if ServerStatus_eqb (status e) UP
   then [Entry_serialize (set_status CRASHED e)] else [])
  ++ (if has (services e) MASTER_SERVICE then []
      else [Entry_serialize (set_status DOWN e)]).

(** The object after [crashed], the conditional [remove] and
    [startMasterRecovery], for an entry [e] that is up or crashed. *)
Definition downedState (id : ServerId) (e : Entry) (st : State) : State :=
  let st1 :=
    if ServerStatus_eqb (status e) UP then crashedState id e st else st in
  set_recoveryCalls (recoveryCalls st ++ [e])
    (if has (services e) MASTER_SERVICE then st1 else removedState id e st1).

Lemma run_down_prefix {B} (st : State) (id : ServerId) (e : Entry)
    (k : M B) :
  getEntry st id = Some e → status e ≠ DOWN →
  (crashed id;;
   when (negb (has (services e) MASTER_SERVICE)) (remove id);;
   startMasterRecovery e;; k) st
  = k (downedState id e st).
Proof.
  intros Hget Hst. unfold downedState, startMasterRecovery.
  destruct (status e) eqn:Hs; [| |done]; cbn [ServerStatus_eqb].
  - rewrite run_bind, (run_crashed _ _ e Hget Hs).
    destruct (has (services e) MASTER_SERVICE); cbn [negb when].
    + by rewrite run_ret, run_modify.
    + rewrite run_bind,
        (run_remove_CRASHED _ _ _ (getEntry_crashedState _ _ _ Hget) eq_refl).
      by rewrite run_modify.
  - rewrite run_bind, (run_crashed_CRASHED _ _ e Hget Hs).
    destruct (has (services e) MASTER_SERVICE); cbn [negb when].
    + by rewrite run_ret, run_modify.
    + rewrite run_bind, (run_remove_CRASHED _ _ _ Hget Hs).
      by rewrite run_modify.
Qed.

Lemma downedState_rows (id : ServerId) (e : Entry) (st : State) :
  server (update (downedState id e st)) = server (update st) ++ downRows e
  ∧ updates (downedState id e st) = updates st
  ∧ version (downedState id e st) = version st.
Proof.
  unfold downedState, downRows, removedState, crashedState.
  destruct (ServerStatus_eqb (status e) UP),
    (has (services e) MASTER_SERVICE); state_simpl;
    rewrite <- ?app_assoc, ?app_nil_r; done.
Qed.

Lemma downedState_list (id : ServerId) (e : Entry) (st : State) :
  getEntry st id = Some e → status e ≠ DOWN →
  slotsKept (serverList st) (serverList (downedState id e st))
  ∧ ∀ e', findEntry (serverList (downedState id e st)) id = Some e' →
          status e' = CRASHED.
Proof.
  intros Hget Hst.
  pose proof (findEntry_serverId _ _ _ Hget) as Hid.
  assert (Hc : findEntry
    (setEntry (indexNumber id) (Some (set_status CRASHED e)) (serverList st))
    id = Some (set_status CRASHED e))
    by (by eapply findEntry_setEntry; [exact Hget|]).
  assert (Hk : slotsKept (serverList st)
    (setEntry (indexNumber id) (Some (set_status CRASHED e)) (serverList st)))
    by (by eapply slotsKept_setEntry_Some).
  unfold downedState, removedState, crashedState.
  destruct (status e) eqn:Hs; [| |done]; cbn [ServerStatus_eqb];
    destruct (has (services e) MASTER_SERVICE); state_simpl.
  - split; [done|]. intros e'. rewrite Hc. by intros [= <-].
  - split; [|intros e'; by rewrite findEntry_setEntry_None].
    eapply slotsKept_trans; [exact Hk|apply slotsKept_setEntry_None].
  - split; [apply slotsKept_refl|]. intros e'. unfold getEntry in Hget.
    rewrite Hget. by intros [= <-].
  - split; [apply slotsKept_setEntry_None|].
    intros e'. by rewrite findEntry_setEntry_None.
Qed.

Lemma run_ServerDown_complete (st : State) (id : ServerId) (e : Entry)
    (entryId : Z) :
  entriesInPlace (serverList st) →
  getEntry st id = Some e → status e ≠ DOWN →
  ∃ stG,
    ServerDown_complete id entryId st
    = (Returns tt,
       exec (invalidate
               ([serverInfoLogId e; entryId] ++
                if serverUpdateLogId e =? 0 then [] else [serverUpdateLogId e]))
         stG)
    ∧ groupStep (downedState id e st) stG.
Proof.
  intros Hl Hget Hst.
  set (base := downedState id e st).
  assert (Hbase : entriesInPlace (serverList base)).
  { eapply entriesInPlace_slotsKept; [|exact Hl].
    by apply downedState_list. }
  destruct (groupStep_removeReplicationGroup (replicationId e) base Hbase)
    as [Hout1 Hstep1].
  set (st2 := exec (removeReplicationGroup (replicationId e)) base) in *.
  assert (Hl2 : entriesInPlace (serverList st2))
    by (by eapply entriesInPlace_groupStep).
  destruct (groupStep_createReplicationGroup st2 Hl2) as [Hout2 Hstep2].
  exists (exec createReplicationGroup st2). split.
  - unfold ServerDown_complete.
    rewrite run_bind, (run_getServerInfoLogId _ _ e Hget).
    rewrite run_bind, (run_getServerUpdateLogId _ _ e Hget).
    rewrite run_bind, (run_getReference _ _ e Hget).
    rewrite (run_down_prefix _ _ _ _ Hget Hst). fold base.
    rewrite run_bind, (run_outcome _ _ _ Hout1). fold st2.
    rewrite run_bind, (run_outcome _ _ _ Hout2).
    reflexivity.
  - by eapply groupStep_trans.
Qed.

Lemma run_pushUpdate_any (st : State) :
  ∃ bs,
    pushUpdate st = (Returns tt, exec pushUpdate st)
    ∧ updates (exec pushUpdate st) = updates st ++ bs
    ∧ concat ((λ b, server (incremental b)) <$> bs) = server (update st)
    ∧ server (update (exec pushUpdate st)) = []
    ∧ serverList (exec pushUpdate st) = serverList st.
Proof.
  unfold exec. destruct (decide (server (update st) = [])) as [Hnil|Hrows].
  - exists []. rewrite (run_pushUpdate_empty _ Hnil). simpl.
    by rewrite app_nil_r, Hnil.
  - eexists [_]. rewrite (run_pushUpdate _ Hrows). simpl.
    by rewrite app_nil_r.
Qed.

(** [serverDown(lock, id)] for a server that is in the list: the rows of
    its removal are published, and the id is left crashed or absent, in a
    slot whose generation counter has passed it. *)
Lemma run_serverDown_locked (n : Z) (st : State) (id : ServerId) (e : Entry) :
  inv n st → getEntry st id = Some e →
  ∃ removal bs st1,
    serverDown_locked id st = (Returns tt, st1)
    ∧ inv n st1
    ∧ updates st1 = updates st ++ bs
    ∧ concat ((λ b, server (incremental b)) <$> bs)
      = server (update st) ++ removal
    ∧ server (update st1) = []
    ∧ slotPast (serverList st1) id
    ∧ (∀ e', findEntry (serverList st1) id = Some e' → status e' ≠ UP)
    ∧ (status e = UP → Entry_serialize (set_status CRASHED e) ∈ removal)
    ∧ (has (services e) MASTER_SERVICE = false →
       Entry_serialize (set_status DOWN e) ∈ removal).
Proof.
  intros H Hget.
  assert (Hst : status e ≠ DOWN).
  { pose proof Hget as (p & Hp & He & _)%findEntry_Some.
    by destruct (gen_entry _ _ _ H _ _ _ Hp He). }
  set (rec := ServerDownRecord "ServerDown" id).
  set (s0 := exec (appendProtoBuf rec []) st).
  assert (Hget0 : getEntry s0 id = Some e) by exact Hget.
  assert (Hl0 : entriesInPlace (serverList s0)) by exact (gen_inPlace _ _ _ H).
  destruct (run_ServerDown_complete s0 id e (expectedEntryId (logCabin st))
              Hl0 Hget0 Hst) as (stG & Hrun & Hstep).
  set (sI := exec (invalidate
    ([serverInfoLogId e; expectedEntryId (logCabin st)] ++
     if serverUpdateLogId e =? 0 then [] else [serverUpdateLogId e])) stG)
    in *.
  destruct (run_pushUpdate_any sI) as (bs & Hpush & Hups & Hrows & Hnil & Hlist).
  destruct Hstep as (ρ & rows & r' & HstG & Hrows').
  destruct (downedState_rows id e s0) as (Hdr & Hdu & Hdv).
  destruct (downedState_list id e s0 Hget0 Hst) as [Hkept Hcr].
  exists (downRows e ++ rows), bs, (exec pushUpdate sI).
  assert (Heq : serverDown_locked id st = (Returns tt, exec pushUpdate sI)).
  { unfold serverDown_locked, ServerDown_execute.
    rewrite run_bind, run_bind, run_appendProtoBuf. fold rec s0.
    rewrite Hrun. exact Hpush. }
  assert (HlI : serverList sI
                = updateRepl ρ (serverList (downedState id e s0)))
    by (unfold sI; rewrite HstG; reflexivity).
  assert (HuI : server (update sI)
                = server (update st) ++ downRows e ++ rows).
  { unfold sI. rewrite HstG. unfold exec, invalidate. unfold_monad.
    state_simpl. rewrite Hdr. by rewrite <- app_assoc. }
  assert (HusI : updates sI = updates st).
  { unfold sI. rewrite HstG. unfold exec, invalidate. unfold_monad.
    state_simpl. exact Hdu. }
  split; [exact Heq|]. split.
  { pose proof (kept_serverDown_locked id st n H) as Hk.
    unfold exec in Hk. by rewrite Heq in Hk. }
  split; [by rewrite Hups, HusI|].
  split; [by rewrite Hrows, HuI|].
  split; [done|]. rewrite Hlist, HlI. split; [|split; [|split]].
  - eapply slotPast_slotsKept;
      [|eapply slotPast_findEntry; [exact H|exact Hget]].
    eapply slotsKept_trans; [exact Hkept|apply slotsKept_updateRepl].
  - intros e'. rewrite findEntry_updateRepl.
    destruct (findEntry (serverList (downedState id e s0)) id) as [e0|] eqn:He0;
      [|done].
    specialize (Hcr e0 eq_refl). simpl. intros [= <-].
    destruct (ρ id); simpl; by rewrite Hcr.
  - intros Hup. apply elem_of_app. left. unfold downRows. rewrite Hup.
    apply elem_of_app. left. by apply list_elem_of_singleton.
  - intros Hm. apply elem_of_app. left. unfold downRows. rewrite Hm.
    apply elem_of_app. right. by apply list_elem_of_singleton.
Qed.

Lemma inv_reachable (log : DurableLog) (calls : list Call) :
  Forall normalCall calls → Z.of_nat (length calls) < 2 ^ 32 →
  inv (Z.of_nat (length calls)) (run calls (initialState log)).
Proof.
  intros Hall Hfit.
  apply (inv_run calls 0 _ Hall (inv_initialState log)). lia.
Qed.

(** X8.  [enlistServer] for a [replacesId] that is still in the list, in
    any state reached by calls of normal operation: the call returns a new
    id, different from [replacesId]; it publishes the rows of the removal
    of [replacesId] in batches that come before the batch holding the row
    that adds the new server, which is the last batch and starts with that
    row.  No earlier row names the new id and no row from the addition on
    names [replacesId].  The removal holds the CRASHED row of [replacesId]
    when it was still up, and its DOWN row when it is not a master. *)
Theorem enlistServer_removal_before_addition (log : DurableLog)
    (calls : list Call) (replacesId : ServerId) (mask : ServiceMask)
    (readSpeed : Z) (locator : string) (e : Entry) :
  Forall normalCall calls →
  Z.of_nat (length calls) + 1 < 2 ^ 32 →
  let st := run calls (initialState log) in
  getEntry st replacesId = Some e →
  let st' := exec (enlistServer replacesId mask readSpeed locator) st in
  ∃ newId earlier b removal addition later,
    outcome (enlistServer replacesId mask readSpeed locator) st
    = Returns newId
    ∧ newId ≠ replacesId
    ∧ updates st' = earlier ++ [b]
    ∧ concat ((λ b, server (incremental b)) <$> earlier)
      = allRows st ++ removal
    ∧ server (incremental b) = addition :: later
    ∧ server (update st') = []
    ∧ pb_server_id addition = newId ∧ pb_status addition = UP
    ∧ (∀ row, row ∈ allRows st ++ removal → pb_server_id row ≠ newId)
    ∧ (∀ row, row ∈ later → pb_server_id row ≠ replacesId)
    ∧ (status e = UP → Entry_serialize (set_status CRASHED e) ∈ removal)
    ∧ (has (services e) MASTER_SERVICE = false →
       Entry_serialize (set_status DOWN e) ∈ removal).
Proof.
  intros Hall Hfit st Hget st'.
  set (n := Z.of_nat (length calls)) in *.
  assert (H : inv n st) by (apply inv_reachable; [done|lia]).
  destruct (run_serverDown_locked n st replacesId e H Hget)
    as (removal & bs & st1 & Hrun1 & H1 & Hups1 & Hrows1 & Hnil1 & Hpast
        & Hnotup & Hc & Hd).
  destruct (run_EnlistServer_execute n st1 mask readSpeed locator H1 Hfit)
    as (lD & later & st2 & Hrun2 & H2 & Hups2 & Hv2 & Hrows2 & Hlater
        & Hothers & _).
  set (newId := allocId (serverList st1)) in *.
  set (eNew := addedEntry newId locator mask readSpeed) in *.
  assert (Hne : newId ≠ replacesId).
  { intros Heq. by apply (slotPast_allocId _ _ Hpast). }
  assert (Hpending : server (update st2) ≠ []).
  { rewrite Hrows2. by destruct (server (update st1)). }
  assert (Hrun : enlistServer replacesId mask readSpeed locator st
                 = (Returns newId, exec pushUpdate st2)).
  { unfold enlistServer. rewrite run_getState. unfold iget. rewrite Hget.
    rewrite bool_decide_true by (by eexists). cbn [when].
    rewrite run_bind, Hrun1, run_bind, Hrun2, run_bind.
    destruct (run_pushUpdate_any st2) as (? & -> & _). reflexivity. }
  assert (Hall1 : allRows st1 = allRows st ++ removal).
  { unfold allRows. rewrite Hups1, Hnil1, fmap_app, concat_app, Hrows1.
    by rewrite app_nil_r, app_assoc. }
  exists newId, (updates st2). eexists.
  exists removal, (Entry_serialize eNew), later.
  unfold st', outcome, exec. rewrite Hrun.
  unfold exec. rewrite (run_pushUpdate _ Hpending). state_simpl.
  split; [done|]. split; [done|]. split; [reflexivity|]. split.
  { rewrite Hups2, Hups1, fmap_app, concat_app, Hrows1. unfold allRows.
    by rewrite app_assoc. }
  split; [by rewrite Hrows2, Hnil1|]. split; [done|].
  split; [apply addedEntry_serverId|]. split; [apply addedEntry_status|].
  split; [|split; [|done]].
  - intros row Hin Heq. rewrite <- Hall1 in Hin.
    apply (slotPast_allocId (serverList st1) (pb_server_id row)); [|done].
    by eapply slotPast_row.
  - intros row Hin Heq.
    destruct (Hlater row Hin) as (e'' & r & He'' & Hup & _).
    rewrite Heq, Hothers in He'' by done. by apply (Hnotup e'' He'').
Qed.

Lemma enlistServer_removal_before_addition_witness :
  ∃ newId,
    outcome (enlistServer (mkServerId 1 0) (maskOf [MASTER_SERVICE]) 0 "m1")
      (run [CallEnlistServer noServer (maskOf [BACKUP_SERVICE]) 100 "b1"]
         (initialState emptyLog))
    = Returns newId
    ∧ newId ≠ mkServerId 1 0.
Proof.
  destruct (getEntry
    (run [CallEnlistServer noServer (maskOf [BACKUP_SERVICE]) 100 "b1"]
       (initialState emptyLog)) (mkServerId 1 0)) as [e|] eqn:He.
  - destruct (enlistServer_removal_before_addition emptyLog
      [CallEnlistServer noServer (maskOf [BACKUP_SERVICE]) 100 "b1"]
      (mkServerId 1 0) (maskOf [MASTER_SERVICE]) 0 "m1" e
      ltac:(repeat constructor) ltac:(vm_compute; reflexivity) He)
      as (newId & _ & _ & _ & _ & _ & Hout & Hne & _).
    exists newId. split; [exact Hout|exact Hne].
  - vm_compute in He. discriminate He.
Defined.

(** X9.  [enlistServer] with a [replacesId] that is not in the list, in
    any state reached by calls of normal operation: the call returns an id
    that was not in the list, with an index of at least 1; afterwards that
    id is found with an UP entry carrying the given services and locator,
    and every other id is found as before, up to its replication id.
    Exactly one batch is published, stamped with the next version; it
    holds the rows that were pending, then the row of the new server as
    [add] wrote it, then rows of up servers from the replication group
    manager. *)
Theorem enlistServer_adds_server (log : DurableLog) (calls : list Call)
    (replacesId : ServerId) (mask : ServiceMask) (readSpeed : Z)
    (locator : string) :
  Forall normalCall calls →
  Z.of_nat (length calls) + 1 < 2 ^ 32 →
  let st := run calls (initialState log) in
  getEntry st replacesId = None →
  let st' := exec (enlistServer replacesId mask readSpeed locator) st in
  ∃ newId e later,
    outcome (enlistServer replacesId mask readSpeed locator) st
    = Returns newId
    ∧ (1 ≤ indexNumber newId)%nat
    ∧ getEntry st newId = None
    ∧ getEntry st' newId = Some e
    ∧ status e = UP ∧ services e = mask ∧ serviceLocator e = locator
    ∧ (∀ id', id' ≠ newId →
         set_replicationId 0 <$> getEntry st' id'
         = set_replicationId 0 <$> getEntry st id')
    ∧ version st' = u64 (version st + 1)
    ∧ updates st'
      = updates st ++
        [{| batchVersion := u64 (version st + 1);
            incremental :=
              {| server := server (update st)
                           ++ Entry_serialize (set_replicationId 0 e) :: later;
                 version_number := u64 (version st + 1);
                 type := UPDATE |};
            full := None |}]
    ∧ server (update st') = []
    ∧ ∀ row, row ∈ later → pb_status row = UP.
Proof.
  intros Hall Hfit st Hget st'.
  set (n := Z.of_nat (length calls)) in *.
  assert (H : inv n st) by (apply inv_reachable; [done|lia]).
  destruct (run_EnlistServer_execute n st mask readSpeed locator H Hfit)
    as (lD & later & st2 & Hrun2 & H2 & Hups2 & Hv2 & Hrows2 & Hlater
        & _ & _ & Hsame & _ & e & He & Hup & Hmask & Hloc & Hser).
  set (newId := allocId (serverList st)) in *.
  assert (Hpending : server (update st2) ≠ []).
  { rewrite Hrows2. by destruct (server (update st)). }
  assert (Hrun : enlistServer replacesId mask readSpeed locator st
                 = (Returns newId, exec pushUpdate st2)).
  { unfold enlistServer. rewrite run_getState. unfold iget. rewrite Hget.
    rewrite bool_decide_false by (by intros [? ?]). cbn [when].
    rewrite run_ret, run_bind, Hrun2, run_bind.
    destruct (run_pushUpdate_any st2) as (? & -> & _). reflexivity. }
  exists newId, e, later.
  unfold st', outcome, exec, getEntry. rewrite Hrun.
  unfold exec. rewrite (run_pushUpdate _ Hpending). state_simpl.
  split; [done|]. split; [apply allocIndex_range|].
  split; [apply findEntry_allocId|]. split; [done|].
  split; [done|]. split; [done|]. split; [done|]. split; [done|].
  split; [by rewrite Hv2|]. split; [by rewrite Hups2, Hv2, Hrows2, Hser|].
  split; [done|].
  intros row Hin. destruct (Hlater row Hin) as (e' & r & _ & He' & ->).
  done.
Qed.

Lemma enlistServer_adds_server_witness :
  ∃ newId,
    outcome (enlistServer noServer (maskOf [MASTER_SERVICE]) 0 "m1")
      (run [CallEnlistServer noServer (maskOf [BACKUP_SERVICE]) 100 "b1"]
         (initialState emptyLog))
    = Returns newId
    ∧ (1 ≤ indexNumber newId)%nat.
Proof.
  destruct (enlistServer_adds_server emptyLog
    [CallEnlistServer noServer (maskOf [BACKUP_SERVICE]) 100 "b1"]
    noServer (maskOf [MASTER_SERVICE]) 0 "m1"
    ltac:(repeat constructor) ltac:(vm_compute; reflexivity)
    ltac:(vm_compute; reflexivity))
    as (newId & _ & _ & Hout & Hidx & _).
  exists newId. split; [exact Hout|exact Hidx].
Defined.

(** X10.  [masterCount] and [backupCount] along every trace of the calls
    of normal operation from the freshly constructed list, short enough
    for no 32-bit counter to wrap: each counter is the number of entries
    of the list that are up and offer the service ([countBy] counts the
    slots whose occupant satisfies the predicate), so a crashed server is
    not counted; and the list has at most one slot more than there were
    calls. *)
Theorem counters_match_list (log : DurableLog) (calls : list Call) :
  Forall normalCall calls →
  Z.of_nat (length calls) + 1 < 2 ^ 32 →
  let st := run calls (initialState log) in
  masterCount st = Z.of_nat (countBy isMaster (serverList st))
  ∧ backupCount st = Z.of_nat (countBy isBackup (serverList st))
  ∧ Z.of_nat (length (serverList st)) ≤ Z.of_nat (length calls) + 1.
Proof.
  intros Hall Hfit st.
  apply (counted_run calls 0 (initialState log) Hall (inv_initialState log)
           (counted_initialState log)).
  lia.
Qed.

Lemma counters_match_list_witness :
  masterCount crashedMaster
  = Z.of_nat (countBy isMaster (serverList crashedMaster)).
Proof.
  refine (proj1 (counters_match_list emptyLog
    [CallEnlistServer noServer (maskOf [MASTER_SERVICE; MEMBERSHIP_SERVICE])
       0 "m1";
     CallEnlistServer noServer (maskOf [MEMBERSHIP_SERVICE]) 0 "s2";
     CallServerDown (mkServerId 1 0)] _ _)).
  - repeat constructor.
  - vm_compute; reflexivity.
Defined.

(** ** The updater's bookkeeping *)

(** The batches carry increasing versions, as [pushUpdate] stamps them. *)
Definition increasing (batches : list UpdateBatch) : Prop :=
  ∀ i j bi bj,
    batches !! i = Some bi → batches !! j = Some bj → (i < j)%nat →
    batchVersion bi < batchVersion bj.

Lemma popConfirmed_spec (c : Z) (bs : list UpdateBatch) :
  ∃ dropped,
    bs = dropped ++ popConfirmed c bs
    ∧ Forall (λ b, batchVersion b ≤ c) dropped
    ∧ ∀ b, head (popConfirmed c bs) = Some b → c < batchVersion b.
Proof.
  induction bs as [|b bs (dropped & Heq & Hall & Hhead)].
  - exists []. by repeat split.
  - cbn [popConfirmed]. destruct (batchVersion b <=? c) eqn:Hb.
    + exists (b :: dropped). split; [simpl; by rewrite <- Heq|].
      split; [|done]. constructor; [lia|done].
    + exists []. split; [done|]. split; [done|].
      intros b' [= <-]. lia.
Qed.

Lemma popConfirmed_increasing (c : Z) (bs : list UpdateBatch) :
  increasing bs → ∀ b, b ∈ popConfirmed c bs → c < batchVersion b.
Proof.
  intros Hinc b Hin.
  destruct (popConfirmed_spec c bs) as (dropped & Heq & _ & Hhead).
  destruct (popConfirmed c bs) as [|h t] eqn:Hpop;
    [by apply not_elem_of_nil in Hin|].
  specialize (Hhead h eq_refl).
  apply elem_of_cons in Hin as [->|Hin]; [done|].
  apply list_elem_of_lookup in Hin as [k Hk].
  assert (batchVersion h < batchVersion b); [|lia].
  apply (Hinc (length dropped) (length dropped + S k)%nat); [| |lia].
  - rewrite Heq. by rewrite list_lookup_middle.
  - rewrite Heq, lookup_app_r by lia.
    by replace (length dropped + S k - length dropped)%nat with (S k) by lia.
Qed.

(** X11.  [pruneUpdates] only ever pops a prefix of the buffer, and every
    batch it pops has a version of at most [minConfirmedVersion]; the
    list and its version are untouched.  It does nothing while
    [minConfirmedVersion] is still uninitialized, and on the inconsistent
    state [minConfirmedVersion > version] it pops nothing and resets
    [minConfirmedVersion] to 0.  Otherwise the batch left at the front is
    newer than [minConfirmedVersion]; when the versions in the buffer
    increase, so is every batch that is left, so that no batch a server
    may still need is discarded and no confirmed one is kept. *)
Theorem pruneUpdates_drops_confirmed_prefix (st : State) :
  let st' := exec pruneUpdates st in
  outcome pruneUpdates st = Returns tt
  ∧ serverList st' = serverList st ∧ version st' = version st
  ∧ (∃ dropped,
       updates st = dropped ++ updates st'
       ∧ Forall (λ b, batchVersion b ≤ minConfirmedVersion st) dropped)
  ∧ (minConfirmedVersion st = UNINITIALIZED_VERSION → st' = st)
  ∧ (minConfirmedVersion st ≠ UNINITIALIZED_VERSION →
     version st < minConfirmedVersion st →
     updates st' = updates st ∧ minConfirmedVersion st' = 0)
  ∧ (minConfirmedVersion st ≠ UNINITIALIZED_VERSION →
     minConfirmedVersion st ≤ version st →
     minConfirmedVersion st' = minConfirmedVersion st
     ∧ (∀ b, head (updates st') = Some b →
          minConfirmedVersion st < batchVersion b)
     ∧ (increasing (updates st) →
        ∀ b, b ∈ updates st' → minConfirmedVersion st < batchVersion b)).
Proof.
  intros st'. unfold st', exec, outcome, pruneUpdates. unfold_monad.
  cbn [fst snd].
  destruct (popConfirmed_spec (minConfirmedVersion st) (updates st))
    as (dropped & Heq & Hall & Hhead).
  destruct (minConfirmedVersion st =? UNINITIALIZED_VERSION) eqn:Hu;
    [|destruct (version st <? minConfirmedVersion st) eqn:Hv]; state_simpl.
  - split; [done|]. split; [done|]. split; [done|].
    split; [by exists []|]. split; [done|]. split; intros; lia.
  - split; [done|]. split; [done|]. split; [done|].
    split; [by exists []|]. split; [intros; lia|].
    split; [done|]. intros; lia.
  - split; [done|]. split; [done|]. split; [done|].
    split; [by exists dropped|]. split; [intros; lia|].
    split; [intros; lia|]. intros _ _. split; [done|]. split; [done|].
    intros Hinc. by apply popConfirmed_increasing.
Qed.

(** *** [getWork] *)

(** What the scan of [getWork] leaves alone until it hits. *)
Definition scanKept (st st' : State) : Prop :=
  serverList st' = serverList st
  ∧ version st' = version st
  ∧ numUpdatingServers st' = numUpdatingServers st
  ∧ searchIndex (lastScan st') = searchIndex (lastScan st).

#[local] Instance scanKept_preorder : PreOrder scanKept.
Proof.
  split; [by intros st|].
  intros a b c (H1 & H2 & H3 & H4) (H5 & H6 & H7 & H8).
  repeat split; congruence.
Qed.

Lemma run_pruneUpdates (st : State) :
  pruneUpdates st = (Returns tt, exec pruneUpdates st)
  ∧ scanKept st (exec pruneUpdates st).
Proof.
  split; [done|]. unfold exec, pruneUpdates. unfold_monad. cbn [snd].
  destruct (minConfirmedVersion st =? UNINITIALIZED_VERSION);
    [|destruct (version st <? minConfirmedVersion st)]; by repeat split.
Qed.

Lemma run_scanWrapped (st : State) :
  scanWrapped st = (Returns tt, exec scanWrapped st)
  ∧ scanKept st (exec scanWrapped st).
Proof.
  split; [done|]. unfold exec, scanWrapped. rewrite !run_modify.
  etransitivity; [|apply run_pruneUpdates].
  destruct (minVersion (lastScan st) =? UNINITIALIZED_VERSION);
    by repeat split.
Qed.

Lemma run_scanFailed (n : Z) (st : State) :
  outcome (scanFailed n) st = Returns None.
Proof.
  unfold outcome, scanFailed. rewrite run_bind.
  destruct (n =? 0); cbn [when]; [|done].
  rewrite run_modify. by destruct (run_pruneUpdates
    (set_minConfirmedVersion (version st) st)) as [-> _].
Qed.

(** The server of slot [j], with entry [e], was handed out as the work
    unit [wu]. *)
Definition hitAt (st : State) (j : nat) (e : Entry) (wu : UpdaterWorkUnit)
    (st' : State) : Prop :=
  (∃ p, serverList st !! j = Some p ∧ entry p = Some e)
  ∧ updatable e = true
  ∧ updateVersion e ≠ version st
  ∧ updateVersion e = verifiedVersion e
  ∧ targetServer wu = serverId e
  ∧ sendFullList wu = (verifiedVersion e =? UNINITIALIZED_VERSION)
  ∧ updateVersionTail wu
    = (if verifiedVersion e =? UNINITIALIZED_VERSION then version st
       else u64 (verifiedVersion e + 1))
  ∧ serverList st'
    = setEntry j (Some (set_updateVersion (updateVersionTail wu) e))
        (serverList st)
  ∧ version st' = version st
  ∧ numUpdatingServers st' = u64 (numUpdatingServers st + 1)
  ∧ searchIndex (lastScan st') = j
  ∧ (sendFullList wu = true →
     ∃ b, last (updates st') = Some b ∧ is_Some (full b)
          ∧ firstUpdate wu = pred (length (updates st'))).

Lemma hitAt_scanKept (st s1 : State) (j : nat) (e : Entry)
    (wu : UpdaterWorkUnit) (st' : State) :
  scanKept st s1 → hitAt s1 j e wu st' → hitAt st j e wu st'.
Proof.
  intros (Hl & Hv & Hn & _). unfold hitAt. by rewrite Hl, Hv, Hn.
Qed.

Lemma packWork_hit (i : nat) (p : Slot) (e : Entry) (st : State)
    (wu : UpdaterWorkUnit) (st' : State) :
  serverList st !! i = Some p → entry p = Some e → updatable e = true →
  negb (updateVersion e =? version st)
  && (updateVersion e =? verifiedVersion e) = true →
  packWork i e st = (Returns (Some wu), st') →
  hitAt st i e wu st'.
Proof.
  intros Hp He Hu [Hv Heq]%andb_true_iff.
  apply negb_true_iff, Z.eqb_neq in Hv. apply Z.eqb_eq in Heq.
  unfold packWork, takeWork. rewrite run_getState.
  destruct (verifiedVersion e =? UNINITIALIZED_VERSION) eqn:Hun.
  - destruct (last (updates st)) as [b|] eqn:Hlast; [|done].
    destruct (full b) as [snapshot|] eqn:Hfull; unfold_monad;
      intros [= <- <-];
      unfold hitAt; rewrite Hun; unfold set_searchIndex; state_simpl;
      repeat split; eauto.
    intros _. rewrite last_lookup in Hlast.
    pose proof (lookup_lt_Some _ _ _ Hlast) as Hlt.
    eexists. rewrite last_lookup, length_insert.
    split; [by apply list_lookup_insert_eq|]. simpl. eauto.
  - destruct (head (updates st)) as [b0|]; [|done].
    unfold_monad; intros [= <- <-];
      unfold hitAt; rewrite Hun; unfold set_searchIndex; state_simpl;
      repeat split; eauto.
    by intros [=].
Qed.

Lemma getWorkScan_hit (fuel : nat) :
  ∀ i n st wu st',
    getWorkScan fuel i n st = (Returns (Some wu), st') →
    ∃ j e, hitAt st j e wu st'.
Proof.
  induction fuel as [|fuel IH]; intros i n st wu st' Hrun; [done|].
  cbn [getWorkScan] in Hrun. rewrite run_getState in Hrun.
  destruct (serverList st !! i) as [p|] eqn:Hp; [|done].
  cbv zeta in Hrun.
  set (i' := ((i + 1) mod length (serverList st))%nat) in Hrun.
  assert (Hnext : ∀ m s1, scanKept st s1 →
    (when (i' =? 0)%nat scanWrapped;;
     if (i' =? searchIndex (lastScan st))%nat then scanFailed m
     else getWorkScan fuel i' m) s1 = (Returns (Some wu), st') →
    ∃ j e, hitAt st j e wu st').
  { intros m s1 Hk H1. rewrite run_bind in H1.
    assert (∃ s2, when (i' =? 0)%nat scanWrapped s1 = (Returns tt, s2)
                  ∧ scanKept st s2) as (s2 & Hw & Hk2).
    { destruct (i' =? 0)%nat; cbn [when].
      - destruct (run_scanWrapped s1) as [Hr Hk1].
        eexists. split; [exact Hr|]. by etransitivity.
      - by exists s1. }
    rewrite Hw in H1.
    destruct (i' =? searchIndex (lastScan st))%nat.
    - pose proof (run_scanFailed m s2) as Hf. unfold outcome in Hf.
      by rewrite H1 in Hf.
    - destruct (IH _ _ _ _ _ H1) as (j & e & Hhit). exists j, e.
      by eapply hitAt_scanKept. }
  destruct (entry p) as [e|] eqn:He; [|by apply (Hnext n st)].
  destruct (updatable e) eqn:Hu; [|by apply (Hnext n st)].
  rewrite run_bind in Hrun.
  assert (∃ s1,
    when (verifiedVersion e <? minVersion (lastScan st))
      (modify (set_minVersion (verifiedVersion e))) st = (Returns tt, s1)
    ∧ scanKept st s1) as (s1 & Hw & Hk).
  { destruct (verifiedVersion e <? minVersion (lastScan st)); cbn [when];
      eexists; (split; [reflexivity|]); by repeat split. }
  rewrite Hw in Hrun.
  destruct (negb (updateVersion e =? version st)
            && (updateVersion e =? verifiedVersion e)) eqn:Hc.
  - exists i, e. eapply hitAt_scanKept; [exact Hk|].
    destruct Hk as (Hl & Hv & _).
    eapply packWork_hit; [|exact He|exact Hu| |exact Hrun].
    + by rewrite Hl.
    + by rewrite Hv.
  - by apply (Hnext (n + 1) s1).
Qed.

Lemma getWork_hit (st : State) (wu : UpdaterWorkUnit) (st' : State) :
  getWork st = (Returns (Some wu), st') → ∃ j e, hitAt st j e wu st'.
Proof.
  unfold getWork. rewrite run_getState.
  destruct (_ || _); [done|]. apply getWorkScan_hit.
Qed.

(** The object after the head of both callbacks. *)
Definition released (st : State) : State :=
  if 0 <? numUpdatingServers st
  then set_numUpdatingServers (numUpdatingServers st - 1) st else st.

Lemma released_list (st : State) :
  serverList (released st) = serverList st
  ∧ version (released st) = version st
  ∧ updates (released st) = updates st.
Proof. unfold released. by destruct (0 <? numUpdatingServers st). Qed.

Lemma run_workFailed_present (st : State) (id : ServerId) (e : Entry) :
  getEntry st id = Some e →
  workFailed id st
  = (Returns tt,
     set_noWorkFoundForEpoch 0
       (set_serverList
          (setEntry (indexNumber id)
             (Some (set_updateVersion (verifiedVersion e) e)) (serverList st))
          (released st))).
Proof.
  intros Hget. unfold workFailed, releaseUpdatingServer.
  rewrite run_modify, run_getState. fold (released st).
  assert (Hget' : getEntry (released st) id = Some e).
  { unfold getEntry. by rewrite (proj1 (released_list st)). }
  rewrite Hget', run_bind, (run_updateEntry _ _ _ e Hget').
  by rewrite (proj1 (released_list st)).
Qed.

Lemma run_workSuccess_present (st : State) (id : ServerId) (e : Entry) :
  getEntry st id = Some e →
  ∃ st',
    workSuccess id st = (Returns tt, st')
    ∧ serverList st'
      = setEntry (indexNumber id)
          (Some (set_verifiedVersion (updateVersion e) e)) (serverList st)
    ∧ version st' = version st
    ∧ numUpdatingServers st' = numUpdatingServers (released st).
Proof.
  intros Hget. unfold workSuccess, releaseUpdatingServer.
  rewrite run_modify, run_getState. fold (released st).
  destruct (released_list st) as (Hl & Hv & _).
  assert (Hget' : getEntry (released st) id = Some e).
  { unfold getEntry. by rewrite Hl. }
  pose proof Hget as (p & Hp & He & _)%findEntry_Some.
  rewrite Hget'. destruct (verifiedVersion e =? updateVersion e) eqn:Heq.
  - apply Z.eqb_eq in Heq. rewrite run_ret.
    assert (Hsame : setEntry (indexNumber id)
                      (Some (set_verifiedVersion (updateVersion e) e))
                      (serverList st) = serverList st).
    { rewrite <- Heq. apply list_eq. intros k.
      destruct (decide (k = indexNumber id)) as [->|Hne].
      - rewrite (lookup_setEntry_eq _ _ _ _ Hp), Hp. f_equal.
        destruct p as [g oe]. simpl in *. rewrite He. f_equal. f_equal.
        by destruct e.
      - by rewrite lookup_setEntry_ne. }
    rewrite Hsame.
    destruct (verifiedVersion e <? version (released st)); cbn [when];
      eexists; (split; [reflexivity|]); by rewrite ?Hl, ?Hv.
  - rewrite run_bind, (run_updateEntry _ _ _ e Hget').
    destruct (updateVersion e <? version (released st)); cbn [when];
      eexists; (split; [reflexivity|]); state_simpl; by rewrite ?Hl, ?Hv.
Qed.

Lemma setEntry_same (l : list Slot) (j : nat) (p : Slot) (e : Entry) :
  l !! j = Some p → entry p = Some e → setEntry j (Some e) l = l.
Proof.
  intros Hp He. apply list_eq. intros k.
  destruct (decide (k = j)) as [->|Hne].
  - rewrite (lookup_setEntry_eq _ _ _ _ Hp), Hp. f_equal.
    destruct p as [g oe]. simpl in *. by rewrite He.
  - by rewrite lookup_setEntry_ne.
Qed.

(** X12.  Whenever [getWork] hands out a work unit, its target is the
    occupant of some slot that is up, offers the membership service, has
    no update in flight ([updateVersion = verifiedVersion]) and is behind
    the list ([updateVersion ≠ version]).  The unit asks for the full list
    exactly when the server has confirmed nothing yet, and then its tail is
    the current version; otherwise the tail is the version after the
    confirmed one.  The only change to the list is that the target's
    [updateVersion] becomes the tail; the version is untouched,
    [numUpdatingServers] is incremented and the scan will resume at the
    target's slot.  For a full list, the last batch of the buffer carries
    a snapshot and the unit points at it. *)
Theorem getWork_picks_idle_server (st : State) (wu : UpdaterWorkUnit)
    (st' : State) :
  getWork st = (Returns (Some wu), st') →
  ∃ j p e,
    serverList st !! j = Some p ∧ entry p = Some e
    ∧ targetServer wu = serverId e
    ∧ status e = UP ∧ has (services e) MEMBERSHIP_SERVICE = true
    ∧ updateVersion e = verifiedVersion e
    ∧ updateVersion e ≠ version st
    ∧ sendFullList wu = (verifiedVersion e =? UNINITIALIZED_VERSION)
    ∧ updateVersionTail wu
      = (if sendFullList wu then version st
         else u64 (verifiedVersion e + 1))
    ∧ serverList st'
      = setEntry j (Some (set_updateVersion (updateVersionTail wu) e))
          (serverList st)
    ∧ version st' = version st
    ∧ numUpdatingServers st' = u64 (numUpdatingServers st + 1)
    ∧ searchIndex (lastScan st') = j
    ∧ (sendFullList wu = true →
       ∃ b, last (updates st') = Some b ∧ is_Some (full b)
            ∧ firstUpdate wu = pred (length (updates st'))).
Proof.
  intros (j & e & (p & Hp & He) & Hu & Hv & Heq & Ht & Hf & Htail & Hl & Hver
          & Hn & Hs & Hfull)%getWork_hit.
  exists j, p, e. apply andb_true_iff in Hu as [Hup Hmem].
  split; [done|]. split; [done|]. split; [done|].
  split; [by destruct (status e)|]. split; [done|]. split; [done|].
  split; [done|]. split; [done|]. split; [by rewrite Hf|]. done.
Qed.

Lemma getWork_picks_idle_server_witness :
  ∃ wu st',
    getWork crashedMaster = (Returns (Some wu), st')
    ∧ version st' = version crashedMaster.
Proof.
  destruct (getWork crashedMaster) as [[[wu|]|ex] st'] eqn:Hrun.
  - exists wu, st'. split; [reflexivity|].
    destruct (getWork_picks_idle_server crashedMaster wu st' Hrun)
      as (j & p & e & _ & _ & _ & _ & _ & _ & _ & _ & _ & _ & Hv & _).
    exact Hv.
  - vm_compute in Hrun. discriminate Hrun.
  - vm_compute in Hrun. discriminate Hrun.
Defined.

(** X13.  [getWork] followed by [workFailed] for the target of the work
    unit is a round trip on the list: with every entry in the slot its id
    names, the server list is again what it was before [getWork], and so
    is [numUpdatingServers] as long as that 64-bit counter did not wrap;
    the version is untouched and [noWorkFoundForEpoch] is reset, so the
    server is found again by a later scan. *)
Theorem getWork_then_workFailed (st : State) (wu : UpdaterWorkUnit)
    (st' : State) :
  entriesInPlace (serverList st) →
  0 ≤ numUpdatingServers st < 2 ^ 64 - 1 →
  getWork st = (Returns (Some wu), st') →
  let st'' := exec (workFailed (targetServer wu)) st' in
  outcome (workFailed (targetServer wu)) st' = Returns tt
  ∧ serverList st'' = serverList st
  ∧ numUpdatingServers st'' = numUpdatingServers st
  ∧ version st'' = version st
  ∧ noWorkFoundForEpoch (lastScan st'') = 0.
Proof.
  intros Hin Hrange
    (j & e & (p & Hp & He) & Hu & Hv & Heq & Ht & Hf & Htail & Hl & Hver
     & Hn & Hs & Hfull)%getWork_hit st''.
  pose proof (Hin j p e Hp He) as Hj.
  set (e' := set_updateVersion (updateVersionTail wu) e) in *.
  assert (Hget : getEntry st' (targetServer wu) = Some e').
  { apply findEntry_Some. rewrite Ht, Hj, Hl.
    eexists. split; [by apply lookup_setEntry_eq|]. done. }
  unfold st'', outcome, exec.
  rewrite (run_workFailed_present _ _ _ Hget). cbn [fst snd].
  unfold set_noWorkFoundForEpoch. state_simpl.
  split; [done|]. split; [|split; [|split; [|done]]].
  - rewrite Hl, Ht, Hj, setEntry_setEntry.
    apply (setEntry_same _ _ p); [done|]. rewrite He. f_equal.
    unfold e'. simpl. destruct e. simpl in *. by rewrite Heq.
  - unfold released. rewrite Hn.
    assert (Hu64 : u64 (numUpdatingServers st + 1) = numUpdatingServers st + 1).
    { unfold u64. apply Z.mod_small. lia. }
    rewrite Hu64. destruct (0 <? numUpdatingServers st + 1) eqn:Hpos.
    + state_simpl. lia.
    + apply Z.ltb_ge in Hpos. lia.
  - by rewrite (proj1 (proj2 (released_list st'))).
Qed.

Lemma getWork_then_workFailed_witness :
  ∃ wu st',
    getWork crashedMaster = (Returns (Some wu), st')
    ∧ serverList (exec (workFailed (targetServer wu)) st')
      = serverList crashedMaster.
Proof.
  destruct (getWork crashedMaster) as [[[wu|]|ex] st'] eqn:Hrun.
  - exists wu, st'. split; [reflexivity|].
    refine (proj1 (proj2 (getWork_then_workFailed crashedMaster wu st'
                            _ _ Hrun))).
    + apply entriesInPlace_check. vm_compute. reflexivity.
    + vm_compute. split; [discriminate|reflexivity].
  - vm_compute in Hrun. discriminate Hrun.
  - vm_compute in Hrun. discriminate Hrun.
Defined.

(** X14.  [getWork] followed by [workSuccess] for the target of the work
    unit confirms the update: with every entry in the slot its id names,
    the target's entry afterwards has both [updateVersion] and
    [verifiedVersion] equal to the tail of the work unit and is otherwise
    what it was before [getWork]; every other id looks up as before; the
    version is untouched, and [numUpdatingServers] is back at its value
    before [getWork] as long as that 64-bit counter did not wrap. *)
Theorem getWork_then_workSuccess (st : State) (wu : UpdaterWorkUnit)
    (st' : State) :
  entriesInPlace (serverList st) →
  0 ≤ numUpdatingServers st < 2 ^ 64 - 1 →
  getWork st = (Returns (Some wu), st') →
  let id := targetServer wu in
  let st'' := exec (workSuccess id) st' in
  outcome (workSuccess id) st' = Returns tt
  ∧ (∃ e, getEntry st id = Some e
          ∧ getEntry st'' id
            = Some (set_verifiedVersion (updateVersionTail wu)
                      (set_updateVersion (updateVersionTail wu) e)))
  ∧ (∀ id', id' ≠ id → getEntry st'' id' = getEntry st id')
  ∧ version st'' = version st
  ∧ numUpdatingServers st'' = numUpdatingServers st.
Proof.
  intros Hin Hrange
    (j & e & (p & Hp & He) & Hu & Hv & Heq & Ht & Hf & Htail & Hl & Hver
     & Hn & Hs & Hfull)%getWork_hit id st''.
  pose proof (Hin j p e Hp He) as Hj.
  set (e' := set_updateVersion (updateVersionTail wu) e) in *.
  assert (Hid : indexNumber id = j) by (unfold id; by rewrite Ht).
  assert (Hget0 : getEntry st id = Some e).
  { apply findEntry_Some. exists p. rewrite Hid. unfold id. by rewrite Ht. }
  assert (Hget : getEntry st' id = Some e').
  { apply findEntry_Some. rewrite Hid, Hl.
    eexists. split; [by apply lookup_setEntry_eq|]. unfold id. by rewrite Ht. }
  destruct (run_workSuccess_present st' id e' Hget)
    as (st2 & Hrun & Hl2 & Hv2 & Hn2).
  assert (Hst'' : st'' = st2) by (unfold st'', exec; by rewrite Hrun).
  assert (Hlist : serverList st''
                  = setEntry j (Some (set_verifiedVersion
                                        (updateVersionTail wu) e'))
                      (serverList st)).
  { rewrite Hst'', Hl2, Hl, Hid, setEntry_setEntry. done. }
  assert (Hget2 : getEntry st'' id
                  = Some (set_verifiedVersion (updateVersionTail wu) e')).
  { apply findEntry_Some. rewrite Hlist, Hid.
    eexists. split; [by apply lookup_setEntry_eq|]. unfold id. by rewrite Ht. }
  split; [unfold outcome; by rewrite Hrun|].
  split; [by exists e|]. split; [|split].
  - intros id' Hne. unfold getEntry.
    destruct (decide (indexNumber id' = j)) as [Hsame|Hother].
    + rewrite (findEntry_same_slot _ id id' _ Hget2) by congruence.
      by rewrite (findEntry_same_slot _ id id' _ Hget0) by congruence.
    + rewrite Hlist. by apply findEntry_setEntry_other.
  - rewrite Hst''. congruence.
  - rewrite Hst'', Hn2. unfold released. rewrite Hn.
    assert (Hu64 : u64 (numUpdatingServers st + 1) = numUpdatingServers st + 1).
    { unfold u64. apply Z.mod_small. lia. }
    rewrite Hu64. destruct (0 <? numUpdatingServers st + 1) eqn:Hpos.
    + state_simpl. lia.
    + apply Z.ltb_ge in Hpos. lia.
Qed.

Lemma getWork_then_workSuccess_witness :
  ∃ wu st',
    getWork crashedMaster = (Returns (Some wu), st')
    ∧ version (exec (workSuccess (targetServer wu)) st')
      = version crashedMaster.
Proof.
  destruct (getWork crashedMaster) as [[[wu|]|ex] st'] eqn:Hrun.
  - exists wu, st'. split; [reflexivity|].
    refine (proj1 (proj2 (proj2 (proj2
              (getWork_then_workSuccess crashedMaster wu st' _ _ Hrun))))).
    + apply entriesInPlace_check. vm_compute. reflexivity.
    + vm_compute. split; [discriminate|reflexivity].
  - vm_compute in Hrun. discriminate Hrun.
  - vm_compute in Hrun. discriminate Hrun.
Defined.

(** The part of an entry that the updater's callbacks do not write. *)
Definition withoutVersions (e : Entry) : Entry :=
  set_verifiedVersion 0 (set_updateVersion 0 e).

(** X15.  The two callbacks of the updater, for any id at all, in the list
    or not: both return; neither changes the version, the buffered
    updates, the length of the list or the counters of masters and
    backups; each id looks up afterwards as before, apart from the two
    version fields of its entry; and [numUpdatingServers] goes down by one
    but never below zero. *)
Theorem updater_callbacks_frame (st : State) (id : ServerId)
    (cb : ServerId → M unit) :
  cb = workSuccess ∨ cb = workFailed →
  let st' := exec (cb id) st in
  outcome (cb id) st = Returns tt
  ∧ version st' = version st
  ∧ updates st' = updates st
  ∧ length (serverList st') = length (serverList st)
  ∧ numberOfMasters st' = numberOfMasters st
  ∧ numberOfBackups st' = numberOfBackups st
  ∧ (∀ id', withoutVersions <$> getEntry st' id'
            = withoutVersions <$> getEntry st id')
  ∧ numUpdatingServers st'
    = (if 0 <? numUpdatingServers st then numUpdatingServers st - 1
       else numUpdatingServers st).
Proof.
  assert (Hrel : numUpdatingServers (released st)
                 = (if 0 <? numUpdatingServers st
                    then numUpdatingServers st - 1
                    else numUpdatingServers st)
                 ∧ numberOfMasters (released st) = numberOfMasters st
                 ∧ numberOfBackups (released st) = numberOfBackups st).
  { unfold released. by destruct (0 <? numUpdatingServers st). }
  destruct Hrel as (Hn & Hm & Hb).
  destruct (released_list st) as (Hl & Hv & Hupd).
  assert (Hview : ∀ (f : Entry → Entry) e id',
            getEntry st id = Some e →
            withoutVersions (f e) = withoutVersions e →
            serverId (f e) = serverId e →
            withoutVersions
              <$> findEntry (setEntry (indexNumber id) (Some (f e))
                               (serverList st)) id'
            = withoutVersions <$> getEntry st id').
  { intros f e id' Hget Hf Hsid. unfold getEntry in *.
    pose proof (findEntry_serverId _ _ _ Hget) as Hide.
    destruct (decide (id' = id)) as [->|Hne].
    - rewrite (findEntry_setEntry _ _ e (f e) Hget) by congruence.
      rewrite Hget. simpl. by rewrite Hf.
    - destruct (decide (indexNumber id' = indexNumber id)) as [Hsame|Hother].
      + assert (Hnew : findEntry (setEntry (indexNumber id) (Some (f e))
                                    (serverList st)) id = Some (f e)).
        { apply (findEntry_setEntry _ _ e); congruence. }
        rewrite (findEntry_same_slot _ id id' _ Hnew) by done.
        by rewrite (findEntry_same_slot _ id id' _ Hget) by done.
      + by rewrite findEntry_setEntry_other. }
  intros [-> | ->] st'; unfold st', outcome, exec.
  - destruct (getEntry st id) as [e|] eqn:Hget.
    + destruct (run_workSuccess_present st id e Hget)
        as (st2 & Hrun & Hl2 & Hv2 & Hn2).
      rewrite Hrun. cbn [fst snd].
      assert (Hrest : updates st2 = updates st
                      ∧ numberOfMasters st2 = numberOfMasters st
                      ∧ numberOfBackups st2 = numberOfBackups st).
      { clear Hl2 Hv2 Hn2. revert Hrun.
        unfold workSuccess, releaseUpdatingServer.
        rewrite run_modify, run_getState. fold (released st).
        assert (Hget' : getEntry (released st) id = Some e).
        { unfold getEntry. by rewrite Hl. }
        rewrite Hget'.
        destruct (verifiedVersion e =? updateVersion e).
        - rewrite run_ret.
          destruct (verifiedVersion e <? version (released st)); cbn [when];
            intros [= <-]; state_simpl; by rewrite ?Hupd, ?Hm, ?Hb.
        - rewrite run_bind, (run_updateEntry _ _ _ e Hget').
          destruct (updateVersion e <? version (released st)); cbn [when];
            intros [= <-]; state_simpl; by rewrite ?Hupd, ?Hm, ?Hb. }
      destruct Hrest as (Hu2 & Hm2 & Hb2).
      split; [done|]. split; [done|]. split; [done|].
      split; [by rewrite Hl2, length_setEntry|].
      split; [done|]. split; [done|]. split; [|congruence].
      intros id'. unfold getEntry at 1. rewrite Hl2.
      by apply (Hview (set_verifiedVersion (updateVersion e))).
    + unfold workSuccess, releaseUpdatingServer.
      rewrite run_modify, run_getState. fold (released st).
      assert (Hget' : getEntry (released st) id = None).
      { unfold getEntry. by rewrite Hl. }
      rewrite Hget'.
      change ((mret tt : M unit) (released st))
        with (Returns tt, released st).
      cbn [fst snd]. unfold getEntry.
      by rewrite Hl, Hv, Hupd, Hm, Hb, Hn.
  - destruct (getEntry st id) as [e|] eqn:Hget.
    + rewrite (run_workFailed_present _ _ _ Hget). cbn [fst snd].
      unfold set_noWorkFoundForEpoch. state_simpl.
      split; [done|]. split; [done|]. split; [done|].
      split; [by rewrite length_setEntry|].
      split; [done|]. split; [done|]. split; [|done].
      intros id'. unfold getEntry at 1. state_simpl.
      by apply (Hview (set_updateVersion (verifiedVersion e))).
    + unfold workFailed, releaseUpdatingServer.
      rewrite run_modify, run_getState. fold (released st).
      assert (Hget' : getEntry (released st) id = None).
      { unfold getEntry. by rewrite Hl. }
      rewrite Hget', run_ret. unfold modify. cbn [fst snd].
      unfold set_noWorkFoundForEpoch, getEntry. state_simpl.
      by rewrite Hl, Hv, Hupd, Hm, Hb, Hn.
Qed.

Lemma updater_callbacks_frame_witness :
  version (exec (workFailed (mkServerId 2 0)) crashedMaster)
  = version crashedMaster.
Proof.
  refine (proj1 (proj2 (updater_callbacks_frame crashedMaster
                          (mkServerId 2 0) workFailed _))).
  right. reflexivity.
Defined.

(** ** The records the operations leave in the log *)

(** The log after [appendProtoBuf] and after [invalidate]. *)
Definition logged (r : LogRecord) (invalidates : list Z) (lg : DurableLog)
  : DurableLog :=
  {| logEntries := logEntries lg ++ [(expectedEntryId lg, r)];
     invalidatedIds := invalidatedIds lg ++ invalidates;
     expectedEntryId := u64 (expectedEntryId lg + 1) |}.

Definition invalidated (invalidates : list Z) (lg : DurableLog)
  : DurableLog :=
  {| logEntries := logEntries lg;
     invalidatedIds := invalidatedIds lg ++ invalidates;
     expectedEntryId := expectedEntryId lg |}.

(** Methods that leave the log alone. *)
Definition sameLog : relation State :=
  λ st st', logCabin st' = logCabin st.

#[local] Instance sameLog_preorder : PreOrder sameLog.
Proof.
  split; [by intros ?|]. intros a b c Hab Hbc. unfold sameLog in *.
  congruence.
Qed.

Lemma bind_Returns {A B} (m : M A) (k : A → M B) (st : State) (b : B)
    (st' : State) :
  (m ≫= k) st = (Returns b, st') →
  ∃ a s, m st = (Returns a, s) ∧ k a s = (Returns b, st').
Proof.
  rewrite run_bind. destruct (m st) as [[a|ex] s]; [|done]. eauto.
Qed.

Lemma sameLog_run {A} (m : M A) (st : State) (r : Result A) (st' : State) :
  keeps sameLog m → m st = (r, st') → logCabin st' = logCabin st.
Proof.
  intros Hk Hrun. specialize (Hk st). unfold exec in Hk.
  by rewrite Hrun in Hk.
Qed.

Lemma sameLog_add (id : ServerId) (locator : string) (mask : ServiceMask)
    (readSpeed : Z) :
  keeps sameLog (add id locator mask readSpeed).
Proof. apply frame_add; (apply _ || by intros). Qed.

Lemma sameLog_generateUniqueId : keeps sameLog generateUniqueId.
Proof. apply frame_generateUniqueId; (apply _ || by intros). Qed.

Lemma sameLog_getReference (id : ServerId) :
  keeps sameLog (getReferenceFromServerId id).
Proof. apply frame_getReference. apply _. Qed.

Lemma sameLog_updateEntry (id : ServerId) (f : Entry → Entry) :
  keeps sameLog (updateEntry id f).
Proof. apply frame_updateEntry; (apply _ || by intros). Qed.

Lemma sameLog_crashed (id : ServerId) : keeps sameLog (crashed id).
Proof. apply frame_crashed; (apply _ || by intros). Qed.

Lemma sameLog_remove (id : ServerId) : keeps sameLog (remove id).
Proof. apply frame_remove; (apply _ || by intros). Qed.

Lemma sameLog_createReplicationGroup : keeps sameLog createReplicationGroup.
Proof. apply frame_createReplicationGroup; (apply _ || by intros). Qed.

Lemma sameLog_removeReplicationGroup (g : Z) :
  keeps sameLog (removeReplicationGroup g).
Proof. apply frame_removeReplicationGroup; (apply _ || by intros). Qed.

Lemma sameLog_pushUpdate : keeps sameLog pushUpdate.
Proof.
  intros st. unfold exec, pushUpdate. case_decide; reflexivity.
Qed.

Lemma updateEntry_Returns (id : ServerId) (f : Entry → Entry)
    (st st' : State) :
  updateEntry id f st = (Returns tt, st') →
  ∃ e, getEntry st id = Some e
       ∧ st' = set_serverList
                 (setEntry (indexNumber id) (Some (f e)) (serverList st)) st.
Proof.
  intros H. destruct (getEntry st id) as [e|] eqn:Hget.
  - rewrite (run_updateEntry _ _ _ e Hget) in H. injection H as <-. eauto.
  - unfold updateEntry in H. rewrite run_bind in H.
    unfold getReferenceFromServerId in H. by rewrite Hget in H.
Qed.

Lemma getReference_Returns (id : ServerId) (st : State) (e : Entry)
    (st' : State) :
  getReferenceFromServerId id st = (Returns e, st') →
  getEntry st id = Some e ∧ st' = st.
Proof.
  unfold getReferenceFromServerId.
  destruct (getEntry st id); [|done]. by intros [= -> ->].
Qed.

Lemma getLogId_Returns (f : Entry → Z) (id : ServerId) (st : State) (x : Z)
    (st' : State) :
  (e ← getReferenceFromServerId id; mret (f e)) st = (Returns x, st') →
  ∃ e, getEntry st id = Some e ∧ x = f e ∧ st' = st.
Proof.
  intros (e & s & [He ->]%getReference_Returns & [= <- <-])%bind_Returns.
  eauto.
Qed.

Lemma log_EnlistServer_complete (id : ServerId) (mask : ServiceMask)
    (readSpeed : Z) (locator : string) (entryId : Z) (st : State)
    (id' : ServerId) (st' : State) :
  EnlistServer_complete id mask readSpeed locator entryId st
  = (Returns id', st') →
  id' = id
  ∧ logCabin st'
    = logged (ServerInformation "ServerEnlisted" id mask readSpeed locator)
        [entryId] (logCabin st)
  ∧ serverInfoLogId <$> getEntry st' id
    = Some (expectedEntryId (logCabin st)).
Proof.
  unfold EnlistServer_complete. intros H.
  apply bind_Returns in H as ([] & s1 & H1 & H).
  apply bind_Returns in H as (e & s2 & [_ ->]%getReference_Returns & H).
  apply bind_Returns in H as ([] & s3 & H3 & H).
  apply bind_Returns in H as (newEntryId & s4 & H4 & H).
  apply bind_Returns in H as ([] & s5 & H5 & H).
  injection H as <- <-.
  pose proof (sameLog_run _ _ _ _ (sameLog_add _ _ _ _) H1) as L1.
  assert (L3 : logCabin s3 = logCabin s1).
  { destruct (isBackup e); cbn [when] in H3.
    - apply (sameLog_run _ _ _ _ sameLog_createReplicationGroup H3).
    - by injection H3 as <-. }
  rewrite run_appendProtoBuf in H4. injection H4 as <- <-.
  apply updateEntry_Returns in H5 as (e4 & Hget4 & ->).
  split; [done|]. split.
  - state_simpl. unfold exec, appendProtoBuf, logged. state_simpl.
    by rewrite L3, L1.
  - unfold getEntry. state_simpl.
    rewrite (findEntry_setEntry _ _ e4 _ Hget4)
      by apply (findEntry_serverId _ _ _ Hget4).
    simpl. by rewrite L3, L1.
Qed.

Lemma log_EnlistServer_execute (mask : ServiceMask) (readSpeed : Z)
    (locator : string) (st : State) (id : ServerId) (st' : State) :
  EnlistServer_execute mask readSpeed locator st = (Returns id, st') →
  logCabin st'
  = logged (ServerInformation "ServerEnlisted" id mask readSpeed locator)
      [expectedEntryId (logCabin st)]
      (logged (ServerInformation "ServerEnlisting" id mask readSpeed locator)
         [] (logCabin st))
  ∧ serverInfoLogId <$> getEntry st' id
    = Some (u64 (expectedEntryId (logCabin st) + 1)).
Proof.
  unfold EnlistServer_execute. intros H.
  apply bind_Returns in H as (id0 & s1 & H1 & H).
  apply bind_Returns in H as (entryId & s2 & H2 & H).
  apply bind_Returns in H as ([] & s3 & H3 & H).
  pose proof (sameLog_run _ _ _ _ sameLog_generateUniqueId H1) as L1.
  rewrite run_appendProtoBuf in H2. injection H2 as <- <-.
  pose proof (sameLog_run _ _ _ _ (sameLog_updateEntry _ _) H3) as L3.
  apply log_EnlistServer_complete in H as (<- & L & Hid).
  rewrite L, Hid, L3, L1.
  unfold exec, appendProtoBuf, logged. state_simpl. by rewrite L1.
Qed.

Lemma log_ServerDown_complete (id : ServerId) (entryId : Z)
    (st st' : State) :
  ServerDown_complete id entryId st = (Returns tt, st') →
  ∃ e, getEntry st id = Some e
       ∧ logCabin st'
         = invalidated
             ([serverInfoLogId e; entryId] ++
              if serverUpdateLogId e =? 0 then [] else [serverUpdateLogId e])
             (logCabin st).
Proof.
  unfold ServerDown_complete, getServerInfoLogId, getServerUpdateLogId.
  intros H.
  apply bind_Returns in H as (x & s1 & (e1 & He1 & -> & ->)%getLogId_Returns & H).
  apply bind_Returns in H as (y & s2 & (e2 & He2 & -> & ->)%getLogId_Returns & H).
  apply bind_Returns in H as (e & s3 & [He ->]%getReference_Returns & H).
  assert (e1 = e) as -> by congruence. assert (e2 = e) as -> by congruence.
  apply bind_Returns in H as ([] & s4 & H4 & H).
  apply bind_Returns in H as ([] & s5 & H5 & H).
  apply bind_Returns in H as ([] & s6 & H6 & H).
  apply bind_Returns in H as ([] & s7 & H7 & H).
  apply bind_Returns in H as ([] & s8 & H8 & H).
  pose proof (sameLog_run _ _ _ _ (sameLog_crashed _) H4) as L4.
  assert (L5 : logCabin s5 = logCabin s4).
  { destruct (negb (has (services e) MASTER_SERVICE)); cbn [when] in H5.
    - apply (sameLog_run _ _ _ _ (sameLog_remove _) H5).
    - by injection H5 as <-. }
  assert (L6 : logCabin s6 = logCabin s5)
    by (unfold startMasterRecovery, modify in H6; by injection H6 as <-).
  pose proof (sameLog_run _ _ _ _ (sameLog_removeReplicationGroup _) H7) as L7.
  pose proof (sameLog_run _ _ _ _ sameLog_createReplicationGroup H8) as L8.
  unfold invalidate, modify in H. injection H as <-.
  exists e. split; [done|]. unfold invalidated. state_simpl.
  by rewrite L8, L7, L6, L5, L4.
Qed.

Lemma log_serverDown_locked (id : ServerId) (st st' : State) :
  serverDown_locked id st = (Returns tt, st') →
  ∃ e, getEntry st id = Some e
       ∧ logCabin st'
         = invalidated
             ([serverInfoLogId e; expectedEntryId (logCabin st)] ++
              if serverUpdateLogId e =? 0 then [] else [serverUpdateLogId e])
             (logged (ServerDownRecord "ServerDown" id) [] (logCabin st)).
Proof.
  unfold serverDown_locked, ServerDown_execute. intros H.
  apply bind_Returns in H as ([] & s1 & H1 & H).
  apply bind_Returns in H1 as (entryId & s0 & H0 & H1).
  rewrite run_appendProtoBuf in H0. injection H0 as <- <-.
  apply log_ServerDown_complete in H1 as (e & He & L).
  pose proof (sameLog_run _ _ _ _ sameLog_pushUpdate H) as Lp.
  exists e. split; [exact He|]. by rewrite Lp, L.
Qed.

(** X18.  The records [enlistServer] leaves in the log, for a
    [replacesId] that is not in the list and in any state reached by calls
    of normal operation: the call returns, and the log has gained exactly
    two records for the new id, [ServerEnlisting] and then [ServerEnlisted],
    under consecutive entry ids; the only entry invalidated is the first of
    the two; and the entry of the new server remembers the id of the second
    as its [serverInfoLogId]. *)
Theorem enlistServer_log_records (log : DurableLog) (calls : list Call)
    (replacesId : ServerId) (mask : ServiceMask) (readSpeed : Z)
    (locator : string) :
  Forall normalCall calls →
  Z.of_nat (length calls) + 1 < 2 ^ 32 →
  let st := run calls (initialState log) in
  getEntry st replacesId = None →
  let st' := exec (enlistServer replacesId mask readSpeed locator) st in
  let a := expectedEntryId (logCabin st) in
  ∃ newId,
    outcome (enlistServer replacesId mask readSpeed locator) st
    = Returns newId
    ∧ logEntries (logCabin st')
      = logEntries (logCabin st) ++
        [(a, ServerInformation "ServerEnlisting" newId mask readSpeed locator);
         (u64 (a + 1),
          ServerInformation "ServerEnlisted" newId mask readSpeed locator)]
    ∧ invalidatedIds (logCabin st') = invalidatedIds (logCabin st) ++ [a]
    ∧ expectedEntryId (logCabin st') = u64 (u64 (a + 1) + 1)
    ∧ serverInfoLogId <$> getEntry st' newId = Some (u64 (a + 1)).
Proof.
  intros Hall Hfit st Hget st' a.
  set (n := Z.of_nat (length calls)) in *.
  assert (H : inv n st) by (apply inv_reachable; [done|lia]).
  destruct (run_EnlistServer_execute n st mask readSpeed locator H Hfit)
    as (lD & later & st2 & Hrun2 & _).
  set (newId := allocId (serverList st)) in *.
  destruct (log_EnlistServer_execute _ _ _ _ _ _ Hrun2) as [L Hid].
  destruct (run_pushUpdate_any st2) as (bs & Hpush & _ & _ & _ & Hlist).
  assert (Hrun : enlistServer replacesId mask readSpeed locator st
                 = (Returns newId, exec pushUpdate st2)).
  { unfold enlistServer. rewrite run_getState. unfold iget. rewrite Hget.
    rewrite bool_decide_false by (by intros [? ?]). cbn [when].
    rewrite run_ret, run_bind, Hrun2, run_bind, Hpush. reflexivity. }
  pose proof (sameLog_pushUpdate st2) as Lp. unfold sameLog in Lp.
  exists newId. unfold st', outcome, exec. rewrite Hrun. cbn [fst snd].
  fold (exec pushUpdate st2). rewrite Lp, L. unfold logged. simpl.
  split; [done|]. split; [by rewrite <- app_assoc|].
  split; [by rewrite app_nil_r|]. split; [done|].
  unfold getEntry in *. by rewrite Hlist.
Qed.

Lemma enlistServer_log_records_witness :
  ∃ newId,
    outcome (enlistServer noServer (maskOf [MASTER_SERVICE]) 0 "m1")
      (run [CallEnlistServer noServer (maskOf [BACKUP_SERVICE]) 100 "b1"]
         (initialState emptyLog))
    = Returns newId.
Proof.
  destruct (enlistServer_log_records emptyLog
    [CallEnlistServer noServer (maskOf [BACKUP_SERVICE]) 100 "b1"]
    noServer (maskOf [MASTER_SERVICE]) 0 "m1"
    ltac:(repeat constructor) ltac:(vm_compute; reflexivity)
    ltac:(vm_compute; reflexivity))
    as (newId & Hout & _).
  exists newId. exact Hout.
Defined.

(** X19.  The records [serverDown] leaves in the log, for a server that
    is in the list and in any state reached by calls of normal operation:
    the call returns; the log has gained exactly one record, [ServerDown]
    for the id; and the entries invalidated are, in this order, the one
    the server's entry remembers as its [serverInfoLogId], the new record
    itself, and the one remembered as [serverUpdateLogId] unless that
    is 0. *)
Theorem serverDown_log_records (log : DurableLog) (calls : list Call)
    (id : ServerId) (e : Entry) :
  Forall normalCall calls →
  Z.of_nat (length calls) < 2 ^ 32 →
  let st := run calls (initialState log) in
  getEntry st id = Some e →
  let st' := exec (serverDown id) st in
  let a := expectedEntryId (logCabin st) in
  outcome (serverDown id) st = Returns tt
  ∧ logEntries (logCabin st')
    = logEntries (logCabin st) ++ [(a, ServerDownRecord "ServerDown" id)]
  ∧ invalidatedIds (logCabin st')
    = invalidatedIds (logCabin st) ++
      [serverInfoLogId e; a] ++
      (if serverUpdateLogId e =? 0 then [] else [serverUpdateLogId e])
  ∧ expectedEntryId (logCabin st') = u64 (a + 1).
Proof.
  intros Hall Hfit st Hget st' a.
  assert (H : inv (Z.of_nat (length calls)) st) by (by apply inv_reachable).
  destruct (run_serverDown_locked _ st id e H Hget)
    as (removal & bs & st1 & Hrun & _).
  destruct (log_serverDown_locked id st st1 Hrun) as (e' & He' & L).
  assert (e' = e) as -> by congruence.
  unfold st', outcome, exec, serverDown. rewrite Hrun. cbn [fst snd].
  rewrite L. unfold invalidated, logged. simpl.
  split; [done|]. split; [done|]. split; [|done].
  by rewrite app_nil_r.
Qed.

Lemma serverDown_log_records_witness :
  outcome (serverDown (mkServerId 1 0))
    (run [CallEnlistServer noServer (maskOf [BACKUP_SERVICE]) 100 "b1"]
       (initialState emptyLog))
  = Returns tt.
Proof.
  destruct (getEntry
              (run [CallEnlistServer noServer (maskOf [BACKUP_SERVICE])
                      100 "b1"] (initialState emptyLog))
              (mkServerId 1 0)) as [e|] eqn:He.
  - refine (proj1 (serverDown_log_records emptyLog
      [CallEnlistServer noServer (maskOf [BACKUP_SERVICE]) 100 "b1"]
      (mkServerId 1 0) e _ _ He)).
    + repeat constructor.
    + vm_compute; reflexivity.
  - vm_compute in He. discriminate He.
Defined.



(** ** [getWork] scans the whole list *)

(** The test of [getWork] for "update required", on a server it can
    update. *)
Definition needsUpdate (st : State) (e : Entry) : bool :=
  updatable e
  && (negb (updateVersion e =? version st)
      && (updateVersion e =? verifiedVersion e)).

Lemma packWork_outcome (i : nat) (e : Entry) (st : State)
    (r : Result (option UpdaterWorkUnit)) (st' : State) :
  packWork i e st = (r, st') →
  match r with
  | Returns (Some _) => True
  | Returns None => False
  | Throws ex => ex = AssertionFailure ∧ updates st' = []
  end.
Proof.
  unfold packWork, takeWork. rewrite run_getState.
  destruct (verifiedVersion e =? UNINITIALIZED_VERSION).
  - destruct (last (updates st)) as [b|] eqn:Hlast.
    + destruct (full b); unfold_monad; by intros [= <- <-].
    + intros [= <- <-]. split; [done|].
      by destruct (updates st) using rev_ind; [|rewrite last_snoc in Hlast].
  - destruct (head (updates st)) as [b0|] eqn:Hhead.
    + unfold_monad; by intros [= <- <-].
    + intros [= <- <-]. split; [done|]. by destruct (updates st).
Qed.

Lemma run_scanFailed_state (n : Z) (st : State) :
  ∃ st', scanFailed n st = (Returns None, st')
         ∧ scanKept st st'
         ∧ noWorkFoundForEpoch (lastScan st') = version st.
Proof.
  unfold scanFailed. rewrite run_bind.
  assert (∃ s1, when (n =? 0)
                  (modify (λ st, set_minConfirmedVersion (version st) st);;
                   pruneUpdates) st = (Returns tt, s1)
                ∧ scanKept st s1) as (s1 & -> & Hk).
  { destruct (n =? 0); cbn [when].
    - rewrite run_modify.
      destruct (run_pruneUpdates (set_minConfirmedVersion (version st) st))
        as [Hr Hk].
      eexists. split; [exact Hr|]. etransitivity; [|exact Hk].
      by repeat split.
    - by exists st. }
  rewrite run_modify. eexists. split; [reflexivity|].
  destruct Hk as (Hl & Hv & Hn & Hs).
  unfold set_noWorkFoundForEpoch. state_simpl. by repeat split.
Qed.

Lemma getWorkScan_scan (fuel : nat) :
  ∀ (k i : nat) (n : Z) (st : State) r st',
    (1 ≤ k ≤ fuel)%nat →
    (i < length (serverList st))%nat →
    ((i + k) mod length (serverList st))%nat = searchIndex (lastScan st) →
    (∀ k', (0 < k' < k)%nat →
           ((i + k') mod length (serverList st))%nat
           ≠ searchIndex (lastScan st)) →
    getWorkScan fuel i n st = (r, st') →
    match r with
    | Returns (Some _) =>
        ∃ k' p e, (k' < k)%nat
          ∧ serverList st !! ((i + k') mod length (serverList st))%nat = Some p
          ∧ entry p = Some e ∧ needsUpdate st e = true
    | Returns None =>
        (∀ k' p e, (k' < k)%nat →
           serverList st !! ((i + k') mod length (serverList st))%nat = Some p →
           entry p = Some e → needsUpdate st e = false)
        ∧ scanKept st st'
        ∧ noWorkFoundForEpoch (lastScan st') = version st
    | Throws ex =>
        ex = AssertionFailure ∧ updates st' = []
        ∧ ∃ k' p e, (k' < k)%nat
            ∧ serverList st !! ((i + k') mod length (serverList st))%nat = Some p
            ∧ entry p = Some e ∧ needsUpdate st e = true
    end.
Proof.
  induction fuel as [|fuel IH]; intros k i n st r st' Hk Hi Hend Hmid Hrun;
    [lia|].
  set (len := length (serverList st)) in *.
  assert (Hi0 : ((i + 0) mod len)%nat = i)
    by (rewrite Nat.add_0_r; by apply Nat.mod_small).
  cbn [getWorkScan] in Hrun. rewrite run_getState in Hrun.
  destruct (lookup_lt_is_Some_2 (serverList st) i Hi) as [p Hp].
  rewrite Hp in Hrun. cbv zeta in Hrun. fold len in Hrun.
  set (i' := ((i + 1) mod len)%nat) in Hrun.
  assert (Hi' : (i' < len)%nat) by (apply Nat.mod_upper_bound; lia).
  assert (Hshift : ∀ k', ((i' + k') mod len)%nat = ((i + S k') mod len)%nat).
  { intros k'. unfold i'. rewrite Nat.Div0.add_mod_idemp_l. f_equal. lia. }
  (* the rest of the scan, once slot [i] has been passed over *)
  assert (Hnext : ∀ m s1,
    scanKept st s1 →
    (∀ e, entry p = Some e → needsUpdate st e = false) →
    (when (i' =? 0)%nat scanWrapped;;
     if (i' =? searchIndex (lastScan st))%nat then scanFailed m
     else getWorkScan fuel i' m) s1 = (r, st') →
    match r with
    | Returns (Some _) =>
        ∃ k' p e, (k' < k)%nat
          ∧ serverList st !! ((i + k') mod len)%nat = Some p
          ∧ entry p = Some e ∧ needsUpdate st e = true
    | Returns None =>
        (∀ k' p e, (k' < k)%nat →
           serverList st !! ((i + k') mod len)%nat = Some p →
           entry p = Some e → needsUpdate st e = false)
        ∧ scanKept st st'
        ∧ noWorkFoundForEpoch (lastScan st') = version st
    | Throws ex =>
        ex = AssertionFailure ∧ updates st' = []
        ∧ ∃ k' p e, (k' < k)%nat
            ∧ serverList st !! ((i + k') mod len)%nat = Some p
            ∧ entry p = Some e ∧ needsUpdate st e = true
    end).
  { intros m s1 Hk1 Hhere H1. rewrite run_bind in H1.
    assert (∃ s2, when (i' =? 0)%nat scanWrapped s1 = (Returns tt, s2)
                  ∧ scanKept st s2) as (s2 & Hw & Hk2).
    { destruct (i' =? 0)%nat; cbn [when].
      - destruct (run_scanWrapped s1) as [Hr Hk'].
        eexists. split; [exact Hr|]. by etransitivity.
      - by exists s1. }
    rewrite Hw in H1. destruct Hk2 as (Hl2 & Hv2 & Hn2 & Hs2).
    destruct (i' =? searchIndex (lastScan st))%nat eqn:Hstop.
    - apply Nat.eqb_eq in Hstop.
      assert (k = 1)%nat as ->.
      { destruct (decide (k = 1)%nat) as [|Hne]; [done|].
        destruct (Hmid 1%nat); [lia|done]. }
      destruct (run_scanFailed_state m s2) as (s3 & Hf & Hk3 & Hepoch).
      rewrite Hf in H1. injection H1 as <- <-.
      split; [|split].
      + intros k' q e Hlt Hq He. assert (k' = 0)%nat as -> by lia.
        rewrite Hi0, Hp in Hq. injection Hq as <-. by apply Hhere.
      + etransitivity; [|exact Hk3]. by repeat split.
      + by rewrite Hepoch.
    - apply Nat.eqb_neq in Hstop.
      assert (Hk2 : (2 ≤ k)%nat).
      { destruct (decide (k = 1)%nat) as [->|]; [|lia]. by destruct Hstop. }
      assert (Hlen2 : length (serverList s2) = len) by (by rewrite Hl2).
      specialize (IH (k - 1)%nat i' m s2 r st').
      rewrite Hlen2, Hs2, Hl2, Hv2 in IH.
      assert (Hres := IH ltac:(lia) Hi'
        ltac:(rewrite Hshift, <- Hend; f_equal; lia)
        ltac:(intros k' Hk'; rewrite Hshift; apply Hmid; lia) H1).
      clear IH.
      assert (Hunfold : ∀ e, needsUpdate s2 e = needsUpdate st e)
        by (intros e; unfold needsUpdate; by rewrite Hv2).
      destruct r as [[wu|]|ex].
      + destruct Hres as (k' & q & e & Hlt & Hq & He & Hneed).
        exists (S k'), q, e. rewrite <- Hshift, <- Hunfold.
        split; [lia|done].
      + destruct Hres as (Hnone & Hkept & Hepoch). split; [|split].
        * intros k' q e Hlt Hq He. destruct k' as [|k'].
          -- rewrite Hi0, Hp in Hq. injection Hq as <-. by apply Hhere.
          -- rewrite <- Hunfold. rewrite <- Hshift in Hq.
             apply (Hnone k' q e); [lia|done|done].
        * etransitivity; [|exact Hkept]. by repeat split.
        * done.
      + destruct Hres as (-> & Hempty & k' & q & e & Hlt & Hq & He & Hneed).
        split; [done|]. split; [done|].
        exists (S k'), q, e. rewrite <- Hshift, <- Hunfold.
        split; [lia|done]. }
  destruct (entry p) as [e|] eqn:He; [|by apply (Hnext n st)].
  destruct (updatable e) eqn:Hu.
  2:{ apply (Hnext n st); [done| |done].
      intros e' [= <-]. unfold needsUpdate. by rewrite Hu. }
  rewrite run_bind in Hrun.
  assert (∃ s1,
    when (verifiedVersion e <? minVersion (lastScan st))
      (modify (set_minVersion (verifiedVersion e))) st = (Returns tt, s1)
    ∧ scanKept st s1 ∧ updates s1 = updates st) as (s1 & Hw & Hk1 & Hu1).
  { destruct (verifiedVersion e <? minVersion (lastScan st)); cbn [when];
      eexists; (split; [reflexivity|]); by repeat split. }
  rewrite Hw in Hrun.
  destruct (negb (updateVersion e =? version st)
            && (updateVersion e =? verifiedVersion e)) eqn:Hc.
  - assert (Hneed : ∃ k' p e, (k' < k)%nat
              ∧ serverList st !! ((i + k') mod len)%nat = Some p
              ∧ entry p = Some e ∧ needsUpdate st e = true).
    { exists 0%nat, p, e. rewrite Hi0. unfold needsUpdate.
      rewrite Hu, Hc. split; [lia|done]. }
    pose proof (packWork_outcome _ _ _ _ _ Hrun) as Hout.
    destruct r as [[wu|]|ex]; [done|done|].
    destruct Hout as [-> Hempty]. done.
  - apply (Hnext (n + 1) s1); [done| |done].
    intros e' [= <-]. unfold needsUpdate. by rewrite Hu, Hc.
Qed.

(** X21.  [getWork] looks at every slot before it gives up.  For a list
    whose scan position is inside the list, and unless the heuristic at
    the head of the method applies (a server is updating and the last
    scan for this version found nothing): when some server of the list
    needs an update (it is up, offers the membership service, has no
    update in flight and its [updateVersion] is not the version of the
    list), [getWork] does not return [false]; it hands out a work unit,
    unless it comes to read the last or first element of an empty update
    buffer, where the method is aborted.  When no server needs an update,
    [getWork] returns [false], leaves list and version as they are, and
    records the version in [lastScan.noWorkFoundForEpoch]. *)
Theorem getWork_scans_whole_list (st : State) :
  (searchIndex (lastScan st) < length (serverList st))%nat →
  (0 <? numUpdatingServers st)
  && (noWorkFoundForEpoch (lastScan st) =? version st) = false →
  let st' := exec getWork st in
  ((∃ j p e, serverList st !! j = Some p ∧ entry p = Some e
             ∧ needsUpdate st e = true) →
   (∃ wu, outcome getWork st = Returns (Some wu))
   ∨ (outcome getWork st = Throws AssertionFailure ∧ updates st' = []))
  ∧ ((∀ j p e, serverList st !! j = Some p → entry p = Some e →
               needsUpdate st e = false) →
     outcome getWork st = Returns None
     ∧ serverList st' = serverList st
     ∧ version st' = version st
     ∧ noWorkFoundForEpoch (lastScan st') = version st).
Proof.
  intros Hs Hheur st'.
  set (len := length (serverList st)) in *.
  set (s := searchIndex (lastScan st)) in *.
  assert (Hrun : getWork st = getWorkScan len s 0 st).
  { unfold getWork. rewrite run_getState. fold len s. rewrite Hheur.
    destruct (len =? 0)%nat eqn:Hlen; [|done].
    apply Nat.eqb_eq in Hlen. lia. }
  destruct (getWorkScan len s 0 st) as [r st2] eqn:Hscan.
  assert (Hst' : st' = st2) by (unfold st', exec; by rewrite Hrun).
  assert (Hout : outcome getWork st = r) by (unfold outcome; by rewrite Hrun).
  assert (Hk : ∀ j, (j < len)%nat →
            ((s + (j + len - s) mod len) mod len)%nat = j).
  { intros j Hj. rewrite Nat.Div0.add_mod_idemp_r.
    replace (s + (j + len - s))%nat with (j + 1 * len)%nat by lia.
    rewrite Nat.Div0.mod_add. by apply Nat.mod_small. }
  pose proof (getWorkScan_scan len len s 0 st r st2 ltac:(lia) Hs) as Hres.
  fold len s in Hres.
  assert (Hend : ((s + len) mod len)%nat = s).
  { replace (s + len)%nat with (s + 1 * len)%nat by lia.
    rewrite Nat.Div0.mod_add. by apply Nat.mod_small. }
  assert (Hmid : ∀ k', (0 < k' < len)%nat → ((s + k') mod len)%nat ≠ s).
  { intros k' Hk' Heq.
    destruct (decide (s + k' < len)%nat) as [Hlt|Hge].
    - rewrite Nat.mod_small in Heq by done. lia.
    - replace (s + k')%nat with ((s + k' - len) + 1 * len)%nat in Heq by lia.
      rewrite Nat.Div0.mod_add, Nat.mod_small in Heq by lia. lia. }
  specialize (Hres Hend Hmid Hscan). rewrite Hout, Hst'. split.
  - intros (j & p & e & Hp & He & Hneed).
    pose proof (lookup_lt_Some _ _ _ Hp) as Hj. fold len in Hj.
    destruct r as [[wu|]|ex].
    + left. by exists wu.
    + destruct Hres as (Hnone & _).
      rewrite (Hnone ((j + len - s) mod len)%nat p e) in Hneed; [done| |by rewrite Hk|done].
      apply Nat.mod_upper_bound. lia.
    + right. destruct Hres as (-> & Hempty & _). done.
  - intros Hnone. destruct r as [[wu|]|ex].
    + destruct Hres as (k' & p & e & _ & Hp & He & Hneed).
      by rewrite (Hnone _ p e Hp He) in Hneed.
    + destruct Hres as (_ & (Hl & Hv & _) & Hepoch). done.
    + destruct Hres as (_ & _ & k' & p & e & _ & Hp & He & Hneed).
      by rewrite (Hnone _ p e Hp He) in Hneed.
Qed.

Lemma getWork_scans_whole_list_witness :
  (∃ wu, outcome getWork crashedMaster = Returns (Some wu))
  ∨ (outcome getWork crashedMaster = Throws AssertionFailure
     ∧ updates (exec getWork crashedMaster) = []).
Proof.
  refine (proj1 (getWork_scans_whole_list crashedMaster _ _) _).
  - vm_compute. repeat constructor.
  - vm_compute. reflexivity.
  - destruct (serverList crashedMaster !! 2%nat) as [p|] eqn:Hp.
    + destruct (entry p) as [e|] eqn:He.
      * exists 2%nat, p, e. split; [exact Hp|]. split; [exact He|].
        vm_compute in Hp. injection Hp as <-.
        vm_compute in He. injection He as <-.
        vm_compute. reflexivity.
      * vm_compute in Hp. injection Hp as <-. vm_compute in He.
        discriminate He.
    + vm_compute in Hp. discriminate Hp.
Defined.

(** ** A master that goes down *)

Lemma pushUpdate_fields (st : State) :
  recoveryCalls (exec pushUpdate st) = recoveryCalls st
  ∧ numberOfMasters (exec pushUpdate st) = numberOfMasters st
  ∧ numberOfBackups (exec pushUpdate st) = numberOfBackups st.
Proof. unfold exec, pushUpdate. by case_decide. Qed.

(** X22.  The two steps in which a master leaves the list, with every
    entry of the list in the slot its id names.  [serverDown] of a server
    that is up and offers the MASTER service returns and keeps the server
    in the list, as CRASHED and otherwise unchanged up to its replication
    id; [masterCount] drops by one and [startMasterRecovery] has been
    called once more, with the entry as it was.  [removeAfterRecovery]
    then returns and the id is no longer found.  Over both calls the rows
    published are the rows that were pending, the CRASHED row of the
    server, rows of other servers, and last the DOWN row of the server. *)
Theorem master_down_then_removed (st : State) (id : ServerId) (e : Entry) :
  entriesInPlace (serverList st) →
  getEntry st id = Some e →
  status e = UP →
  has (services e) MASTER_SERVICE = true →
  let st1 := exec (serverDown id) st in
  let st2 := exec (removeAfterRecovery id) st1 in
  outcome (serverDown id) st = Returns tt
  ∧ (∃ e1, getEntry st1 id = Some e1
           ∧ set_replicationId 0 e1 = set_replicationId 0 (set_status CRASHED e)
           ∧ outcome (removeAfterRecovery id) st1 = Returns tt
           ∧ getEntry st2 id = None
           ∧ ∃ bs rows,
               updates st2 = updates st ++ bs
               ∧ concat ((λ b, server (incremental b)) <$> bs)
                 = server (update st)
                   ++ Entry_serialize (set_status CRASHED e) :: rows
                   ++ [Entry_serialize (set_status DOWN e1)]
               ∧ (∀ row, row ∈ rows → pb_server_id row ≠ id)
               ∧ server (update st2) = [])
  ∧ masterCount st1 = u32 (masterCount st - 1)
  ∧ recoveryCalls st1 = recoveryCalls st ++ [e]
  ∧ recoveryCalls st2 = recoveryCalls st1.
Proof.
  intros Hin Hget Hup Hm st1 st2.
  assert (Hid : serverId e = id) by (by eapply findEntry_serverId).
  assert (Hnd : status e ≠ DOWN) by (by rewrite Hup).
  set (rec := ServerDownRecord "ServerDown" id).
  set (s0 := exec (appendProtoBuf rec []) st).
  destruct (run_ServerDown_complete s0 id e (expectedEntryId (logCabin st))
              Hin Hget Hnd) as (stG & HrunG & (ρ & rows & r' & HstG & Hrows)).
  set (sC := exec (invalidate _) stG) in HrunG.
  destruct (run_pushUpdate_any sC) as (bs1 & Hpush1 & Hups1 & Hcat1 & Hpend1
                                       & Hlist1).
  assert (Hrun1 : serverDown_locked id st = (Returns tt, exec pushUpdate sC)).
  { unfold serverDown_locked, ServerDown_execute.
    rewrite run_bind, run_bind, (run_appendProtoBuf _ _ st).
    fold rec s0. rewrite HrunG. exact Hpush1. }
  assert (Hst1 : st1 = exec pushUpdate sC)
    by (unfold st1, exec at 1, serverDown; by rewrite Hrun1).
  assert (Hdowned : downedState id e s0
                    = set_recoveryCalls (recoveryCalls st ++ [e])
                        (crashedState id e s0)).
  { unfold downedState. by rewrite Hup, Hm. }
  rewrite Hdowned in HstG, Hrows.
  assert (HgetD : findEntry (serverList (crashedState id e s0)) id
                  = Some (set_status CRASHED e))
    by (by apply (getEntry_crashedState s0 id e)).
  set (e1 := match ρ id with
             | Some r => set_replicationId r (set_status CRASHED e)
             | None => set_status CRASHED e
             end).
  assert (HlistC : serverList sC
                   = updateRepl ρ (serverList (crashedState id e s0))).
  { unfold sC, exec, invalidate, modify. rewrite HstG. reflexivity. }
  assert (Hget1 : getEntry st1 id = Some e1).
  { unfold getEntry. rewrite Hst1, Hlist1, HlistC, findEntry_updateRepl.
    by rewrite HgetD. }
  assert (Hstat1 : status e1 = CRASHED) by (unfold e1; by destruct (ρ id)).
  assert (HpendC : server (update sC)
                   = server (update st)
                     ++ Entry_serialize (set_status CRASHED e) :: rows).
  { unfold sC, exec, invalidate, modify. rewrite HstG.
    unfold crashedState. state_simpl. by rewrite <- app_assoc. }
  (* removeAfterRecovery *)
  set (sR := removedState id e1 st1).
  destruct (run_pushUpdate_any sR) as (bs2 & Hpush2 & Hups2 & Hcat2 & Hpend2
                                       & Hlist2).
  assert (Hrun2 : removeAfterRecovery id st1
                  = (Returns tt, exec pushUpdate sR)).
  { unfold removeAfterRecovery.
    rewrite run_bind, (run_remove_CRASHED _ _ e1 Hget1 Hstat1).
    exact Hpush2. }
  assert (Hst2 : st2 = exec pushUpdate sR)
    by (unfold st2, exec at 1; by rewrite Hrun2).
  split; [unfold outcome, serverDown; by rewrite Hrun1|]. split.
  { exists e1. split; [done|]. split; [unfold e1; by destruct (ρ id)|].
    split; [unfold outcome; by rewrite Hrun2|]. split.
    { unfold getEntry. rewrite Hst2, Hlist2. unfold sR, removedState.
      state_simpl. apply findEntry_setEntry_None. }
    exists (bs1 ++ bs2), rows. split; [|split; [|split]].
    - rewrite Hst2, Hups2. unfold sR, removedState. state_simpl.
      rewrite Hst1, Hups1. unfold sC, exec, invalidate, modify.
      rewrite HstG. state_simpl. by rewrite <- app_assoc.
    - rewrite fmap_app, concat_app, Hcat1, Hcat2, HpendC.
      unfold sR, removedState. state_simpl. rewrite Hst1, Hpend1.
      simpl. by rewrite <- app_assoc.
    - intros row Hrow Heq. destruct (Hrows row Hrow) as (e' & r & He' & Hs' & _).
      rewrite Heq in He'.
      change (findEntry (serverList (crashedState id e s0)) id = Some e')
        in He'.
      rewrite HgetD in He'. injection He' as <-. done.
    - by rewrite Hst2, Hpend2. }
  destruct (pushUpdate_fields sC) as (Hr1 & Hm1 & _).
  destruct (pushUpdate_fields sR) as (Hr2 & _).
  split; [|split].
  - unfold masterCount. rewrite Hst1, Hm1.
    unfold sC, exec, invalidate, modify. rewrite HstG.
    unfold crashedState, isMaster. state_simpl. by rewrite Hup, Hm.
  - rewrite Hst1, Hr1. unfold sC, exec, invalidate, modify. by rewrite HstG.
  - by rewrite Hst2, Hr2.
Qed.

Lemma master_down_then_removed_witness :
  let st := run [CallEnlistServer noServer (maskOf [MASTER_SERVICE]) 0 "m1"]
              (initialState emptyLog) in
  outcome (serverDown (mkServerId 1 0)) st = Returns tt.
Proof.
  intros st.
  destruct (getEntry st (mkServerId 1 0)) as [e|] eqn:He.
  - refine (proj1 (master_down_then_removed st (mkServerId 1 0) e _ He _ _)).
    + apply entriesInPlace_check. vm_compute. reflexivity.
    + vm_compute in He. injection He as <-. reflexivity.
    + vm_compute in He. injection He as <-. vm_compute. reflexivity.
  - vm_compute in He. discriminate He.
Defined.

End CSLProperties.

Module BackupSelectorProperties.
Import BackupSelector.

Local Open Scope nat_scope.

(** ** Swapping two elements of a vector *)

Lemma insert_head_Permutation {A} (l : list A) (j : nat) (x b : A) :
  l !! j = Some b → b :: <[j := x]> l ≡ₚ x :: l.
Proof.
  revert j. induction l as [|y l IH]; intros j Hj; [done|].
  destruct j as [|j]; simpl in *.
  - injection Hj as ->. apply perm_swap.
  - rewrite (perm_swap y x l), <- (IH j Hj). apply perm_swap.
Qed.

Lemma swap_Permutation {A} (l : list A) (i j : nat) (a b : A) :
  l !! i = Some a → l !! j = Some b →
  <[j := a]> (<[i := b]> l) ≡ₚ l.
Proof.
  revert i j. induction l as [|y l IH]; intros i j Hi Hj; [done|].
  destruct i as [|i], j as [|j]; simpl in *.
  - injection Hi as ->. by injection Hj as ->.
  - injection Hi as ->. by apply insert_head_Permutation.
  - injection Hj as ->. by apply insert_head_Permutation.
  - by rewrite (IH i j Hi Hj).
Qed.

(** ** One call *)

Lemma wellFormed_length (bs : State) :
  wellFormed bs →
  length (hostsOrder bs) = length (hosts bs) ∧ 0 < length (hosts bs).
Proof.
  intros [Hne Hperm]. split.
  - by rewrite Hperm, length_seq.
  - destruct (hosts bs); [done|simpl; lia].
Qed.

Lemma cursor_lt (bs : State) :
  wellFormed bs → cursor bs < length (hostsOrder bs).
Proof.
  intros [Hlen Hpos]%wellFormed_length. unfold cursor. case_decide; lia.
Qed.

Lemma getRandomHost_step (r : Z) (bs : State) :
  wellFormed bs →
  ∃ h bs',
    getRandomHost r bs = Some (h, bs')
    ∧ wellFormed bs'
    ∧ hosts bs' = hosts bs
    ∧ numUsedHosts bs' = S (cursor bs)
    ∧ length (hostsOrder bs') = length (hostsOrder bs)
    ∧ hostsOrder bs' !! cursor bs = Some h
    ∧ take (cursor bs) (hostsOrder bs') = take (cursor bs) (hostsOrder bs).
Proof.
  intros Hwf. pose proof (cursor_lt bs Hwf) as Hc.
  destruct (wellFormed_length bs Hwf) as [Hlen Hpos].
  destruct Hwf as [Hne Hperm].
  unfold getRandomHost. rewrite decide_False by (by intros ?%nil_length_inv).
  fold (cursor bs).
  set (j := cursor bs
            + Z.to_nat (r mod Z.of_nat (length (hostsOrder bs) - cursor bs))).
  assert (Hj : cursor bs ≤ j < length (hostsOrder bs)).
  { unfold j.
    pose proof (Z.mod_pos_bound r
                  (Z.of_nat (length (hostsOrder bs) - cursor bs))).
    lia. }
  destruct (lookup_lt_is_Some_2 (hostsOrder bs) (cursor bs) Hc) as [a Ha].
  destruct (lookup_lt_is_Some_2 (hostsOrder bs) j) as [b Hb]; [lia|].
  rewrite Ha, Hb. simpl. eexists _, _. split; [reflexivity|]. simpl.
  split; [|split; [done|split; [done|split; [|split]]]].
  - split; [done|]. simpl.
    etransitivity; [by apply (swap_Permutation _ _ _ _ _ Ha Hb)|done].
  - by rewrite !length_insert.
  - destruct (decide (j = cursor bs)) as [Heq|Hneq].
    + rewrite Heq in *. rewrite list_lookup_insert_eq
        by (by rewrite length_insert). congruence.
    + rewrite list_lookup_insert_ne by done.
      by rewrite list_lookup_insert_eq.
  - rewrite take_insert_ge by lia. by rewrite take_insert_ge.
Qed.

(** ** The calls up to the end of a round *)

Lemma getRandomHosts_round (rs : list Z) (bs : State) :
  wellFormed bs → rs ≠ [] →
  cursor bs + length rs ≤ length (hostsOrder bs) →
  ∃ hs bs',
    getRandomHosts rs bs = Some (hs, bs')
    ∧ wellFormed bs'
    ∧ hosts bs' = hosts bs
    ∧ numUsedHosts bs' = cursor bs + length rs
    ∧ length (hostsOrder bs') = length (hostsOrder bs)
    ∧ hs = take (length rs) (drop (cursor bs) (hostsOrder bs'))
    ∧ take (cursor bs) (hostsOrder bs') = take (cursor bs) (hostsOrder bs).
Proof.
  revert bs. induction rs as [|r rs IH]; intros bs Hwf Hne Hfit; [done|].
  destruct (getRandomHost_step r bs Hwf)
    as (h & bs1 & Hrun & Hwf1 & Hhosts1 & Hused1 & Hlen1 & Hh & Htake1).
  cbn [getRandomHosts]. rewrite Hrun. cbn [mbind option_bind].
  destruct rs as [|r' rs'].
  - exists [h], bs1. cbn [getRandomHosts mbind option_bind length].
    split; [done|]. split; [done|]. split; [done|].
    split; [lia|]. split; [done|]. split; [|done].
    by rewrite (drop_S _ h _ Hh).
  - assert (Hcur1 : cursor bs1 = S (cursor bs)).
    { unfold cursor at 1. rewrite Hused1, Hlen1. simpl in Hfit.
      rewrite decide_False by lia. done. }
    destruct (IH bs1 Hwf1) as
      (hs & bs2 & Hrun2 & Hwf2 & Hhosts2 & Hused2 & Hlen2 & Hhs & Htake2);
      [done | rewrite Hcur1, Hlen1; simpl in *; lia |].
    rewrite Hrun2. cbn [mbind option_bind]. exists (h :: hs), bs2.
    rewrite Hcur1 in *.
    assert (Hh2 : hostsOrder bs2 !! cursor bs = Some h).
    { rewrite <- (lookup_take_lt _ (S (cursor bs))) by lia.
      rewrite Htake2, lookup_take_lt by lia. done. }
    split; [done|]. split; [done|]. split; [congruence|].
    split; [simpl in *; lia|]. split; [congruence|]. split.
    + rewrite (drop_S _ h _ Hh2). simpl. by rewrite Hhs.
    + rewrite <- Htake1.
      assert (Ht : ∀ l : list nat,
                take (cursor bs) l = take (cursor bs) (take (S (cursor bs)) l))
        by (intros l; rewrite take_take; f_equal; lia).
      by rewrite (Ht (hostsOrder bs2)), Htake2, <- Ht.
Qed.

Lemma getRandomHosts_app (rs1 rs2 : list Z) (bs : State) :
  getRandomHosts (rs1 ++ rs2) bs
  = match getRandomHosts rs1 bs with
    | Some (h1, bs1) =>
        match getRandomHosts rs2 bs1 with
        | Some (h2, bs2) => Some (h1 ++ h2, bs2)
        | None => None
        end
    | None => None
    end.
Proof.
  revert bs. induction rs1 as [|r rs1 IH]; intros bs; simpl.
  - by destruct (getRandomHosts rs2 bs) as [[h2 bs2]|].
  - destruct (getRandomHost r bs) as [[h bs1]|]; simpl; [|done].
    rewrite IH. destruct (getRandomHosts rs1 bs1) as [[h1 bs2]|]; simpl; [|done].
    by destruct (getRandomHosts rs2 bs2) as [[h2 bs3]|].
Qed.

Lemma wellFormed_updateHostList (fetched : list ServerList_Entry) :
  fetched ≠ [] → wellFormed (updateHostListFromCoordinator fetched).
Proof. intros H. by split. Qed.

Lemma getRandomHosts_defined (rs : list Z) (bs : State) :
  wellFormed bs → numUsedHosts bs = length (hostsOrder bs) →
  length rs < length (hostsOrder bs) →
  ∃ hs bs', getRandomHosts rs bs = Some (hs, bs')
            ∧ wellFormed bs' ∧ hosts bs' = hosts bs.
Proof.
  intros Hwf Hused Hlen. destruct rs as [|r rs].
  - by exists [], bs.
  - assert (Hcur : cursor bs = 0).
    { unfold cursor. rewrite decide_True by lia. done. }
    destruct (getRandomHosts_round (r :: rs) bs Hwf) as
      (hs & bs' & Hrun & Hwf' & Hhosts & _); [done | lia |].
    by exists hs, bs'.
Qed.

(** ** Claims *)

(** C9.  For a selector with a non-empty host list whose [hostsOrder]
    is a permutation of the host positions, any [2 N] consecutive calls
    of [getRandomHost] (with [N] the number of hosts), whatever the
    random values, all return, leave the host list as it is, and return
    every host at least once. *)
Theorem getRandomHost_covers_all_hosts (randoms : list Z) (bs : State) :
  wellFormed bs →
  length randoms = 2 * length (hosts bs) →
  ∃ hs bs',
    getRandomHosts randoms bs = Some (hs, bs')
    ∧ hosts bs' = hosts bs
    ∧ wellFormed bs'
    ∧ ∀ h, h < length (hosts bs) → h ∈ hs.
Proof.
  intros Hwf Hlen.
  destruct (wellFormed_length bs Hwf) as [HN Hpos].
  pose proof (cursor_lt bs Hwf) as Hc.
  set (N := length (hosts bs)) in *. set (c := cursor bs) in *.
  rewrite <- (take_drop (N - c) randoms).
  rewrite <- (take_drop N (drop (N - c) randoms)).
  set (rs1 := take (N - c) randoms).
  set (rs2 := take N (drop (N - c) randoms)).
  set (rs3 := drop N (drop (N - c) randoms)).
  assert (Hl1 : length rs1 = N - c) by (unfold rs1; rewrite length_take; lia).
  assert (Hl2 : length rs2 = N)
    by (unfold rs2; rewrite length_take, length_drop; lia).
  assert (Hl3 : length rs3 = c)
    by (unfold rs3; rewrite !length_drop; lia).
  destruct (getRandomHosts_round rs1 bs Hwf) as
    (hs1 & bs1 & Hrun1 & Hwf1 & Hhosts1 & Hused1 & Hlen1 & _);
    [intros Hnil; rewrite Hnil in Hl1; simpl in Hl1; lia | fold c; lia |].
  assert (Hc1 : cursor bs1 = 0).
  { unfold cursor. rewrite decide_True; [done|]. fold c in Hused1. lia. }
  destruct (getRandomHosts_round rs2 bs1 Hwf1) as
    (hs2 & bs2 & Hrun2 & Hwf2 & Hhosts2 & Hused2 & Hlen2 & Hhs2 & _);
    [intros Hnil; rewrite Hnil in Hl2; simpl in Hl2; lia | lia |].
  destruct (getRandomHosts_defined rs3 bs2 Hwf2) as
    (hs3 & bs3 & Hrun3 & Hwf3 & Hhosts3); [lia | lia |].
  exists (hs1 ++ hs2 ++ hs3), bs3.
  rewrite getRandomHosts_app, Hrun1. cbv beta iota.
  rewrite getRandomHosts_app, Hrun2, Hrun3.
  split; [done|]. split; [congruence|]. split; [done|].
  intros h Hh. apply elem_of_app. right. apply elem_of_app. left.
  rewrite Hhs2, Hc1, drop_0, take_ge by lia.
  destruct Hwf2 as [_ Hperm]. rewrite Hperm, Hhosts2, Hhosts1.
  apply list_elem_of_lookup. exists h. rewrite lookup_seq. fold N. lia.
Qed.

Lemma getRandomHost_covers_all_hosts_witness :
  let row := {| pb_services := 2; pb_server_id := mkServerId 1 0;
                pb_service_locator := "b"; pb_status := UP;
                pb_expected_read_mbytes_per_sec := 100;
                pb_replication_id := 0 |} in
  let bs := updateHostListFromCoordinator [row; row] in
  wellFormed bs
  ∧ ∃ hs bs', getRandomHosts [7; 0; 3; 1]%Z bs = Some (hs, bs')
              ∧ hosts bs' = hosts bs ∧ wellFormed bs'
              ∧ ∀ h, h < length (hosts bs) → h ∈ hs.
Proof.
  intros row bs.
  assert (H : wellFormed bs) by (by apply wellFormed_updateHostList).
  split; [exact H|].
  exact (getRandomHost_covers_all_hosts [7; 0; 3; 1]%Z bs H eq_refl).
Defined.

(** ** Further properties of the selector *)

Lemma wellFormed_host (bs : State) (i h : nat) :
  wellFormed bs → hostsOrder bs !! i = Some h → h < length (hosts bs).
Proof.
  intros [_ Hperm] Hh.
  assert (Hin : h ∈ seq 0 (length (hosts bs))).
  { rewrite <- Hperm. by apply list_elem_of_lookup_2 with i. }
  apply elem_of_seq in Hin. lia.
Qed.

Lemma wellFormed_NoDup (bs : State) : wellFormed bs → NoDup (hostsOrder bs).
Proof. intros [_ Hperm]. rewrite Hperm. apply NoDup_seq. Qed.

Lemma getRandomHosts_total (rs : list Z) (bs : State) :
  wellFormed bs →
  ∃ hs bs', getRandomHosts rs bs = Some (hs, bs')
            ∧ wellFormed bs' ∧ hosts bs' = hosts bs.
Proof.
  revert bs. induction rs as [|r rs IH]; intros bs Hwf.
  - by exists [], bs.
  - destruct (getRandomHost_step r bs Hwf)
      as (h & bs1 & Hrun & Hwf1 & Hhosts1 & _).
    destruct (IH bs1 Hwf1) as (hs & bs2 & Hrun2 & Hwf2 & Hhosts2).
    exists (h :: hs), bs2. cbn [getRandomHosts].
    rewrite Hrun. cbn [mbind option_bind]. rewrite Hrun2.
    cbn [mbind option_bind]. split; [done|]. split; [done|]. congruence.
Qed.

(** Two rounds' worth of calls, or more, return every host. *)
Lemma getRandomHosts_cover (randoms : list Z) (bs : State) :
  wellFormed bs →
  2 * length (hosts bs) ≤ length randoms →
  ∃ hs bs',
    getRandomHosts randoms bs = Some (hs, bs')
    ∧ hosts bs' = hosts bs
    ∧ wellFormed bs'
    ∧ ∀ h, h < length (hosts bs) → h ∈ hs.
Proof.
  intros Hwf Hlen.
  destruct (wellFormed_length bs Hwf) as [HN Hpos].
  pose proof (cursor_lt bs Hwf) as Hc.
  set (N := length (hosts bs)) in *. set (c := cursor bs) in *.
  rewrite <- (take_drop (N - c) randoms).
  rewrite <- (take_drop N (drop (N - c) randoms)).
  set (rs1 := take (N - c) randoms).
  set (rs2 := take N (drop (N - c) randoms)).
  set (rs3 := drop N (drop (N - c) randoms)).
  assert (Hl1 : length rs1 = N - c) by (unfold rs1; rewrite length_take; lia).
  assert (Hl2 : length rs2 = N)
    by (unfold rs2; rewrite length_take, length_drop; lia).
  destruct (getRandomHosts_round rs1 bs Hwf) as
    (hs1 & bs1 & Hrun1 & Hwf1 & Hhosts1 & Hused1 & Hlen1 & _);
    [intros Hnil; rewrite Hnil in Hl1; simpl in Hl1; lia | fold c; lia |].
  assert (Hc1 : cursor bs1 = 0).
  { unfold cursor. rewrite decide_True; [done|]. fold c in Hused1. lia. }
  destruct (getRandomHosts_round rs2 bs1 Hwf1) as
    (hs2 & bs2 & Hrun2 & Hwf2 & Hhosts2 & Hused2 & Hlen2 & Hhs2 & _);
    [intros Hnil; rewrite Hnil in Hl2; simpl in Hl2; lia | lia |].
  destruct (getRandomHosts_total rs3 bs2 Hwf2) as
    (hs3 & bs3 & Hrun3 & Hwf3 & Hhosts3).
  exists (hs1 ++ hs2 ++ hs3), bs3.
  rewrite getRandomHosts_app, Hrun1. cbv beta iota.
  rewrite getRandomHosts_app, Hrun2, Hrun3.
  split; [done|]. split; [congruence|]. split; [done|].
  intros h Hh. apply elem_of_app. right. apply elem_of_app. left.
  rewrite Hhs2, Hc1, drop_0, take_ge by lia.
  destruct Hwf2 as [_ Hperm]. rewrite Hperm, Hhosts2, Hhosts1.
  apply list_elem_of_lookup. exists h. rewrite lookup_seq. fold N. lia.
Qed.

Lemma conflictWithAny_true (a : nat) (backups : list nat) :
  conflictWithAny a backups = true ↔ a ∈ backups.
Proof.
  induction backups as [|b rest IH]; simpl.
  - split; [done|]. intros H. by apply elem_of_nil in H.
  - unfold conflict. rewrite elem_of_cons. case_bool_decide as Hab.
    + split; [by left|done].
    + rewrite IH. split; [by right|]. by intros [?|?].
Qed.

Lemma selectAdditionalTries_spec (rs : list Z) (backups : list nat)
    (bs : State) :
  wellFormed bs →
  ∃ r bs',
    selectAdditionalTries rs backups bs = Some (r, bs')
    ∧ wellFormed bs' ∧ hosts bs' = hosts bs
    ∧ match r with
      | Some h => h < length (hosts bs) ∧ h ∉ backups
      | None => ∃ hs, getRandomHosts rs bs = Some (hs, bs')
                      ∧ Forall (λ h, h ∈ backups) hs
      end.
Proof.
  revert bs. induction rs as [|r rs IH]; intros bs Hwf.
  - exists None, bs. split; [done|]. split; [done|]. split; [done|].
    by exists [].
  - destruct (getRandomHost_step r bs Hwf)
      as (h & bs1 & Hrun & Hwf1 & Hhosts1 & _ & _ & Hh & _).
    cbn [selectAdditionalTries getRandomHosts]. rewrite Hrun.
    cbn [mbind option_bind].
    destruct (conflictWithAny h backups) eqn:Hconf.
    + apply conflictWithAny_true in Hconf.
      destruct (IH bs1 Hwf1) as (r' & bs2 & Hrun2 & Hwf2 & Hhosts2 & Hr).
      exists r', bs2. split; [done|]. split; [done|].
      split; [congruence|]. destruct r' as [h'|].
      * by rewrite <- Hhosts1.
      * destruct Hr as (hs & Hhs & Hall). exists (h :: hs).
        rewrite Hhs. cbn [mbind option_bind]. split; [done|].
        by constructor.
    + exists (Some h), bs1. split; [done|]. split; [done|].
      split; [done|]. split.
      * rewrite <- Hhosts1. by apply (wellFormed_host bs1 (cursor bs)).
      * intros Hin%conflictWithAny_true. congruence.
Qed.

(** X16.  Within a round [getRandomHost] returns no host twice: from a
    well-formed selector, calls that stay within the current round all
    return, their results are positions of [hosts], pairwise distinct and
    distinct from the hosts already used in the round (the first
    [numUsedHosts] elements of [hostsOrder]); a whole round, from cursor 0,
    returns a permutation of all the hosts. *)
Theorem getRandomHost_no_repeat_in_round (randoms : list Z) (bs : State) :
  wellFormed bs →
  cursor bs + length randoms ≤ length (hosts bs) →
  ∃ hs bs',
    getRandomHosts randoms bs = Some (hs, bs')
    ∧ NoDup hs
    ∧ (∀ h, h ∈ hs →
         h < length (hosts bs) ∧ h ∉ take (cursor bs) (hostsOrder bs))
    ∧ (cursor bs = 0 → length randoms = length (hosts bs) →
       hs ≡ₚ seq 0 (length (hosts bs))).
Proof.
  intros Hwf Hfit. destruct (wellFormed_length bs Hwf) as [HN Hpos].
  destruct randoms as [|r rs].
  { exists [], bs. split; [done|]. split; [constructor|].
    split; [by intros h Hh%elem_of_nil|]. simpl. lia. }
  set (randoms := r :: rs) in *.
  destruct (getRandomHosts_round randoms bs Hwf) as
    (hs & bs' & Hrun & Hwf' & Hhosts & Hused & Hlen & Hhs & Htake);
    [done | lia |].
  pose proof (wellFormed_NoDup bs' Hwf') as Hnd.
  rewrite <- (take_drop (cursor bs) (hostsOrder bs')) in Hnd.
  apply NoDup_app in Hnd as (_ & Hdisj & Hnd).
  assert (Hsub : ∀ h, h ∈ hs → h ∈ drop (cursor bs) (hostsOrder bs')).
  { intros h Hh. rewrite Hhs in Hh.
    apply elem_of_take in Hh as (i & Hi & _).
    by apply list_elem_of_lookup_2 with i. }
  exists hs, bs'. split; [done|]. split; [|split].
  - rewrite Hhs. apply (sublist_NoDup _ _ Hnd), sublist_take.
  - intros h Hh. pose proof (Hsub h Hh) as Hd. split.
    + apply list_elem_of_lookup in Hd as [i Hi].
      rewrite lookup_drop in Hi. rewrite <- Hhosts.
      by apply (wellFormed_host bs' (cursor bs + i)).
    + rewrite <- Htake. intros Hin. by apply (Hdisj h).
  - intros Hc Hall. rewrite Hhs, Hc, drop_0, take_ge by lia.
    destruct Hwf' as [_ Hperm]. by rewrite Hperm, Hhosts.
Qed.

Lemma getRandomHost_no_repeat_in_round_witness :
  let row := {| pb_services := 2; pb_server_id := mkServerId 1 0;
                pb_service_locator := "b"; pb_status := UP;
                pb_expected_read_mbytes_per_sec := 100;
                pb_replication_id := 0 |} in
  let bs := updateHostListFromCoordinator [row; row; row] in
  ∃ hs bs', getRandomHosts [5; 1; 9]%Z bs = Some (hs, bs') ∧ NoDup hs.
Proof.
  intros row bs.
  assert (H : wellFormed bs) by (by apply wellFormed_updateHostList).
  assert (Hfit : cursor bs + length [5; 1; 9]%Z ≤ length (hosts bs)).
  { vm_compute. repeat constructor. }
  destruct (getRandomHost_no_repeat_in_round [5; 1; 9]%Z bs H Hfit)
    as (hs & bs' & Hrun & Hnd & _).
  exists hs, bs'. split; [exact Hrun|exact Hnd].
Defined.

(** X17.  One pass of the loop of [selectAdditional] over a well-formed
    selector with fewer than [2 ^ 31] hosts, whatever the random values:
    every call of [getRandomHost] in it returns and the host list is left
    as it is; the pass returns a host exactly when some host is not among
    [backups], and the host it returns is a position of [hosts] that is
    not among [backups]; it runs to its end, so that the host list is
    refreshed, only when every host is among [backups]. *)
Theorem selectAdditional_finds_free_host (random : nat → Z)
    (backups : list nat) (bs : State) :
  wellFormed bs →
  (Z.of_nat (length (hosts bs)) < 2 ^ 31)%Z →
  ∃ r bs',
    selectAdditionalPass random backups bs = Some (r, bs')
    ∧ hosts bs' = hosts bs
    ∧ wellFormed bs'
    ∧ match r with
      | Some h => h < length (hosts bs) ∧ h ∉ backups
      | None => ∀ h, h < length (hosts bs) → h ∈ backups
      end.
Proof.
  intros Hwf Hsmall. unfold selectAdditionalPass.
  assert (Hbound : selectAdditionalBound bs = 2 * length (hosts bs)).
  { unfold selectAdditionalBound. rewrite Z.mod_small by lia. lia. }
  rewrite Hbound. set (rs := random <$> seq 0 (2 * length (hosts bs))).
  assert (Hlen : length rs = 2 * length (hosts bs)).
  { unfold rs. by rewrite length_fmap, length_seq. }
  destruct (selectAdditionalTries_spec rs backups bs Hwf)
    as (r & bs' & Hrun & Hwf' & Hhosts & Hr).
  exists r, bs'. split; [done|]. split; [done|]. split; [done|].
  destruct r as [h|]; [done|].
  destruct Hr as (hs & Hhs & Hall). intros h Hh.
  destruct (getRandomHosts_cover rs bs Hwf) as (hs' & bs'' & Hrun' & _ & _ & Hcov);
    [lia|].
  rewrite Hhs in Hrun'. injection Hrun' as <- <-.
  rewrite Forall_forall in Hall. apply Hall. by apply Hcov.
Qed.

Lemma selectAdditional_finds_free_host_witness :
  let row := {| pb_services := 2; pb_server_id := mkServerId 1 0;
                pb_service_locator := "b"; pb_status := UP;
                pb_expected_read_mbytes_per_sec := 100;
                pb_replication_id := 0 |} in
  let bs := updateHostListFromCoordinator [row; row; row] in
  ∃ r bs', selectAdditionalPass (λ k, Z.of_nat k + 3)%Z [0; 2] bs
           = Some (r, bs')
           ∧ hosts bs' = hosts bs.
Proof.
  intros row bs.
  assert (H : wellFormed bs) by (by apply wellFormed_updateHostList).
  assert (Hsmall : (Z.of_nat (length (hosts bs)) < 2 ^ 31)%Z).
  { vm_compute. reflexivity. }
  destruct (selectAdditional_finds_free_host
              (λ k, Z.of_nat k + 3)%Z [0; 2] bs H Hsmall)
    as (r & bs' & Hrun & Hhosts & _).
  exists r, bs'. split; [exact Hrun|exact Hhosts].
Defined.

End BackupSelectorProperties.
